(** * Queen-bee / mutant-bee evolution (qbmb.py): a shallow embedding

    The script is a single module-level loop over torch tensors.  Integer
    tensors (dtype int64) are lists of [Z] with the wrap-around of the
    arithmetic written out; a two-dimensional tensor is a list of rows.
    Shapes agree by construction (each random tensor is drawn with the shape
    of the tensor it is combined with, and every genome has the length of the
    target), so an elementwise operation pairs the rows and entries of its
    arguments position by position.

    The float tensor of fitnesses is a list of [float] values: the exact
    quotient [1 / s], or the IEEE result [+inf] of dividing by zero.  The
    rounding of the quotient to float32 is not modelled.  The script uses the
    fitnesses only through comparisons and the test for [inf]; rounding
    leaves two quotients in their order or makes them equal, and it keeps
    them apart for sums below 2^22, which covers the constants of the script
    (25 positions, sums below 2^21).  Beyond that the script can see a tie
    where this model sees a strict order; what is stated below about the
    order of fitnesses is stated so that it holds of both.

    The two mutation thresholds are Python floats that a tensor of ranks is
    compared with; that comparison decides how many positions are mutated,
    so it is modelled as it is computed: the constant is the double nearest
    to its literal, the product with the length is rounded to double, and
    the comparison rounds both sides to float32.

    Random tensors are read from an explicit source indexed by row and
    column, so every function below is deterministic and executable.
    Operations that raise in Python or torch (an index out of range, [topk]
    on too short a dimension, a negative size, [chr] of a value that is no
    code point) return [Err]. *)

From Stdlib Require Import String Ascii ZArith QArith Qround Qabs Qpower.
From Stdlib Require Import List Bool Lia Permutation Sorted Eqdep_dec.
Import ListNotations.
Close Scope Q_scope.

(** ** Errors raised by the interpreter or by torch *)

Inductive exn : Type :=
| IndexError
| RuntimeError
| TypeError
| AttributeError
| ValueError
| OverflowError.

Inductive result (A : Type) : Type :=
| Ok (a : A)
| Err (e : exn).

Arguments Ok {A} a.
Arguments Err {A} e.

Definition bind {A B : Type} (m : result A) (k : A -> result B) : result B :=
  match m with
  | Ok a => k a
  | Err e => Err e
  end.

Notation "x <- m ;; k" := (bind m (fun x => k))
  (at level 61, m at next level, right associativity).

Fixpoint mapM {A B : Type} (f : A -> result B) (l : list A) : result (list B) :=
  match l with
  | [] => Ok []
  | x :: r => y <- f x ;; ys <- mapM f r ;; Ok (y :: ys)
  end.

(** [l[i]] for a non-negative index. *)
Definition index {A : Type} (l : list A) (i : nat) : result A :=
  match nth_error l i with
  | Some x => Ok x
  | None => Err IndexError
  end.

(** [l[ids]]: advanced indexing along the first dimension. *)
Definition gather {A : Type} (l : list A) (ids : list nat) : result (list A) :=
  mapM (index l) ids.

(** [l[:k]] with Python's reading of a negative or too large bound. *)
Definition py_take {A : Type} (k : Z) (l : list A) : list A :=
  if (k <? 0)%Z
  then firstn (Z.to_nat (Z.of_nat (length l) + k)) l
  else firstn (Z.to_nat k) l.

(** ** int64 arithmetic *)

Definition wrap64 (z : Z) : Z := ((z + 2 ^ 63) mod 2 ^ 64 - 2 ^ 63)%Z.

Definition add64 (a b : Z) : Z := wrap64 (a + b).
Definition sub64 (a b : Z) : Z := wrap64 (a - b).
Definition mul64 (a b : Z) : Z := wrap64 (a * b).

(** [t.sum()] of an int64 vector. *)
Definition sum64 (l : list Z) : Z := fold_left add64 l 0%Z.

(** Elementwise operation on two vectors of the same length. *)
Definition zip_with {A B C : Type} (f : A -> B -> C) (l : list A) (r : list B) : list C :=
  map (fun p => f (fst p) (snd p)) (combine l r).

(** [t.clamp_(lo, hi)]. *)
Definition clamp (lo hi : Z) (row : list Z) : list Z :=
  map (fun v => Z.min (Z.max v lo) hi) row.

(** ** Floats: exact quotients and the infinite sentinel *)

Inductive float : Type :=
| Inf
| Finite (q : Q).

(** [1. / s] for an integer [s] converted to float: IEEE division, so a zero
    divisor gives [+inf] and nothing is raised. *)
Definition recip (s : Z) : float :=
  if (s =? 0)%Z then Inf else Finite (/ inject_Z s)%Q.

Definition is_inf (f : float) : bool :=
  match f with
  | Inf => true
  | Finite _ => false
  end.

(** [a < b] on floats. *)
Definition flt (a b : float) : bool :=
  match a, b with
  | Inf, _ => false
  | Finite _, Inf => true
  | Finite p, Finite q => negb (Qle_bool q p)
  end.

(** [a >= b] on floats. *)
Definition fge (a b : float) : bool := negb (flt a b).

(** ** Python floats and float32 scalars

    A value of an IEEE 754 binary format: a rational that the format
    represents (zero standing for both zeros), an infinity, or NaN. *)

Inductive fp : Type :=
| fp_nan
| fp_neg_inf
| fp_num (q : Q)
| fp_pos_inf.

(** A format: the number of bits of the significand and the largest
    exponent.  Python's float is binary64, a float32 tensor is binary32. *)
Record format : Type := {
  precision : Z;
  emax : Z
}.

Definition binary32 : format := {| precision := 24; emax := 127 |}.
Definition binary64 : format := {| precision := 53; emax := 1023 |}.

(** The exponent of the smallest normal number. *)
Definition emin (f : format) : Z := (1 - emax f)%Z.

Definition Qlt_bool (a b : Q) : bool := negb (Qle_bool b a).

(** Rounding to the nearest integer, ties to the even one. *)
Definition round_half_even (q : Q) : Z :=
  let f := Qfloor q in
  match Qcompare (q - inject_Z f) (1 # 2) with
  | Lt => f
  | Gt => (f + 1)%Z
  | Eq => if Z.even f then f else (f + 1)%Z
  end.

(** The exponent [e] with [2^e <= q < 2^(e+1)], for a positive [q]. *)
Definition floor_log2 (q : Q) : Z :=
  let e := (Z.log2 (Qnum q) - Z.log2 (Zpos (Qden q)))%Z in
  if Qle_bool (2 ^ e) q then e else (e - 1)%Z.

(** Rounding to the nearest value of the format, ties to the even
    significand: the significand is an integer multiple of the unit in the last
    place, which is fixed below the normal range (subnormal numbers); a result
    beyond the largest finite value is an infinity. *)
Definition rnd (f : format) (q : Q) : fp :=
  if Qeq_bool q 0 then fp_num 0
  else
    let a := Qabs q in
    let e := Z.max (floor_log2 a) (emin f) in
    let ulp := (2 ^ (e - precision f + 1))%Q in
    let r := (inject_Z (round_half_even (a / ulp)) * ulp)%Q in
    if Qle_bool (2 ^ (emax f + 1)) r
    then (if Qle_bool 0 q then fp_pos_inf else fp_neg_inf)
    else fp_num (Qred (if Qle_bool 0 q then r else - r)).

(** The Python float that a literal with the decimal value [q] denotes. *)
Definition py_float (q : Q) : fp := rnd binary64 q.

(** An integer converted to the format. *)
Definition fp_of_int (f : format) (z : Z) : fp := rnd f (inject_Z z).

(** A value converted to the format ([float32(x)] for a double [x]). *)
Definition fp_cast (f : format) (a : fp) : fp :=
  match a with
  | fp_num x => rnd f x
  | _ => a
  end.

(** [a * b] in the format. *)
Definition fp_mul (f : format) (a b : fp) : fp :=
  match a, b with
  | fp_nan, _ | _, fp_nan => fp_nan
  | fp_num x, fp_num y => rnd f (x * y)
  | fp_num x, fp_pos_inf | fp_pos_inf, fp_num x =>
      if Qeq_bool x 0 then fp_nan else if Qle_bool 0 x then fp_pos_inf else fp_neg_inf
  | fp_num x, fp_neg_inf | fp_neg_inf, fp_num x =>
      if Qeq_bool x 0 then fp_nan else if Qle_bool 0 x then fp_neg_inf else fp_pos_inf
  | fp_pos_inf, fp_pos_inf | fp_neg_inf, fp_neg_inf => fp_pos_inf
  | fp_pos_inf, fp_neg_inf | fp_neg_inf, fp_pos_inf => fp_neg_inf
  end.

(** [a < b]; false when either side is NaN. *)
Definition fp_lt (a b : fp) : bool :=
  match a, b with
  | fp_nan, _ | _, fp_nan => false
  | _, fp_neg_inf => false
  | fp_neg_inf, _ => true
  | fp_pos_inf, _ => false
  | fp_num _, fp_pos_inf => true
  | fp_num x, fp_num y => Qlt_bool x y
  end.

(** ** argsort

    [keys.argsort()] by a strict order [before]: the positions of [keys],
    those with the smaller key first.  Equal keys keep their original order
    here; torch leaves their order open, and nothing below depends on it. *)

Section Argsort.
Context {K : Type}.
Variable before : K -> K -> bool.

Fixpoint insert (x : nat * K) (l : list (nat * K)) : list (nat * K) :=
  match l with
  | [] => [x]
  | y :: r => if before (snd y) (snd x) then y :: insert x r else x :: y :: r
  end.

Definition isort (l : list (nat * K)) : list (nat * K) :=
  fold_right insert [] l.

Definition enumerate (keys : list K) : list (nat * K) :=
  combine (seq 0 (length keys)) keys.

Definition argsort (keys : list K) : list nat :=
  map fst (isort (enumerate keys)).

(** [x] may stand before [y]. *)
Definition in_order (x y : nat * K) : Prop := before (snd y) (snd x) = false.
End Argsort.

(** A sample of [torch.randn]: only the order of the samples is used by the
    script (through [argsort]), so a sample is an integer ordered like the
    float it stands for. *)
Definition sample : Type := Z.

Definition argsort_asc (keys : list sample) : list nat := argsort Z.ltb keys.

(** [f.sort(descending = True).indices]. *)
Definition argsort_desc (keys : list float) : list nat :=
  argsort (fun a b => flt b a) keys.

(** ** Python strings (lines 25-29)

    A character of a Python string is a code point, an integer in
    [0, 0x10FFFF]; [ord] gives it back, and a string is a list of
    characters. *)

Definition code_range (i : Z) : bool := ((0 <=? i) && (i <=? 1114111))%Z.

Record pychar : Type := {
  ord : Z;
  ord_range : code_range ord = true
}.

(** The values that fit a C int, to which CPython converts the argument
    of [chr] before it looks at the range. *)
Definition c_int (i : Z) : bool := ((- 2 ^ 31 <=? i) && (i <? 2 ^ 31))%Z.

(** [chr(i)]: OverflowError when [i] does not fit a C int, ValueError
    when it does and is no code point. *)
Definition chr (i : Z) : result pychar :=
  (if code_range i as b return code_range i = b -> result pychar
   then fun H => Ok {| ord := i; ord_range := H |}
   else fun _ => if c_int i then Err ValueError else Err OverflowError) eq_refl.

(** [encode(s)]: the code of every character, as a tensor. *)
Definition encode (s : list pychar) : list Z := map ord s.

(** [decode(t)]: [''.join([chr(i) for i in t.tolist()])]; the first value
    that [chr] refuses raises. *)
Definition decode (t : list Z) : result (list pychar) := mapM chr t.

(** The characters of a string literal, which are below 256. *)
Definition ascii_range (a : ascii) : code_range (Z.of_nat (nat_of_ascii a)) = true.
Proof. destruct a as [[] [] [] [] [] [] [] []]; reflexivity. Qed.

Definition char_of_ascii (a : ascii) : pychar :=
  {| ord := Z.of_nat (nat_of_ascii a); ord_range := ascii_range a |}.

(** The Python string that a string literal of the script stands for. *)
Definition text (s : string) : list pychar :=
  map char_of_ascii (list_ascii_of_string s).

(** ** Configuration: the constants at the head of the script

    [GOAL] is a string and [POP_SIZE] and [NUM_TOURNAMENT_PARTICIPANTS] are
    integers of either sign; the two probabilities are float literals, given
    by their decimal value. *)

Record Config : Type := {
  GOAL : list pychar;
  POP_SIZE : Z;
  MUTATION_PROB : Q;
  STRONG_MUTATION_PROB : Q;
  NUM_TOURNAMENT_PARTICIPANTS : Z
}.

(** The constants as they are in the script. *)
Definition shipped : Config := {|
  GOAL := text "Attention is all you need";
  POP_SIZE := 100;
  MUTATION_PROB := (4 # 100)%Q;
  STRONG_MUTATION_PROB := (25 # 100)%Q;
  NUM_TOURNAMENT_PARTICIPANTS := 25
|}.

(** ** The random source

    One field per call of [torch.randn] or [torch.randint] in the loop body;
    the entry at row [i], column [j] of the tensor drawn is the field at
    [i] and [j].  [randint] reduces a raw draw into [[low, high)]. *)

Record Rng : Type := {
  randn_contender : nat -> nat -> sample;
  randn_strong : nat -> nat -> sample;
  randint_strong : nat -> nat -> Z;
  randn_crossover : nat -> nat -> sample;
  randn_weak : nat -> nat -> sample;
  randint_weak : nat -> nat -> Z
}.

Definition randn (src : nat -> nat -> sample) (rows cols : nat) : list (list sample) :=
  map (fun i => map (src i) (seq 0 cols)) (seq 0 rows).

Definition randint (src : nat -> nat -> Z) (low high : Z) (rows cols : nat) : list (list Z) :=
  map (fun i => map (fun j => (low + src i j mod (high - low))%Z) (seq 0 cols)) (seq 0 rows).

(** ** Fitness *)

(** [1. / torch.square(g - target).sum()] for one row [g]. *)
Definition fitness (target g : list Z) : float :=
  recip (sum64 (map (fun d => mul64 d d) (zip_with sub64 g target))).

(** ** Mutation: the shape shared by lines 96-98 and 119-121 *)

(** [keys.argsort() < threshold] for one row: position [j] is selected when
    the entry at [j] of the permutation returned by [argsort] is below the
    threshold.  The permutation is an int64 tensor and the threshold a Python
    float, so torch compares in float32, the entry and the threshold both
    converted. *)
Definition mutate_mask (threshold : fp) (keys : list sample) : list bool :=
  map (fun k => fp_lt (fp_of_int binary32 (Z.of_nat k)) (fp_cast binary32 threshold))
      (argsort_asc keys).

(** [draw * 2 - 1] for one row of [torch.randint(0, 2, ...)]. *)
Definition noise (draw : list Z) : list Z :=
  map (fun r => sub64 (mul64 r 2) 1) draw.

(** [torch.where(mask, a, b)] for one row. *)
Definition where_ (mask : list bool) (a b : list Z) : list Z :=
  zip_with (fun m ab => if m : bool then fst ab else snd ab) mask (combine a b).

Definition mutate_row (threshold : fp) (keys : list sample) (draw : list Z) (row : list Z) : list Z :=
  where_ (mutate_mask threshold keys) (zip_with add64 row (noise draw)) row.

(** [torch.where(mask, t + noise, t)] with [mask] and [noise] as above. *)
Definition mutate (threshold : fp) (keys : list (list sample)) (draws : list (list Z))
    (t : list (list Z)) : list (list Z) :=
  zip_with (fun kd row => mutate_row threshold (fst kd) (snd kd) row) (combine keys draws) t.

(** ** Tournament helper: [row.topk(1).indices], the position of a largest
    entry (the first one; torch leaves the choice among equals open). *)

Fixpoint argmax_from (best_i : nat) (best : float) (i : nat) (l : list float) : nat :=
  match l with
  | [] => best_i
  | x :: r => if flt best x then argmax_from i x (S i) r else argmax_from best_i best (S i) r
  end.

Definition top1 (row : list float) : result nat :=
  match row with
  | [] => Err RuntimeError
  | x :: r => Ok (argmax_from 0 x 1 r)
  end.

(** ** The module-level variables carried from one iteration to the next

    [mutated_pool] is unbound until line 121 first assigns it. *)

Record State : Type := {
  generation : nat;
  pool : list (list Z);
  queen : option (list Z);
  queen_fitness : option float;
  mutated_pool : option (list (list Z))
}.

Inductive outcome : Type :=
| Break (s : State)
| Continue (s : State).

Section Program.
Variable cfg : Config.

(** *** Derived constants (lines 33-38) *)

Definition gene_length : nat := length (GOAL cfg).
Definition gene_midpoint : nat := Nat.div gene_length 2.
Definition target_gene : list Z := encode (GOAL cfg).

(** A float times an int: the int is converted and the product rounded,
    both in double precision (a length is far below 2^1024, where the
    conversion would raise instead). *)
Definition num_code_mutate : fp :=
  fp_mul binary64 (py_float (MUTATION_PROB cfg))
         (fp_of_int binary64 (Z.of_nat gene_length)).
Definition strong_num_code_mutate : fp :=
  fp_mul binary64 (py_float (STRONG_MUTATION_PROB cfg))
         (fp_of_int binary64 (Z.of_nat gene_length)).

(** *** Lines 42-46 *)

(** The variables as lines 42-46 leave them. *)
Definition initial (src : nat -> nat -> Z) : State := {|
  generation := 1;
  pool := randint src 0 255 (Z.to_nat (POP_SIZE cfg)) gene_length;
  queen := None;
  queen_fitness := None;
  mutated_pool := None
|}.

(** [torch.randint] raises on a negative size, before the loop is entered. *)
Definition init (src : nat -> nat -> Z) : result State :=
  if (POP_SIZE cfg <? 0)%Z then Err RuntimeError else Ok (initial src).

(** *** Lines 53-56: evaluate and sort *)

Definition fitnesses (p : list (list Z)) : list float :=
  map (fitness target_gene) p.

Definition sort_by_fitness (p : list (list Z)) : result (list (list Z) * list float) :=
  let f := fitnesses p in
  let indices := argsort_desc f in
  p' <- gather p indices ;;
  f' <- gather f indices ;;
  Ok (p', f').

(** *** Lines 75-78: a better child demotes the queen *)

Definition demote (q : option (list Z)) (qf : option float)
    (p : list (list Z)) (f : list float)
    : result (option (list Z) * option float * list (list Z) * list float) :=
  match q with
  | None => Ok (q, qf, p, f)
  | Some qg =>
      f0 <- index f 0 ;;
      match qf with
      | None => Err TypeError
      | Some qfv =>
          if flt qfv f0
          then Ok (None, None, p ++ [qg], f ++ [qfv])
          else Ok (q, qf, p, f)
      end
  end.

(** *** Lines 82-84: the head of the population becomes queen *)

Definition extract (q : option (list Z)) (qf : option float)
    (p : list (list Z)) (f : list float)
    : result (option (list Z) * option float * list (list Z) * list float) :=
  match q with
  | None =>
      q0 <- index p 0 ;;
      f0 <- index f 0 ;;
      Ok (Some q0, Some f0, tl p, tl f)
  | Some _ => Ok (q, qf, p, f)
  end.

(** *** Lines 88-92: tournament selection *)

Definition contender_ids (rng : Rng) (n : nat) : list (list nat) :=
  map (fun keys => py_take (NUM_TOURNAMENT_PARTICIPANTS cfg) (argsort_asc keys))
      (randn (randn_contender rng) n n).

(** The size of the last dimension of [contender_ids]. *)
Definition tournament_width (n : nat) : nat :=
  length (py_take (NUM_TOURNAMENT_PARTICIPANTS cfg) (seq 0 n)).

(** [torch.randn] raises on the negative size [POP_SIZE - 1], and [topk(1)]
    on a last dimension of size 0. *)
Definition parents (rng : Rng) (p : list (list Z)) (f : list float)
    : result (list (list Z)) :=
  if (POP_SIZE cfg - 1 <? 0)%Z then Err RuntimeError
  else
    let n := Z.to_nat (POP_SIZE cfg - 1) in
    let ids := contender_ids rng n in
    participants <- mapM (gather p) ids ;;
    tournaments <- mapM (gather f) ids ;;
    if Nat.eqb (tournament_width n) 0 then Err RuntimeError
    else
      mapM (fun pt => top_winner <- top1 (snd pt) ;; index (fst pt) top_winner)
           (combine participants tournaments).

(** *** Lines 96-99: strong mutation of the chosen parents *)

Definition strong_mutate_unclamped (rng : Rng) (ps : list (list Z)) : list (list Z) :=
  mutate strong_num_code_mutate
         (randn (randn_strong rng) (length ps) gene_length)
         (randint (randint_strong rng) 0 2 (length ps) gene_length)
         ps.

Definition mutated_parents (rng : Rng) (ps : list (list Z)) : list (list Z) :=
  map (clamp 0 255) (strong_mutate_unclamped rng ps).

(** *** Lines 103-115: crossover with the queen

    Line 88 has passed when these lines run, so [POP_SIZE - 1] is not
    negative here. *)

Definition crossover_row (qg : list Z) (order_keys : list sample) (mate : list Z)
    : result (list Z) :=
  let queen_and_parents := [qg; mate] in
  let rand_crossover_order := argsort_asc order_keys in
  reordered <- gather queen_and_parents rand_crossover_order ;;
  first <- index reordered 0 ;;
  second <- index reordered 1 ;;
  Ok (firstn gene_midpoint first ++ skipn gene_midpoint second).

Definition crossover (rng : Rng) (qg : list Z) (mates : list (list Z))
    : result (list (list Z)) :=
  mapM (fun km => crossover_row qg (fst km) (snd km))
       (combine (randn (randn_crossover rng) (Z.to_nat (POP_SIZE cfg - 1)) 2) mates).

(** *** Lines 119-121: weak mutation, bound to [mutated_pool] *)

Definition weak_mutate (rng : Rng) (p : list (list Z)) : list (list Z) :=
  mutate num_code_mutate
         (randn (randn_weak rng) (length p) gene_length)
         (randint (randint_weak rng) 0 2 (length p) gene_length)
         p.

(** *** One pass through the loop body (lines 48-127) *)

Definition iteration (rng : Rng) (st : State) : result outcome :=
  pf <- sort_by_fitness (pool st) ;;
  let p := fst pf in
  let f := snd pf in
  if existsb is_inf f
  then Ok (Break {| generation := generation st;
                    pool := p;
                    queen := queen st;
                    queen_fitness := queen_fitness st;
                    mutated_pool := mutated_pool st |})
  else
    d <- demote (queen st) (queen_fitness st) p f ;;
    e <- extract (fst (fst (fst d))) (snd (fst (fst d))) (snd (fst d)) (snd d) ;;
    let q := fst (fst (fst e)) in
    let qf := snd (fst (fst e)) in
    ps <- parents rng (snd (fst e)) (snd e) ;;
    let mates := mutated_parents rng ps in
    match q with
    | None => Err AttributeError
    | Some qg =>
        children <- crossover rng qg mates ;;
        let mp := weak_mutate rng children in
        Ok (Continue {| generation := S (generation st);
                        pool := map (clamp 0 255) children;
                        queen := q;
                        queen_fitness := qf;
                        mutated_pool := Some mp |})
    end.

(** *** The loop, for a bounded number of passes

    [run fuel rngs st] is [Ok (Break s)] when the loop left through line 70
    within [fuel] passes, [Ok (Continue s)] when it is still going. *)

Fixpoint run (fuel : nat) (rngs : nat -> Rng) (st : State) : result outcome :=
  match fuel with
  | O => Ok (Continue st)
  | S fuel' =>
      o <- iteration (rngs (generation st)) st ;;
      match o with
      | Break s => Ok (Break s)
      | Continue s => run fuel' rngs s
      end
  end.

(** The script: lines 42-46, then the loop. *)
Definition script (fuel : nat) (rngs : nat -> Rng) (src : nat -> nat -> Z) : result outcome :=
  st <- init src ;; run fuel rngs st.

(** States at the head of the loop in some execution of the script. *)
Inductive reachable : State -> Prop :=
| reachable_init : forall src st, init src = Ok st -> reachable st
| reachable_step : forall rng st st',
    reachable st -> iteration rng st = Ok (Continue st') -> reachable st'.

End Program.

(** ** The display of a generation (lines 60-65) *)

(** Lines 60-62: the queen, when there is one, with her fitness. *)
Definition display_queen (q : option (list Z)) (qf : option float)
    : result (option (list pychar * float)) :=
  match q with
  | None => Ok None
  | Some qg =>
      s <- decode qg ;;
      match qf with
      | Some v => Ok (Some (s, v))
      | None => Err AttributeError
      end
  end.

(** Lines 64-65: one line per pair of [zip(pool, fitnesses)]. *)
Definition display_pool (rows : list (list Z * float)) : result (list (list pychar * float)) :=
  mapM (fun gv => s <- decode (fst gv) ;; Ok (s, snd gv)) rows.

(** What lines 60-65 print for a sorted population, the number that
    [:.3f] formats being kept as it is. *)
Definition display (q : option (list Z)) (qf : option float)
    (p : list (list Z)) (f : list float)
    : result (option (list pychar * float) * list (list pychar * float)) :=
  dq <- display_queen q qf ;;
  dp <- display_pool (combine p f) ;;
  Ok (dq, dp).

(** * Vocabulary of the properties *)

(** ** Values and rows *)

(** A gene value as the data model has it. *)
Definition byte_valued (v : Z) : Prop := (0 <= v <= 255)%Z.

(** A value [ord(c)] of a Python character. *)
Definition code_point (v : Z) : Prop := (0 <= v <= 1114111)%Z.

Definition below_255 (g : list Z) : Prop := Forall (fun v => (0 <= v <= 254)%Z) g.

(** The sum of squared differences over the integers. *)
Definition sum_sq (g t : list Z) : Z :=
  fold_right Z.add 0%Z (map (fun p => ((fst p - snd p) * (fst p - snd p))%Z) (combine g t)).

(** Fitnesses with the largest first: [f[i] >= f[i+1]] at every position. *)
Definition descending (f : list float) : Prop :=
  Sorted (fun a b => fge a b = true) f.

(** One row of [torch.randint(low, high, ...)]. *)
Definition randint_row (src : nat -> nat -> Z) (low high : Z) (i cols : nat) : list Z :=
  map (fun j => (low + src i j mod (high - low))%Z) (seq 0 cols).

(** The number of positions a mask selects. *)
Definition count_true (mask : list bool) : nat := length (filter (fun b => b) mask).

(** How many of the ranks [0 .. n-1] are below a float32 threshold. *)
Definition ranks_below (t : fp) (n : nat) : nat :=
  match t with
  | fp_num q => Nat.min n (Z.to_nat (Qceiling q))
  | fp_pos_inf => n
  | _ => 0
  end.

(** The number of positions at which two rows differ. *)
Definition changed_positions (a b : list Z) : nat :=
  length (filter (fun p => negb (fst p =? snd p)%Z) (combine a b)).

(** ** Random sources that differ in one tensor *)

(** A source whose crossover samples for every row are [k0] and [k1]. *)
Definition with_crossover_keys (rng : Rng) (k0 k1 : sample) : Rng := {|
  randn_contender := randn_contender rng;
  randn_strong := randn_strong rng;
  randint_strong := randint_strong rng;
  randn_crossover := fun _ j => match j with O => k0 | _ => k1 end;
  randn_weak := randn_weak rng;
  randint_weak := randint_weak rng
|}.

(** The same source with other samples for lines 119 and 120. *)
Definition with_weak_draws (rng : Rng) (keys : nat -> nat -> sample) (draws : nat -> nat -> Z)
    : Rng := {|
  randn_contender := randn_contender rng;
  randn_strong := randn_strong rng;
  randint_strong := randint_strong rng;
  randn_crossover := randn_crossover rng;
  randn_weak := keys;
  randint_weak := draws
|}.

(** ** Configurations *)

(** A configuration the specification calls invalid. *)
Definition config_invalid (cfg : Config) : Prop :=
  (POP_SIZE cfg <= NUM_TOURNAMENT_PARTICIPANTS cfg)%Z \/
  (NUM_TOURNAMENT_PARTICIPANTS cfg < 1)%Z \/
  GOAL cfg = [] \/
  ~ (0 <= MUTATION_PROB cfg <= 1)%Q \/
  ~ (0 <= STRONG_MUTATION_PROB cfg <= 1)%Q.

(** ** States and passes *)

(** What the next pass reads of an outcome. *)
Definition carried (o : result outcome)
    : option (nat * list (list Z) * option (list Z) * option float) :=
  match o with
  | Ok (Continue s) => Some (generation s, pool s, queen s, queen_fitness s)
  | _ => None
  end.

Section Vocabulary.
Variable cfg : Config.

(** A well-formed genome: [gene_length] values, each in [0, 255]. *)
Definition genome_ok (g : list Z) : Prop :=
  length g = gene_length cfg /\ Forall byte_valued g.

(** Row [i] of [strong_mutate_mask] (line 96). *)
Definition strong_mutate_mask (rng : Rng) (i : nat) : list bool :=
  mutate_mask (strong_num_code_mutate cfg)
              (map (randn_strong rng i) (seq 0 (gene_length cfg))).

(** The two children a queen and a mate can have (line 115). *)
Definition queen_first (qg mate : list Z) : list Z :=
  firstn (gene_midpoint cfg) qg ++ skipn (gene_midpoint cfg) mate.

Definition mate_first (qg mate : list Z) : list Z :=
  firstn (gene_midpoint cfg) mate ++ skipn (gene_midpoint cfg) qg.

(** The child of row [i], as the two samples of line 109 for that row decide. *)
Definition child_of (rng : Rng) (qg : list Z) (i : nat) (mate : list Z) : list Z :=
  if (randn_crossover rng i 1 <? randn_crossover rng i 0)%Z
  then mate_first qg mate
  else queen_first qg mate.

(** The population as line 56 leaves it. *)
Definition sorted_pool (p : list (list Z)) : list (list Z) :=
  match sort_by_fitness cfg p with
  | Ok pf => fst pf
  | Err _ => p
  end.

(** The state in which line 70 leaves the loop. *)
Definition solved_state (st : State) : State := {|
  generation := generation st;
  pool := sorted_pool (pool st);
  queen := queen st;
  queen_fitness := queen_fitness st;
  mutated_pool := mutated_pool st
|}.

(** What a pass that reaches line 127 has computed on the way. *)
Inductive pass (rng : Rng) (st : State) : State -> Prop :=
| pass_intro : forall p q1 qf1 p1 f1 qg qf2 p2 f2 ps children,
    p = sorted_pool (pool st) ->
    existsb is_inf (fitnesses cfg p) = false ->
    demote (queen st) (queen_fitness st) p (fitnesses cfg p) = Ok (q1, qf1, p1, f1) ->
    extract q1 qf1 p1 f1 = Ok (Some qg, qf2, p2, f2) ->
    parents cfg rng p2 f2 = Ok ps ->
    crossover cfg rng qg (mutated_parents cfg rng ps) = Ok children ->
    pass rng st {| generation := S (generation st);
                   pool := map (clamp 0 255) children;
                   queen := Some qg;
                   queen_fitness := qf2;
                   mutated_pool := Some (weak_mutate cfg rng children) |}.

(** The queen and her cached fitness are set together; the cached value is
    the fitness of her genome and is finite; the population has [POP_SIZE]
    members before the first queen is taken and one fewer afterwards. *)
Definition queen_ok (st : State) : Prop :=
  match queen st, queen_fitness st with
  | None, None => Z.of_nat (length (pool st)) = POP_SIZE cfg
  | Some qg, Some qf =>
      genome_ok qg /\ qf = fitness (target_gene cfg) qg /\ is_inf qf = false /\
      Z.of_nat (S (length (pool st))) = POP_SIZE cfg
  | _, _ => False
  end.

(** The invariant of the loop head. *)
Definition wf (st : State) : Prop :=
  Forall genome_ok (pool st) /\ queen_ok st.

(** Some individual under consideration, a member of the population or
    the queen when there is one, has infinite fitness. *)
Definition some_infinite (st : State) : Prop :=
  (exists g, In g (pool st) /\ fitness (target_gene cfg) g = Inf) \/
  (exists qg, queen st = Some qg /\ fitness (target_gene cfg) qg = Inf).

End Vocabulary.

(** ** Inputs used in examples

    The samples of a random tensor given by a table, row by row. *)

Definition table (t : list (list Z)) : nat -> nat -> Z :=
  fun i j => nth j (nth i t []) 0%Z.

(** The two-letter scenario: target "AB", four individuals, tournaments
    of two. *)
Definition tiny : Config := {|
  GOAL := text "AB";
  POP_SIZE := 4;
  MUTATION_PROB := (4 # 100)%Q;
  STRONG_MUTATION_PROB := (25 # 100)%Q;
  NUM_TOURNAMENT_PARTICIPANTS := 2
|}.

(** Four letters and a strong probability just above a quarter: the
    product with the length is a double just above 1, and 1 as a float32. *)
Definition near_quarter : Config := {|
  GOAL := text "ABCD";
  POP_SIZE := 4;
  MUTATION_PROB := (4 # 100)%Q;
  STRONG_MUTATION_PROB := (25000001 # 100000000)%Q;
  NUM_TOURNAMENT_PARTICIPANTS := 2
|}.

(** More participants than individuals, and a probability of 3. *)
Definition oversized : Config := {|
  GOAL := text "AB";
  POP_SIZE := 4;
  MUTATION_PROB := 3%Q;
  STRONG_MUTATION_PROB := (25 # 100)%Q;
  NUM_TOURNAMENT_PARTICIPANTS := 7
|}.

(** A negative population size, below the number of participants. *)
Definition negative_population : Config := {|
  GOAL := text "AB";
  POP_SIZE := -1;
  MUTATION_PROB := (4 # 100)%Q;
  STRONG_MUTATION_PROB := (25 # 100)%Q;
  NUM_TOURNAMENT_PARTICIPANTS := 2
|}.

Definition src0 : nat -> nat -> Z := table [[65; 70]; [0; 67]; [65; 100]; [0; 0]]%Z.

Definition rng1 : Rng := {|
  randn_contender := table [[2; 0; 1]; [2; 0; 1]; [0; 1; 2]]%Z;
  randn_strong := table [[0; 1]; [1; 0]; [1; 0]]%Z;
  randint_strong := table [[0; 0]; [1; 1]; [0; 0]]%Z;
  randn_crossover := table [[0; 1]; [1; 0]; [0; 1]]%Z;
  randn_weak := table [[0; 1]; [0; 1]; [1; 0]]%Z;
  randint_weak := table [[1; 1]; [0; 0]; [1; 1]]%Z
|}.

Definition rng2 : Rng := {|
  randn_contender := table [[0; 1; 2]; [0; 1; 2]; [0; 1; 2]]%Z;
  randn_strong := table [[1; 0]; [1; 0]; [1; 0]]%Z;
  randint_strong := table [[1; 1]; [1; 1]; [1; 1]]%Z;
  randn_crossover := table [[0; 1]; [0; 1]; [0; 1]]%Z;
  randn_weak := table [[0; 1]; [0; 1]; [1; 0]]%Z;
  randint_weak := table [[1; 1]; [0; 0]; [1; 1]]%Z
|}.

(** A source whose samples increase along each row and whose sign draws
    are all 1. *)
Definition rng7 : Rng := {|
  randn_contender := fun _ j => Z.of_nat j;
  randn_strong := fun _ j => Z.of_nat j;
  randint_strong := fun _ _ => 1%Z;
  randn_crossover := fun _ j => Z.of_nat j;
  randn_weak := fun _ j => Z.of_nat j;
  randint_weak := fun _ _ => 1%Z
|}.

(** Generation 1: the initial population. *)
Definition st0 : State := initial tiny src0.

(** Generation 2, reached from [st0] with [rng1]. *)
Definition st1 : State := {|
  generation := 2;
  pool := [[65; 67]; [0; 70]; [65; 99]]%Z;
  queen := Some [65; 70]%Z;
  queen_fitness := Some (Finite (1 # 16));
  mutated_pool := Some [[66; 67]; [-1; 70]; [65; 100]]%Z
|}.

(** Generation 3, reached from [st1] with [rng2]. *)
Definition st2 : State := {|
  generation := 3;
  pool := [[65; 100]; [65; 100]; [65; 100]]%Z;
  queen := Some [65; 67]%Z;
  queen_fitness := Some (Finite 1);
  mutated_pool := Some [[66; 100]; [64; 100]; [65; 101]]%Z
|}.

(** An initial population holding 254, and the generation that follows it
    with [rng2]: the mates [0;254] are raised to [0;255] by strong mutation. *)
Definition src255 : nat -> nat -> Z :=
  table [[65; 70]; [0; 254]; [254; 254]; [254; 253]]%Z.

Definition st255 : State := {|
  generation := 2;
  pool := [[65; 255]; [65; 255]; [65; 255]]%Z;
  queen := Some [65; 70]%Z;
  queen_fitness := Some (Finite (1 # 16));
  mutated_pool := Some [[66; 255]; [64; 255]; [65; 256]]%Z
|}.

(** ** Further vocabulary *)

(** Row [i] of [mutate_mask] (line 119). *)
Definition weak_mutate_mask (cfg : Config) (rng : Rng) (i : nat) : list bool :=
  mutate_mask (num_code_mutate cfg)
              (map (randn_weak rng i) (seq 0 (gene_length cfg))).

(** The source of pass [g] of a run: [rng1] in generation 1, [rng2] after. *)
Definition rngs12 (g : nat) : Rng := if Nat.eqb g 1 then rng1 else rng2.

(** The two-letter scenario without individuals, and without participants. *)
Definition no_population : Config := {|
  GOAL := text "AB";
  POP_SIZE := 0;
  MUTATION_PROB := (4 # 100)%Q;
  STRONG_MUTATION_PROB := (25 # 100)%Q;
  NUM_TOURNAMENT_PARTICIPANTS := 2
|}.

Definition no_participants : Config := {|
  GOAL := text "AB";
  POP_SIZE := 4;
  MUTATION_PROB := (4 # 100)%Q;
  STRONG_MUTATION_PROB := (25 # 100)%Q;
  NUM_TOURNAMENT_PARTICIPANTS := 0
|}.

(** An initial population that holds the target "AB". *)
Definition src_solved : nat -> nat -> Z :=
  table [[0; 0]; [65; 66]; [65; 100]; [70; 70]]%Z.

(** The same constants with another [MUTATION_PROB]. *)
Definition with_mutation_prob (cfg : Config) (q : Q) : Config := {|
  GOAL := GOAL cfg;
  POP_SIZE := POP_SIZE cfg;
  MUTATION_PROB := q;
  STRONG_MUTATION_PROB := STRONG_MUTATION_PROB cfg;
  NUM_TOURNAMENT_PARTICIPANTS := NUM_TOURNAMENT_PARTICIPANTS cfg
|}.

(** The variables that a pass reads: all but [mutated_pool]. *)
Definition view (s : State) : nat * list (list Z) * option (list Z) * option float :=
  (generation s, pool s, queen s, queen_fitness s).

(** An outcome as far as those variables go: whether the loop stopped,
    and with what; or the exception. *)
Definition observe (o : result outcome)
    : result (bool * (nat * list (list Z) * option (list Z) * option float)) :=
  match o with
  | Ok (Break s) => Ok (true, view s)
  | Ok (Continue s) => Ok (false, view s)
  | Err e => Err e
  end.

(** [st1] with [mutated_pool] unbound. *)
Definition st1_unbound : State := {|
  generation := 2;
  pool := [[65; 67]; [0; 70]; [65; 99]]%Z;
  queen := Some [65; 70]%Z;
  queen_fitness := Some (Finite (1 # 16));
  mutated_pool := None
|}.

(** * Properties *)

(** ** The error monad and indexing *)

Lemma mapM_Forall2 {A B : Type} (f : A -> result B) (l : list A) (r : list B) :
  mapM f l = Ok r -> Forall2 (fun x y => f x = Ok y) l r.
Proof.
  revert r. induction l as [|x l IH]; simpl; intros r H.
  - injection H as <-. constructor.
  - destruct (f x) as [y|e] eqn:Hx; simpl in H; [|discriminate].
    destruct (mapM f l) as [ys|e] eqn:Hl; simpl in H; [|discriminate].
    injection H as <-. constructor; auto.
Qed.

Lemma Forall2_mapM {A B : Type} (f : A -> result B) (l : list A) (r : list B) :
  Forall2 (fun x y => f x = Ok y) l r -> mapM f l = Ok r.
Proof.
  induction 1 as [|x y l r Hx _ IH]; simpl; [reflexivity|].
  rewrite Hx, IH. reflexivity.
Qed.

Lemma mapM_length {A B : Type} (f : A -> result B) (l : list A) (r : list B) :
  mapM f l = Ok r -> length r = length l.
Proof.
  intros H. apply mapM_Forall2 in H. symmetry. eapply Forall2_length; eauto.
Qed.

Lemma mapM_total {A B : Type} (f : A -> result B) (l : list A) :
  (forall x, In x l -> exists y, f x = Ok y) -> exists r, mapM f l = Ok r.
Proof.
  induction l as [|x l IH]; simpl; intros H.
  - eexists; reflexivity.
  - destruct (H x (or_introl eq_refl)) as [y Hy].
    destruct IH as [r Hr]; [intros; apply H; auto|].
    rewrite Hy, Hr. simpl. eexists; reflexivity.
Qed.

Lemma mapM_In {A B : Type} (f : A -> result B) (l : list A) (r : list B) (y : B) :
  mapM f l = Ok r -> In y r -> exists x, In x l /\ f x = Ok y.
Proof.
  intros H. apply mapM_Forall2 in H.
  induction H as [|x y' l r Hx _ IH]; simpl; intros Hin; [contradiction|].
  destruct Hin as [<-|Hin]; [eauto|].
  destruct (IH Hin) as [x' [? ?]]; eauto.
Qed.

Lemma index_Ok {A : Type} (l : list A) (i : nat) (x : A) :
  index l i = Ok x <-> nth_error l i = Some x.
Proof.
  unfold index. destruct (nth_error l i); split; congruence.
Qed.

Lemma index_In {A : Type} (l : list A) (i : nat) (x : A) :
  index l i = Ok x -> In x l.
Proof.
  intros H. apply index_Ok in H. eapply nth_error_In; eauto.
Qed.

Lemma index_total {A : Type} (l : list A) (i : nat) :
  i < length l -> exists x, index l i = Ok x.
Proof.
  intros H. unfold index. destruct (nth_error l i) eqn:E; [eauto|].
  apply nth_error_None in E. lia.
Qed.

Lemma index_map {A B : Type} (f : A -> B) (l : list A) (i : nat) :
  index (map f l) i = match index l i with Ok x => Ok (f x) | Err e => Err e end.
Proof.
  unfold index. rewrite nth_error_map. destruct (nth_error l i); reflexivity.
Qed.

Lemma gather_map {A B : Type} (f : A -> B) (l : list A) (ids : list nat) :
  gather (map f l) ids =
  match gather l ids with Ok r => Ok (map f r) | Err e => Err e end.
Proof.
  unfold gather. induction ids as [|i ids IH]; simpl; [reflexivity|].
  rewrite index_map. destruct (index l i); simpl; [|reflexivity].
  rewrite IH. destruct (mapM (index l) ids); reflexivity.
Qed.

Lemma gather_total {A : Type} (l : list A) (ids : list nat) :
  Forall (fun i => i < length l) ids -> exists r, gather l ids = Ok r.
Proof.
  intros H. apply mapM_total. intros i Hi.
  apply index_total. rewrite Forall_forall in H. auto.
Qed.

Lemma gather_In {A : Type} (l : list A) (ids : list nat) (r : list A) (x : A) :
  gather l ids = Ok r -> In x r -> In x l.
Proof.
  intros H Hin. destruct (mapM_In _ _ _ _ H Hin) as [i [_ Hi]].
  eapply index_In; eauto.
Qed.

Lemma gather_length {A : Type} (l : list A) (ids : list nat) (r : list A) :
  gather l ids = Ok r -> length r = length ids.
Proof. apply mapM_length. Qed.

(** Gathering along a permutation of all positions permutes the list. *)
Lemma gather_seq {A : Type} (l : list A) :
  gather l (seq 0 (length l)) = Ok l.
Proof.
  apply Forall2_mapM.
  assert (G : forall (pre : list A), Forall2 (fun i y => index (pre ++ l) i = Ok y)
                (seq (length pre) (length l)) l).
  { induction l as [|x l IH]; intros pre; simpl; constructor.
    - apply index_Ok. rewrite nth_error_app2 by lia. rewrite Nat.sub_diag. reflexivity.
    - specialize (IH (pre ++ [x])). rewrite length_app in IH. simpl in IH.
      rewrite Nat.add_1_r in IH. rewrite <- app_assoc in IH. exact IH. }
  exact (G []).
Qed.

Lemma gather_Permutation {A : Type} (l : list A) (ids ids' : list nat) (r : list A) :
  Permutation ids ids' -> gather l ids = Ok r ->
  exists r', gather l ids' = Ok r' /\ Permutation r r'.
Proof.
  intros HP. revert r. induction HP; intros r H.
  - exists r. split; [exact H|apply Permutation_refl].
  - unfold gather in *. simpl in *.
    destruct (index l x) as [y|]; simpl in *; [|discriminate].
    destruct (mapM (index l) l0) as [ys|] eqn:E; simpl in *; [|discriminate].
    injection H as <-. destruct (IHHP ys eq_refl) as [r' [Hr' HP']].
    rewrite Hr'. simpl. eexists; split; [reflexivity|]. constructor; auto.
  - unfold gather in *. simpl in *.
    destruct (index l y) as [a|]; simpl in *; [|discriminate].
    destruct (index l x) as [b|]; simpl in *; [|discriminate].
    destruct (mapM (index l) l0) as [ys|]; simpl in *; [|discriminate].
    injection H as <-. eexists; split; [reflexivity|]. apply perm_swap.
  - destruct (IHHP1 r H) as [r1 [H1 P1]].
    destruct (IHHP2 r1 H1) as [r2 [H2 P2]].
    exists r2. split; [exact H2|]. eapply Permutation_trans; eauto.
Qed.

(** ** argsort returns a permutation of the positions, ordered by key *)

Section ArgsortFacts.
Context {K : Type}.
Variable before : K -> K -> bool.

Lemma insert_Permutation (x : nat * K) (l : list (nat * K)) :
  Permutation (insert before x l) (x :: l).
Proof.
  induction l as [|y l IH]; simpl; [apply Permutation_refl|].
  destruct (before (snd y) (snd x)).
  - eapply Permutation_trans; [apply perm_skip, IH|apply perm_swap].
  - apply Permutation_refl.
Qed.

Lemma isort_Permutation (l : list (nat * K)) : Permutation (isort before l) l.
Proof.
  induction l as [|x l IH]; simpl; [constructor|].
  eapply Permutation_trans; [apply insert_Permutation|]. constructor. exact IH.
Qed.

Lemma enumerate_fst (keys : list K) :
  map fst (enumerate keys) = seq 0 (length keys).
Proof.
  unfold enumerate. generalize 0. induction keys as [|k keys IH]; intros n; simpl.
  - reflexivity.
  - f_equal. apply IH.
Qed.

Lemma enumerate_index (keys : list K) (i : nat) (k : K) :
  In (i, k) (enumerate keys) -> index keys i = Ok k.
Proof.
  unfold enumerate. intros H. apply index_Ok.
  assert (G : forall n, In (i, k) (combine (seq n (length keys)) keys) ->
                        n <= i /\ nth_error keys (i - n) = Some k).
  { clear H. induction keys as [|k0 keys IH]; intros n; simpl; [contradiction|].
    intros [E|Hin].
    - injection E as <- <-. rewrite Nat.sub_diag. auto.
    - destruct (IH _ Hin) as [Hle Hn]. split; [lia|].
      replace (i - n) with (S (i - S n)) by lia. exact Hn. }
  destruct (G 0 H) as [_ G']. rewrite Nat.sub_0_r in G'. exact G'.
Qed.

Lemma argsort_Permutation (keys : list K) :
  Permutation (argsort before keys) (seq 0 (length keys)).
Proof.
  unfold argsort. rewrite <- enumerate_fst.
  apply Permutation_map, isort_Permutation.
Qed.

Lemma argsort_length (keys : list K) : length (argsort before keys) = length keys.
Proof.
  rewrite (Permutation_length (argsort_Permutation keys)). apply length_seq.
Qed.

Lemma argsort_lt (keys : list K) :
  Forall (fun i => i < length keys) (argsort before keys).
Proof.
  apply Forall_forall. intros i Hi.
  apply (Permutation_in _ (argsort_Permutation keys)) in Hi.
  apply in_seq in Hi. lia.
Qed.

(** The keys read through the positions returned are the sorted keys. *)
Lemma gather_argsort (keys : list K) :
  gather keys (argsort before keys) = Ok (map snd (isort before (enumerate keys))).
Proof.
  unfold argsort, gather.
  assert (G : forall l, (forall p, In p l -> index keys (fst p) = Ok (snd p)) ->
                        mapM (index keys) (map fst l) = Ok (map snd l)).
  { induction l as [|p l IH]; simpl; intros H; [reflexivity|].
    rewrite (H p) by auto. simpl. rewrite IH by auto. reflexivity. }
  apply G. intros [i k] Hin. simpl.
  apply enumerate_index.
  eapply Permutation_in; [apply isort_Permutation|exact Hin].
Qed.

Hypothesis before_asym : forall a b, before a b = true -> before b a = false.

Lemma insert_Sorted (x : nat * K) (l : list (nat * K)) :
  Sorted (in_order before) l -> Sorted (in_order before) (insert before x l).
Proof.
  induction 1 as [|y l Hs IH Hd]; simpl.
  - repeat constructor.
  - destruct (before (snd y) (snd x)) eqn:E.
    + constructor; [exact IH|].
      destruct l as [|z l]; simpl.
      * constructor. unfold in_order. apply before_asym. exact E.
      * destruct (before (snd z) (snd x)).
        -- inversion Hd; subst. constructor. assumption.
        -- constructor. unfold in_order. apply before_asym. exact E.
    + constructor; [constructor; assumption|]. constructor. exact E.
Qed.

Lemma isort_Sorted (l : list (nat * K)) : Sorted (in_order before) (isort before l).
Proof.
  induction l as [|x l IH]; simpl; [constructor|]. apply insert_Sorted, IH.
Qed.

Lemma Sorted_map_snd (l : list (nat * K)) :
  Sorted (in_order before) l -> Sorted (fun a b => before b a = false) (map snd l).
Proof.
  induction 1 as [|y l Hs IH Hd]; simpl; constructor; [exact IH|].
  destruct Hd; simpl; constructor. assumption.
Qed.

End ArgsortFacts.

(** ** Order on floats *)

Lemma flt_asym (a b : float) : flt a b = true -> flt b a = false.
Proof.
  destruct a as [|p], b as [|q]; simpl; try reflexivity; try discriminate.
  intros H. apply negb_true_iff in H. apply negb_false_iff.
  apply Qle_bool_iff. destruct (Qlt_le_dec p q) as [Hlt|Hle].
  - apply Qlt_le_weak. exact Hlt.
  - apply Qle_bool_iff in Hle. congruence.
Qed.

(** ** Sorting the population (lines 53-56) *)

Lemma descending_adjacent (f : list float) :
  descending f <->
  forall i a b, nth_error f i = Some a -> nth_error f (S i) = Some b -> fge a b = true.
Proof.
  unfold descending. split.
  - induction 1 as [|x l Hs IH Hd]; intros i a b Ha Hb.
    + destruct i; discriminate.
    + destruct i as [|i]; simpl in *.
      * injection Ha as <-. destruct Hd as [|y l Hxy]; simpl in Hb; [discriminate|].
        injection Hb as <-. exact Hxy.
      * eapply IH; eauto.
  - induction f as [|x l IH]; intros H; constructor.
    + apply IH. intros i a b Ha Hb. apply (H (S i) a b); assumption.
    + destruct l as [|y l]; constructor. apply (H 0 x y); reflexivity.
Qed.

(** ** int64 arithmetic without overflow *)

Lemma wrap64_small (z : Z) :
  (- 2 ^ 63 <= z < 2 ^ 63)%Z -> wrap64 z = z.
Proof.
  intros H. unfold wrap64. rewrite Z.mod_small; lia.
Qed.

Lemma square_bound (x y : Z) :
  (0 <= x <= 255)%Z -> (0 <= y <= 1114111)%Z ->
  (0 <= (x - y) * (x - y) <= 2 ^ 42)%Z.
Proof.
  intros Hx Hy. change (2 ^ 42)%Z with 4398046511104%Z.
  assert (H : (- 1114111 <= x - y <= 255)%Z) by lia.
  generalize dependent (x - y)%Z. intros d Hd. nia.
Qed.

Lemma sum_sq_nonneg (g t : list Z) : (0 <= sum_sq g t)%Z.
Proof.
  unfold sum_sq. induction (combine g t) as [|p l IH]; simpl; [lia|].
  pose proof (Z.square_nonneg (fst p - snd p)). lia.
Qed.

Lemma sum_sq_zero (g t : list Z) :
  length g = length t -> sum_sq g t = 0%Z -> g = t.
Proof.
  revert t. induction g as [|x g IH]; intros [|y t] Hlen; simpl in *; try discriminate.
  - reflexivity.
  - unfold sum_sq. simpl. fold (sum_sq g t). intros H.
    pose proof (sum_sq_nonneg g t). pose proof (Z.square_nonneg (x - y)).
    assert (Hxy : ((x - y) * (x - y) = 0)%Z) by lia.
    assert (Hs : sum_sq g t = 0%Z) by lia.
    f_equal; [nia|]. apply IH; [lia|exact Hs].
Qed.

Lemma sum_sq_refl (g : list Z) : sum_sq g g = 0%Z.
Proof.
  unfold sum_sq. induction g as [|x g IH]; simpl; [reflexivity|].
  rewrite IH. lia.
Qed.

(** Within these bounds the int64 pipeline of line 53 computes [sum_sq]. *)
Lemma sum64_squares (g t : list Z) :
  Forall byte_valued g -> Forall code_point t ->
  (Z.of_nat (length g) <= 2 ^ 20)%Z ->
  sum64 (map (fun d => mul64 d d) (zip_with sub64 g t)) = sum_sq g t.
Proof.
  intros Hg Ht Hlen. unfold sum64.
  assert (G : forall acc, (0 <= acc)%Z ->
            (acc + Z.of_nat (length g) * 2 ^ 42 < 2 ^ 63)%Z ->
            fold_left add64 (map (fun d => mul64 d d) (zip_with sub64 g t)) acc
            = (acc + sum_sq g t)%Z).
  { clear Hlen. revert t Ht. induction Hg as [|x g Hx Hg IH]; intros t Ht acc H0 Hb.
    - unfold sum_sq. simpl. lia.
    - destruct Ht as [|y t Hy Ht].
      + unfold sum_sq. simpl. lia.
      + unfold zip_with. simpl combine. simpl map. simpl fold_left.
        fold (zip_with sub64 g t).
        unfold sum_sq. simpl combine. simpl map. simpl fold_right. fold (sum_sq g t).
        unfold byte_valued in Hx. unfold code_point in Hy.
        assert (Hd : sub64 x y = (x - y)%Z).
        { unfold sub64. apply wrap64_small. lia. }
        pose proof (square_bound x y Hx Hy) as Hsq.
        assert (Hm : mul64 (sub64 x y) (sub64 x y) = ((x - y) * (x - y))%Z).
        { rewrite Hd. unfold mul64. apply wrap64_small. lia. }
        simpl length in Hb. rewrite Nat2Z.inj_succ in Hb.
        assert (Ha : add64 acc (mul64 (sub64 x y) (sub64 x y))
                     = (acc + (x - y) * (x - y))%Z).
        { rewrite Hm. unfold add64. apply wrap64_small. lia. }
        rewrite Ha. rewrite IH; [lia|exact Ht|lia|lia]. }
  rewrite G; lia.
Qed.

(** ** The derived constants of the script (lines 33-38) *)

Example shipped_constants :
  gene_length shipped = 25 /\ gene_midpoint shipped = 12 /\
  target_gene shipped
  = [65; 116; 116; 101; 110; 116; 105; 111; 110; 32; 105; 115; 32; 97; 108; 108; 32;
     121; 111; 117; 32; 110; 101; 101; 100]%Z /\
  py_float (MUTATION_PROB shipped) = fp_num (5764607523034235 # 144115188075855872) /\
  num_code_mutate shipped = fp_num 1 /\
  strong_num_code_mutate shipped = fp_num (25 # 4) /\
  fp_cast binary32 (num_code_mutate shipped) = fp_num 1 /\
  fp_cast binary32 (strong_num_code_mutate shipped) = fp_num (25 # 4).
Proof. repeat split; vm_compute; reflexivity. Qed.

(** ** Fitness (line 53) *)

Lemma fitness_recip (target g : list Z) :
  Forall byte_valued g -> Forall code_point target ->
  (Z.of_nat (length g) <= 2 ^ 20)%Z ->
  fitness target g = recip (sum_sq g target).
Proof.
  intros Hg Ht Hlen. unfold fitness. rewrite sum64_squares by assumption. reflexivity.
Qed.

(** C3. For a genome [g] with values in [0, 255] and a target of code points
    of the same length (at most 2^20 positions, so that the int64 sum cannot
    wrap), the fitness is the reciprocal of the sum of squared differences:
    it is [Inf], with nothing raised, exactly when [g] is the target, and
    otherwise a finite positive number equal to 1 / sum. *)
Theorem fitness_reciprocal_or_inf (target g : list Z) :
  length g = length target ->
  Forall byte_valued g -> Forall code_point target ->
  (Z.of_nat (length g) <= 2 ^ 20)%Z ->
  fitness target g = recip (sum_sq g target) /\
  (fitness target g = Inf <-> g = target) /\
  (g <> target ->
   exists q, fitness target g = Finite q /\
             (q == 1 / inject_Z (sum_sq g target))%Q /\ (0 < q)%Q).
Proof.
  intros Hlen Hg Ht Hn.
  rewrite (fitness_recip target g Hg Ht Hn).
  split; [reflexivity|]. unfold recip.
  pose proof (sum_sq_nonneg g target) as Hs.
  destruct (Z.eqb_spec (sum_sq g target) 0) as [E|E].
  - apply (sum_sq_zero g target Hlen) in E. subst g.
    split; [tauto|]. intros H. contradiction H. reflexivity.
  - split.
    + split; [discriminate|]. intros ->. rewrite sum_sq_refl in E. contradiction E. reflexivity.
    + intros _. eexists. split; [reflexivity|]. split.
      * unfold Qdiv. rewrite Qmult_1_l. reflexivity.
      * apply Qinv_lt_0_compat. unfold Qlt. simpl. lia.
Qed.

Lemma fitness_reciprocal_or_inf_witness :
  fitness [65; 66]%Z [65; 70]%Z = recip (sum_sq [65; 70]%Z [65; 66]%Z) /\
  (fitness [65; 66]%Z [65; 70]%Z = Inf <-> [65; 70]%Z = [65; 66]%Z) /\
  ([65; 70]%Z <> [65; 66]%Z ->
   exists q, fitness [65; 66]%Z [65; 70]%Z = Finite q /\
             (q == 1 / inject_Z (sum_sq [65; 70]%Z [65; 66]%Z))%Q /\ (0 < q)%Q).
Proof.
  apply (fitness_reciprocal_or_inf [65; 66]%Z [65; 70]%Z).
  - reflexivity.
  - repeat constructor; unfold byte_valued; lia.
  - repeat constructor; unfold code_point; lia.
  - simpl. lia.
Defined.

Section SortFacts.
Variable cfg : Config.

(** Lines 53-56 never raise; they leave a permutation of the population,
    its fitnesses at the same positions, largest first. *)
Lemma sort_by_fitness_spec (p : list (list Z)) :
  exists p', sort_by_fitness cfg p = Ok (p', fitnesses cfg p') /\
             Permutation p p' /\ descending (fitnesses cfg p').
Proof.
  unfold sort_by_fitness.
  set (before := fun a b : float => flt b a).
  assert (Hlt : Forall (fun i => i < length p) (argsort_desc (fitnesses cfg p))).
  { unfold argsort_desc. pose proof (argsort_lt before (fitnesses cfg p)) as H.
    unfold fitnesses in H at 1. rewrite length_map in H. exact H. }
  destruct (gather_total p _ Hlt) as [p' Hp'].
  exists p'. rewrite Hp'. simpl.
  pose proof (gather_map (fitness (target_gene cfg)) p (argsort_desc (fitnesses cfg p))) as Hm.
  rewrite Hp' in Hm. fold (fitnesses cfg p) in Hm. fold (fitnesses cfg p') in Hm.
  rewrite Hm. simpl. split; [reflexivity|]. split.
  - destruct (gather_Permutation p (argsort_desc (fitnesses cfg p)) (seq 0 (length p)) p')
      as [r [Hr HP]].
    + unfold argsort_desc.
      replace (length p) with (length (fitnesses cfg p))
        by (unfold fitnesses; apply length_map).
      apply argsort_Permutation.
    + exact Hp'.
    + rewrite gather_seq in Hr. injection Hr as <-. apply Permutation_sym. exact HP.
  - unfold argsort_desc in Hm. rewrite gather_argsort in Hm. injection Hm as Hm.
    rewrite <- Hm. unfold descending.
    assert (Hs : Sorted (fun a b => before b a = false)
                        (map snd (isort before (enumerate (fitnesses cfg p))))).
    { apply Sorted_map_snd. apply isort_Sorted.
      intros a b. unfold before. apply flt_asym. }
    eapply Sorted_ind with (P := fun l => Sorted (fun a b => fge a b = true) l);
      [constructor| |exact Hs].
    intros a l _ IH Hd. constructor; [exact IH|].
    destruct Hd; constructor. unfold fge, before in *.
    apply negb_true_iff. assumption.
Qed.

End SortFacts.

(** ** The loop body, phase by phase *)

Section IterationFacts.
Variable cfg : Config.

Lemma sort_by_fitness_sorted_pool (p : list (list Z)) :
  sort_by_fitness cfg p = Ok (sorted_pool cfg p, fitnesses cfg (sorted_pool cfg p)).
Proof.
  unfold sorted_pool. destruct (sort_by_fitness_spec cfg p) as [p' [H _]].
  rewrite H. reflexivity.
Qed.

Lemma sorted_pool_Permutation (p : list (list Z)) : Permutation p (sorted_pool cfg p).
Proof.
  unfold sorted_pool. destruct (sort_by_fitness_spec cfg p) as [p' [H [HP _]]].
  rewrite H. exact HP.
Qed.

Lemma sorted_pool_descending (p : list (list Z)) :
  descending (fitnesses cfg (sorted_pool cfg p)).
Proof.
  unfold sorted_pool. destruct (sort_by_fitness_spec cfg p) as [p' [H [_ HD]]].
  rewrite H. exact HD.
Qed.

Lemma iteration_solved (rng : Rng) (st : State) :
  existsb is_inf (fitnesses cfg (sorted_pool cfg (pool st))) = true ->
  iteration cfg rng st = Ok (Break (solved_state cfg st)).
Proof.
  intros H. unfold iteration. rewrite sort_by_fitness_sorted_pool. simpl.
  rewrite H. reflexivity.
Qed.

Lemma iteration_Break (rng : Rng) (st s : State) :
  iteration cfg rng st = Ok (Break s) ->
  existsb is_inf (fitnesses cfg (sorted_pool cfg (pool st))) = true /\ s = solved_state cfg st.
Proof.
  unfold iteration. rewrite sort_by_fitness_sorted_pool. simpl.
  destruct (existsb is_inf (fitnesses cfg (sorted_pool cfg (pool st)))).
  - intros H. injection H as <-. split; reflexivity.
  - intros H.
    destruct (demote _ _ _ _) as [d|]; simpl in H; [|discriminate].
    destruct (extract _ _ _ _) as [e|]; simpl in H; [|discriminate].
    destruct (parents _ _ _ _) as [ps|]; simpl in H; [|discriminate].
    destruct (fst (fst (fst e))); [|discriminate].
    destruct (crossover _ _ _ _); simpl in H; discriminate.
Qed.

Lemma iteration_Continue (rng : Rng) (st st' : State) :
  iteration cfg rng st = Ok (Continue st') <-> pass cfg rng st st'.
Proof.
  split.
  - unfold iteration. rewrite sort_by_fitness_sorted_pool. simpl.
    destruct (existsb is_inf _) eqn:Hinf; [discriminate|].
    destruct (demote _ _ _ _) as [[[[q1 qf1] p1] f1]|] eqn:Hd; simpl; [|discriminate].
    destruct (extract _ _ _ _) as [[[[q2 qf2] p2] f2]|] eqn:He; simpl; [|discriminate].
    destruct (parents _ _ _ _) as [ps|] eqn:Hp; simpl; [|discriminate].
    destruct q2 as [qg|]; [|discriminate].
    destruct (crossover _ _ _ _) as [children|] eqn:Hc; simpl; [|discriminate].
    intros H. injection H as <-.
    econstructor; try eassumption; reflexivity.
  - intros [p q1 qf1 p1 f1 qg qf2 p2 f2 ps children Hs Hu Hd He Hp Hc].
    subst p. unfold iteration. rewrite sort_by_fitness_sorted_pool. simpl.
    rewrite Hu, Hd. simpl. rewrite He. simpl. rewrite Hp. simpl. rewrite Hc. reflexivity.
Qed.

End IterationFacts.

(** ** Elementwise operations and random tensors *)

Lemma length_zip_with {A B C : Type} (f : A -> B -> C) (l : list A) (r : list B) :
  length (zip_with f l r) = Nat.min (length l) (length r).
Proof. unfold zip_with. rewrite length_map. apply length_combine. Qed.

Lemma nth_error_zip_with {A B C : Type} (f : A -> B -> C) (l : list A) (r : list B) (i : nat) :
  nth_error (zip_with f l r) i =
  match nth_error l i, nth_error r i with
  | Some a, Some b => Some (f a b)
  | _, _ => None
  end.
Proof.
  unfold zip_with. revert r i. induction l as [|a l IH]; intros [|b r] [|i]; simpl;
    try reflexivity.
  - destruct (nth_error l i); reflexivity.
  - apply IH.
Qed.

Lemma nth_error_pair {A B : Type} (l : list A) (r : list B) (i : nat) :
  nth_error (combine l r) i =
  match nth_error l i, nth_error r i with
  | Some a, Some b => Some (a, b)
  | _, _ => None
  end.
Proof.
  revert r i. induction l as [|a l IH]; intros [|b r] [|i]; simpl; try reflexivity.
  - destruct (nth_error l i); reflexivity.
  - apply IH.
Qed.

Lemma nth_error_map_seq {A : Type} (f : nat -> A) (n i : nat) :
  i < n -> nth_error (map f (seq 0 n)) i = Some (f i).
Proof.
  intros H. rewrite nth_error_map. rewrite nth_error_seq.
  destruct (Nat.ltb_spec i n); [reflexivity|lia].
Qed.

Lemma length_randn (src : nat -> nat -> sample) (rows cols : nat) :
  length (randn src rows cols) = rows.
Proof. unfold randn. rewrite length_map. apply length_seq. Qed.

Lemma nth_error_randn (src : nat -> nat -> sample) (rows cols i : nat) :
  i < rows -> nth_error (randn src rows cols) i = Some (map (src i) (seq 0 cols)).
Proof.
  intros H. unfold randn.
  apply (nth_error_map_seq (fun i => map (src i) (seq 0 cols)) rows i H).
Qed.

Lemma length_randint (src : nat -> nat -> Z) (low high : Z) (rows cols : nat) :
  length (randint src low high rows cols) = rows.
Proof. unfold randint. rewrite length_map. apply length_seq. Qed.

Lemma nth_error_randint (src : nat -> nat -> Z) (low high : Z) (rows cols i : nat) :
  i < rows ->
  nth_error (randint src low high rows cols) i = Some (randint_row src low high i cols).
Proof.
  intros H. unfold randint.
  apply (nth_error_map_seq (fun i => randint_row src low high i cols) rows i H).
Qed.

Lemma randint_row_range (src : nat -> nat -> Z) (low high : Z) (i cols : nat) :
  (low < high)%Z ->
  Forall (fun v => (low <= v < high)%Z) (randint_row src low high i cols).
Proof.
  intros H. unfold randint_row. apply Forall_forall. intros v Hv.
  apply in_map_iff in Hv. destruct Hv as [j [<- _]].
  pose proof (Z.mod_pos_bound (src i j) (high - low) ltac:(lia)). lia.
Qed.

Lemma length_randint_row (src : nat -> nat -> Z) (low high : Z) (i cols : nat) :
  length (randint_row src low high i cols) = cols.
Proof. unfold randint_row. rewrite length_map. apply length_seq. Qed.

Lemma randint_rows (src : nat -> nat -> Z) (low high : Z) (rows cols : nat) (row : list Z) :
  In row (randint src low high rows cols) ->
  exists i, i < rows /\ row = randint_row src low high i cols.
Proof.
  unfold randint. intros H. apply in_map_iff in H. destruct H as [i [<- Hi]].
  apply in_seq in Hi. exists i. split; [lia|reflexivity].
Qed.

(** ** Clamping *)

Lemma clamp_byte_valued (row : list Z) : Forall byte_valued (clamp 0 255 row).
Proof.
  unfold clamp. apply Forall_forall. intros v Hv.
  apply in_map_iff in Hv. destruct Hv as [w [<- _]]. unfold byte_valued. lia.
Qed.

Lemma clamp_id (row : list Z) : Forall byte_valued row -> clamp 0 255 row = row.
Proof.
  unfold clamp. induction 1 as [|v row Hv _ IH]; simpl; [reflexivity|].
  rewrite IH. unfold byte_valued in Hv. f_equal. lia.
Qed.

Lemma length_clamp (lo hi : Z) (row : list Z) : length (clamp lo hi row) = length row.
Proof. unfold clamp. apply length_map. Qed.

Lemma nth_error_clamp (lo hi : Z) (row : list Z) (j : nat) :
  nth_error (clamp lo hi row) j =
  option_map (fun v => Z.min (Z.max v lo) hi) (nth_error row j).
Proof. unfold clamp. apply nth_error_map. Qed.

(** ** Mutation (lines 96-98 and 119-121) *)

Lemma length_mutate_mask (threshold : fp) (keys : list sample) :
  length (mutate_mask threshold keys) = length keys.
Proof. unfold mutate_mask. rewrite length_map. apply argsort_length. Qed.

Lemma length_noise (draw : list Z) : length (noise draw) = length draw.
Proof. unfold noise. apply length_map. Qed.

Lemma length_mutate_row (threshold : fp) (keys : list sample) (draw row : list Z) :
  length keys = length row -> length draw = length row ->
  length (mutate_row threshold keys draw row) = length row.
Proof.
  intros Hk Hd. unfold mutate_row, where_.
  rewrite length_zip_with, length_combine, length_zip_with, length_mutate_mask, length_noise.
  lia.
Qed.

(** Position by position: a masked position receives its value plus the
    noise, any other position keeps its value. *)
Lemma nth_error_mutate_row (threshold : fp) (keys : list sample) (draw row : list Z)
    (j : nat) (v : Z) :
  length keys = length row -> length draw = length row ->
  nth_error row j = Some v ->
  exists m r,
    nth_error (mutate_mask threshold keys) j = Some m /\
    nth_error draw j = Some r /\
    nth_error (mutate_row threshold keys draw row) j
    = Some (if m then add64 v (sub64 (mul64 r 2) 1) else v).
Proof.
  intros Hk Hd Hv.
  assert (Hj : j < length row) by (apply nth_error_Some; congruence).
  destruct (nth_error (mutate_mask threshold keys) j) as [m|] eqn:Em.
  2:{ apply nth_error_None in Em. rewrite length_mutate_mask in Em. lia. }
  destruct (nth_error draw j) as [r|] eqn:Er.
  2:{ apply nth_error_None in Er. lia. }
  exists m, r. split; [reflexivity|]. split; [reflexivity|].
  unfold mutate_row, where_.
  rewrite nth_error_zip_with, Em, nth_error_pair, nth_error_zip_with, Hv.
  unfold noise. rewrite nth_error_map, Er. simpl. destruct m; reflexivity.
Qed.

Lemma length_mutate (threshold : fp) (keys : list (list sample)) (draws : list (list Z))
    (t : list (list Z)) :
  length keys = length t -> length draws = length t ->
  length (mutate threshold keys draws t) = length t.
Proof.
  intros Hk Hd. unfold mutate. rewrite length_zip_with, length_combine. lia.
Qed.

Lemma nth_error_mutate (threshold : fp) (srck : nat -> nat -> sample) (srcd : nat -> nat -> Z)
    (cols : nat) (t : list (list Z)) (i : nat) (row : list Z) :
  nth_error t i = Some row ->
  nth_error (mutate threshold (randn srck (length t) cols)
                    (randint srcd 0 2 (length t) cols) t) i
  = Some (mutate_row threshold (map (srck i) (seq 0 cols))
                     (randint_row srcd 0 2 i cols) row).
Proof.
  intros Hr.
  assert (Hi : i < length t) by (apply nth_error_Some; congruence).
  unfold mutate. rewrite nth_error_zip_with, Hr, nth_error_pair.
  rewrite nth_error_randn, nth_error_randint by assumption. reflexivity.
Qed.

(** ** How many positions a mask selects *)

Lemma count_true_map {A : Type} (P : A -> bool) (l : list A) :
  count_true (map P l) = length (filter P l).
Proof.
  unfold count_true. induction l as [|x l IH]; simpl; [reflexivity|].
  destruct (P x); simpl; rewrite IH; reflexivity.
Qed.

Lemma filter_length_Permutation {A : Type} (P : A -> bool) (l l' : list A) :
  Permutation l l' -> length (filter P l) = length (filter P l').
Proof.
  induction 1; simpl.
  - reflexivity.
  - destruct (P x); simpl; congruence.
  - destruct (P x), (P y); reflexivity.
  - congruence.
Qed.

Lemma Qlt_bool_iff (a b : Q) : Qlt_bool a b = true <-> (a < b)%Q.
Proof.
  unfold Qlt_bool. rewrite negb_true_iff. split.
  - intros H. apply Qnot_le_lt. intros Hle. apply Qle_bool_iff in Hle. congruence.
  - intros H. destruct (Qle_bool b a) eqn:E; [|reflexivity].
    apply Qle_bool_iff in E. exfalso. eapply Qlt_not_le; eauto.
Qed.

(** A natural number is below the threshold exactly when it is below the
    threshold rounded up. *)
Lemma rank_below_ceiling (threshold : Q) (r : nat) :
  Qlt_bool (inject_Z (Z.of_nat r)) threshold = (Z.of_nat r <? Qceiling threshold)%Z.
Proof.
  destruct (Z.ltb_spec (Z.of_nat r) (Qceiling threshold)) as [H|H].
  - apply Qlt_bool_iff.
    eapply Qle_lt_trans; [|apply Qceiling_lt].
    rewrite <- Zle_Qle. lia.
  - destruct (Qlt_bool (inject_Z (Z.of_nat r)) threshold) eqn:E; [|reflexivity].
    apply Qlt_bool_iff in E. exfalso.
    assert (Hc : (inject_Z (Z.of_nat r) < inject_Z (Qceiling threshold))%Q).
    { eapply Qlt_le_trans; [exact E|apply Qle_ceiling]. }
    rewrite <- Zlt_Qlt in Hc. lia.
Qed.

(** *** Conversion of a rank to float32

    An integer below 2^24 has at most 24 significant bits, so it is a
    float32 and the conversion leaves it as it is. *)

Lemma Qpower_2_nonneg (k : Z) : (0 <= k)%Z -> (2 ^ k == inject_Z (2 ^ k))%Q.
Proof. intros H. rewrite (Zpower_Qpower 2 k H). reflexivity. Qed.

Lemma round_half_even_int (q : Q) (n : Z) : (q == inject_Z n)%Q -> round_half_even q = n.
Proof.
  intros H. unfold round_half_even.
  assert (Hf : Qfloor q = n).
  { rewrite (Qfloor_comp _ _ H). apply Qfloor_Z. }
  rewrite Hf.
  assert (Hc : ((q - inject_Z n) ?= (1 # 2))%Q = Lt).
  { rewrite H. rewrite <- Qlt_alt. unfold Qminus. rewrite Qplus_opp_r. reflexivity. }
  rewrite Hc. reflexivity.
Qed.

Lemma fp_of_int_exact (z : Z) :
  (0 <= z < 2 ^ 24)%Z -> exists q, fp_of_int binary32 z = fp_num q /\ (q == inject_Z z)%Q.
Proof.
  intros Hz. destruct z as [|p|p]; [| |lia].
  - exists 0%Q. split; reflexivity.
  - unfold fp_of_int, rnd.
    change (Qeq_bool (inject_Z (Z.pos p)) 0) with false. cbv iota.
    change (Qabs (inject_Z (Z.pos p))) with (inject_Z (Z.pos p)).
    change (Qle_bool 0 (inject_Z (Z.pos p))) with true. cbv iota.
    set (e := Z.log2 (Z.pos p)).
    assert (He : (0 <= e < 24)%Z).
    { unfold e. split; [apply Z.log2_nonneg|]. apply Z.log2_lt_pow2; lia. }
    assert (Hspec : (2 ^ e <= Z.pos p)%Z) by (apply Z.log2_spec; lia).
    assert (Hfl : floor_log2 (inject_Z (Z.pos p)) = e).
    { unfold floor_log2. simpl Qnum. simpl Qden. change (Z.log2 1) with 0%Z.
      rewrite Z.sub_0_r. fold e.
      assert (Hle : Qle_bool (2 ^ e) (inject_Z (Z.pos p)) = true).
      { apply Qle_bool_iff. rewrite (Qpower_2_nonneg e) by lia. rewrite <- Zle_Qle. exact Hspec. }
      rewrite Hle. reflexivity. }
    rewrite Hfl.
    replace (Z.max e (emin binary32)) with e by (unfold emin; simpl; lia).
    change (precision binary32) with 24%Z. change (emax binary32 + 1)%Z with 128%Z.
    set (k := (23 - e)%Z).
    assert (Hk : (0 <= k)%Z) by (unfold k; lia).
    assert (Hulp : (2 ^ (e - 24 + 1) == / inject_Z (2 ^ k))%Q).
    { replace (e - 24 + 1)%Z with (- k)%Z by (unfold k; lia).
      rewrite Qpower_opp, (Qpower_2_nonneg k Hk). reflexivity. }
    assert (Hpos : (0 < 2 ^ k)%Z) by (apply Z.pow_pos_nonneg; lia).
    assert (Hnz : ~ (inject_Z (2 ^ k) == 0)%Q).
    { intros E. unfold Qeq in E. simpl in E. lia. }
    assert (Hm : round_half_even (inject_Z (Z.pos p) / 2 ^ (e - 24 + 1)) = (Z.pos p * 2 ^ k)%Z).
    { apply round_half_even_int. rewrite Hulp. unfold Qdiv. rewrite Qinv_involutive.
      rewrite inject_Z_mult. reflexivity. }
    rewrite Hm.
    assert (Hr : (inject_Z (Z.pos p * 2 ^ k) * 2 ^ (e - 24 + 1) == inject_Z (Z.pos p))%Q).
    { rewrite Hulp, inject_Z_mult. field. exact Hnz. }
    assert (Hbig : Qle_bool (2 ^ 128) (inject_Z (Z.pos p * 2 ^ k) * 2 ^ (e - 24 + 1)) = false).
    { destruct (Qle_bool _ _) eqn:E; [|reflexivity]. apply Qle_bool_iff in E.
      rewrite Hr in E. rewrite (Qpower_2_nonneg 128) in E by lia. rewrite <- Zle_Qle in E.
      assert (2 ^ 24 < 2 ^ 128)%Z by reflexivity. lia. }
    rewrite Hbig. eexists. split; [reflexivity|]. rewrite Qred_correct. exact Hr.
Qed.

(** What line 96 (and 119) computes for a rank below 2^24. *)
Lemma rank_below_threshold (t : fp) (r : nat) :
  (Z.of_nat r < 2 ^ 24)%Z ->
  fp_lt (fp_of_int binary32 (Z.of_nat r)) t
  = match t with
    | fp_num q => (Z.of_nat r <? Qceiling q)%Z
    | fp_pos_inf => true
    | _ => false
    end.
Proof.
  intros Hr. destruct (fp_of_int_exact (Z.of_nat r)) as [q [-> Hq]]; [lia|].
  destruct t as [| |x|]; try reflexivity. simpl.
  rewrite <- rank_below_ceiling. unfold Qlt_bool. rewrite Hq. reflexivity.
Qed.

Lemma count_below (c : Z) (n : nat) :
  length (filter (fun r => (Z.of_nat r <? c)%Z) (seq 0 n)) = Nat.min n (Z.to_nat c).
Proof.
  induction n as [|n IH].
  - reflexivity.
  - rewrite seq_S, filter_app, length_app, IH. cbn [filter Nat.add].
    destruct (Z.ltb_spec (Z.of_nat n) c); cbn [length]; lia.
Qed.

Lemma filter_none {A : Type} (l : list A) : filter (fun _ => false) l = [].
Proof. induction l; simpl; auto. Qed.

Lemma filter_all {A : Type} (l : list A) : filter (fun _ => true) l = l.
Proof. induction l; simpl; congruence. Qed.

(** The mask of line 96 (and 119) selects as many positions as there are
    numbers among [0 .. length - 1] below the threshold as float32 has it:
    for a finite threshold, the threshold rounded up, capped by the length. *)
Lemma count_true_mutate_mask (threshold : fp) (keys : list sample) :
  (Z.of_nat (length keys) <= 2 ^ 24)%Z ->
  count_true (mutate_mask threshold keys)
  = ranks_below (fp_cast binary32 threshold) (length keys).
Proof.
  intros Hlen. unfold mutate_mask. rewrite count_true_map.
  rewrite (filter_length_Permutation _ _ _ (argsort_Permutation Z.ltb keys)).
  set (t := fp_cast binary32 threshold).
  rewrite (filter_ext_in _ (fun k => match t with
                                     | fp_num q => (Z.of_nat k <? Qceiling q)%Z
                                     | fp_pos_inf => true
                                     | _ => false
                                     end)).
  2:{ intros r Hr. apply in_seq in Hr. apply rank_below_threshold.
      unfold sample in *. lia. }
  unfold ranks_below. destruct t as [| |q|].
  - rewrite filter_none. reflexivity.
  - rewrite filter_none. reflexivity.
  - apply count_below.
  - rewrite filter_all. apply length_seq.
Qed.

(** ** The noise is +1 or -1 *)

Lemma noise_value (r : Z) :
  (0 <= r < 2)%Z -> sub64 (mul64 r 2) 1 = 1%Z \/ sub64 (mul64 r 2) 1 = (-1)%Z.
Proof.
  intros H. assert (E : r = 0%Z \/ r = 1%Z) by lia.
  destruct E as [-> | ->]; [right|left]; reflexivity.
Qed.

Lemma add64_byte (v d : Z) :
  byte_valued v -> d = 1%Z \/ d = (-1)%Z -> add64 v d = (v + d)%Z.
Proof.
  unfold byte_valued. intros Hv Hd. unfold add64. apply wrap64_small.
  assert (H : (2 ^ 63 = 9223372036854775808)%Z) by reflexivity. lia.
Qed.

Lemma Forall_by_position {A : Type} (P : A -> Prop) (l : list A) :
  (forall i x, nth_error l i = Some x -> P x) -> Forall P l.
Proof.
  intros H. apply Forall_forall. intros x Hx.
  destruct (In_nth_error _ _ Hx) as [i Hi]. eauto.
Qed.

Section MutationFacts.
Variable cfg : Config.

Lemma length_strong_mutate_unclamped (rng : Rng) (ps : list (list Z)) :
  length (strong_mutate_unclamped cfg rng ps) = length ps.
Proof.
  unfold strong_mutate_unclamped. apply length_mutate.
  - apply length_randn.
  - apply length_randint.
Qed.

Lemma length_mutated_parents (rng : Rng) (ps : list (list Z)) :
  length (mutated_parents cfg rng ps) = length ps.
Proof.
  unfold mutated_parents. rewrite length_map. apply length_strong_mutate_unclamped.
Qed.

Lemma nth_error_mutated_parents (rng : Rng) (ps : list (list Z)) (i : nat) (row : list Z) :
  nth_error ps i = Some row ->
  nth_error (mutated_parents cfg rng ps) i
  = Some (clamp 0 255
            (mutate_row (strong_num_code_mutate cfg)
                        (map (randn_strong rng i) (seq 0 (gene_length cfg)))
                        (randint_row (randint_strong rng) 0 2 i (gene_length cfg)) row)).
Proof.
  intros H. unfold mutated_parents, strong_mutate_unclamped.
  rewrite nth_error_map. rewrite (nth_error_mutate _ _ _ _ _ _ _ H). reflexivity.
Qed.

Lemma mutated_parents_ok (rng : Rng) (ps : list (list Z)) :
  Forall (genome_ok cfg) ps -> Forall (genome_ok cfg) (mutated_parents cfg rng ps).
Proof.
  intros Hps. apply Forall_by_position. intros i out Hout.
  destruct (nth_error ps i) as [row|] eqn:Hrow.
  2:{ apply nth_error_None in Hrow. rewrite <- (length_mutated_parents rng) in Hrow.
      apply nth_error_None in Hrow. congruence. }
  rewrite (nth_error_mutated_parents rng ps i row Hrow) in Hout. injection Hout as <-.
  assert (Hok : genome_ok cfg row).
  { rewrite Forall_forall in Hps. apply Hps. eapply nth_error_In; eauto. }
  destruct Hok as [Hlen _]. split.
  - rewrite length_clamp, length_mutate_row; [exact Hlen| |].
    + rewrite length_map, length_seq. auto.
    + rewrite length_randint_row. auto.
  - apply clamp_byte_valued.
Qed.

(** Row [i] of the parents after lines 96-99, position by position: a
    selected position holding [v] ends as [v + 1] or [v - 1] clamped into
    [0, 255]; every other position keeps its value. *)
Lemma mutated_parents_positions (rng : Rng) (ps : list (list Z)) (i : nat) (row : list Z) :
  nth_error ps i = Some row -> genome_ok cfg row ->
  exists out,
    nth_error (mutated_parents cfg rng ps) i = Some out /\
    length out = length row /\
    forall j v, nth_error row j = Some v ->
      (nth_error (strong_mutate_mask cfg rng i) j = Some true /\
       (nth_error out j = Some (Z.min (v + 1) 255) \/
        nth_error out j = Some (Z.max (v - 1) 0)))
      \/
      (nth_error (strong_mutate_mask cfg rng i) j = Some false /\
       nth_error out j = Some v).
Proof.
  intros Hrow [Hlen Hbytes].
  eexists. split; [apply (nth_error_mutated_parents rng ps i row Hrow)|].
  assert (Hk : length (map (randn_strong rng i) (seq 0 (gene_length cfg))) = length row)
    by (rewrite length_map, length_seq; auto).
  assert (Hd : length (randint_row (randint_strong rng) 0 2 i (gene_length cfg)) = length row)
    by (rewrite length_randint_row; auto).
  split; [rewrite length_clamp; apply length_mutate_row; assumption|].
  intros j v Hv.
  destruct (nth_error_mutate_row (strong_num_code_mutate cfg) _ _ row j v Hk Hd Hv)
    as [m [r [Hm [Hr Hout]]]].
  assert (Hvb : byte_valued v).
  { rewrite Forall_forall in Hbytes. apply Hbytes. eapply nth_error_In; eauto. }
  rewrite nth_error_clamp, Hout. unfold strong_mutate_mask. rewrite Hm. simpl.
  destruct m.
  - left. split; [reflexivity|].
    assert (Hr01 : (0 <= r < 2)%Z).
    { pose proof (randint_row_range (randint_strong rng) 0 2 i (gene_length cfg)
                    ltac:(lia)) as HF.
      rewrite Forall_forall in HF. apply HF. eapply nth_error_In; eauto. }
    unfold byte_valued in Hvb.
    destruct (noise_value r Hr01) as [E|E]; rewrite E;
      rewrite (add64_byte v _ Hvb) by auto; [left|right]; f_equal; lia.
  - right. split; [reflexivity|]. unfold byte_valued in Hvb. f_equal. lia.
Qed.

(** The same with the sign drawn at line 97: a selected position holding
    [v] ends as [v + 2 r - 1] clamped, [r] being the draw for that position. *)
Lemma mutated_parents_draws (rng : Rng) (ps : list (list Z)) (i : nat) (row : list Z)
    (j : nat) (v : Z) :
  nth_error ps i = Some row -> genome_ok cfg row -> nth_error row j = Some v ->
  exists out m r,
    nth_error (mutated_parents cfg rng ps) i = Some out /\
    nth_error (strong_mutate_mask cfg rng i) j = Some m /\
    nth_error (randint_row (randint_strong rng) 0 2 i (gene_length cfg)) j = Some r /\
    (0 <= r < 2)%Z /\
    nth_error out j = Some (if m then Z.min (Z.max (v + (2 * r - 1)) 0) 255 else v).
Proof.
  intros Hrow [Hlen Hbytes] Hv.
  assert (Hk : length (map (randn_strong rng i) (seq 0 (gene_length cfg))) = length row)
    by (rewrite length_map, length_seq; auto).
  assert (Hd : length (randint_row (randint_strong rng) 0 2 i (gene_length cfg)) = length row)
    by (rewrite length_randint_row; auto).
  destruct (nth_error_mutate_row (strong_num_code_mutate cfg) _ _ row j v Hk Hd Hv)
    as [m [r [Hm [Hr Hout]]]].
  assert (Hvb : byte_valued v).
  { rewrite Forall_forall in Hbytes. apply Hbytes. eapply nth_error_In; eauto. }
  assert (Hr01 : (0 <= r < 2)%Z).
  { pose proof (randint_row_range (randint_strong rng) 0 2 i (gene_length cfg)
                  ltac:(lia)) as HF.
    rewrite Forall_forall in HF. apply HF. eapply nth_error_In; eauto. }
  eexists. exists m, r.
  split; [apply (nth_error_mutated_parents rng ps i row Hrow)|].
  split; [exact Hm|]. split; [exact Hr|]. split; [exact Hr01|].
  rewrite nth_error_clamp, Hout. simpl. unfold byte_valued in Hvb. destruct m.
  - destruct (noise_value r Hr01) as [E|E]; rewrite E;
      rewrite (add64_byte v _ Hvb) by auto; f_equal;
      assert (r = 0 \/ r = 1)%Z as [-> | ->] by lia;
      try (vm_compute in E; discriminate); lia.
  - f_equal. lia.
Qed.

(** The amended C7, for row [i] of the parents (of at most 2^24 values,
    so that every rank is a float32): the mask of line 96 selects as many
    positions as there are ranks below the threshold that the comparison uses,
    the double [STRONG_MUTATION_PROB * gene_length] converted to float32; for
    a finite threshold that is the threshold rounded up, capped by the length.
    The number is fixed by the constants.  A selected position holding [v]
    ends as [v + 1] or [v - 1] clamped into [0, 255], every other position
    keeps its value, and the length is unchanged. *)
Theorem strong_mutation_row (rng : Rng) (ps : list (list Z)) (i : nat) (row : list Z) :
  (Z.of_nat (gene_length cfg) <= 2 ^ 24)%Z ->
  nth_error ps i = Some row -> genome_ok cfg row ->
  exists out,
    nth_error (mutated_parents cfg rng ps) i = Some out /\
    length out = length row /\
    length (strong_mutate_mask cfg rng i) = length row /\
    count_true (strong_mutate_mask cfg rng i)
    = ranks_below (fp_cast binary32 (strong_num_code_mutate cfg)) (gene_length cfg) /\
    forall j v, nth_error row j = Some v ->
      (nth_error (strong_mutate_mask cfg rng i) j = Some true /\
       (nth_error out j = Some (Z.min (v + 1) 255) \/
        nth_error out j = Some (Z.max (v - 1) 0)))
      \/
      (nth_error (strong_mutate_mask cfg rng i) j = Some false /\
       nth_error out j = Some v).
Proof.
  intros HL Hrow Hok.
  destruct (mutated_parents_positions rng ps i row Hrow Hok) as [out [Hout [Hlen Hpos]]].
  exists out. split; [exact Hout|]. split; [exact Hlen|].
  unfold strong_mutate_mask at 1 2.
  rewrite length_mutate_mask, count_true_mutate_mask, length_map, length_seq
    by (rewrite length_map, length_seq; exact HL).
  destruct Hok as [Hl _].
  split; [symmetry; exact Hl|]. split; [reflexivity|]. exact Hpos.
Qed.

End MutationFacts.

Lemma mapM_nth_error {A B : Type} (f : A -> result B) (l : list A) (r : list B) :
  mapM f l = Ok r ->
  forall i x, nth_error l i = Some x -> exists y, nth_error r i = Some y /\ f x = Ok y.
Proof.
  intros H. apply mapM_Forall2 in H.
  induction H as [|x y l r Hx _ IH]; intros i a Ha.
  - destruct i; discriminate.
  - destruct i as [|i]; simpl in *.
    + injection Ha as <-. eauto.
    + eauto.
Qed.

Section CrossoverFacts.
Variable cfg : Config.

Lemma crossover_row_spec (qg : list Z) (k0 k1 : sample) (mate : list Z) :
  crossover_row cfg qg [k0; k1] mate
  = Ok (if (k1 <? k0)%Z then mate_first cfg qg mate else queen_first cfg qg mate).
Proof.
  unfold crossover_row, argsort_asc, argsort, enumerate. simpl.
  destruct (k1 <? k0)%Z; reflexivity.
Qed.

Lemma crossover_total (rng : Rng) (qg : list Z) (mates : list (list Z)) :
  exists children, crossover cfg rng qg mates = Ok children.
Proof.
  unfold crossover. apply mapM_total. intros [keys mate] Hin. simpl.
  apply in_combine_l in Hin. unfold randn in Hin. apply in_map_iff in Hin.
  destruct Hin as [i [<- _]]. simpl. rewrite crossover_row_spec. eauto.
Qed.

Lemma length_crossover (rng : Rng) (qg : list Z) (mates children : list (list Z)) :
  crossover cfg rng qg mates = Ok children ->
  length children = Nat.min (Z.to_nat (POP_SIZE cfg - 1)) (length mates).
Proof.
  unfold crossover. intros H. apply mapM_length in H.
  rewrite H, length_combine, length_randn. reflexivity.
Qed.

Lemma nth_error_crossover (rng : Rng) (qg : list Z) (mates children : list (list Z))
    (i : nat) (mate : list Z) :
  crossover cfg rng qg mates = Ok children ->
  i < Z.to_nat (POP_SIZE cfg - 1) -> nth_error mates i = Some mate ->
  nth_error children i = Some (child_of cfg rng qg i mate).
Proof.
  unfold crossover. intros H Hi Hm.
  destruct (mapM_nth_error _ _ _ H i (map (randn_crossover rng i) (seq 0 2), mate))
    as [y [Hy Hrow]].
  - rewrite nth_error_pair, nth_error_randn, Hm by assumption. reflexivity.
  - simpl in Hrow. rewrite crossover_row_spec in Hrow. injection Hrow as <-. exact Hy.
Qed.

Lemma crossover_In (rng : Rng) (qg : list Z) (mates children : list (list Z)) (child : list Z) :
  crossover cfg rng qg mates = Ok children -> In child children ->
  exists mate, In mate mates /\ (child = queen_first cfg qg mate \/ child = mate_first cfg qg mate).
Proof.
  unfold crossover. intros H Hin.
  destruct (mapM_In _ _ _ _ H Hin) as [[keys mate] [Hkm Hrow]]. simpl in Hrow.
  exists mate. split; [eapply in_combine_r; eauto|].
  apply in_combine_l in Hkm. unfold randn in Hkm. apply in_map_iff in Hkm.
  destruct Hkm as [i [<- _]]. simpl in Hrow. rewrite crossover_row_spec in Hrow.
  injection Hrow as <-. destruct (_ <? _)%Z; auto.
Qed.

(** C8. Crossover never raises and returns one child per mate; the child
    of row [i] is the queen's first half followed by the mate's second half,
    or the mate's first half followed by the queen's second half, split at
    [gene_length // 2]; the two samples drawn for row [i] alone decide which,
    and each form is obtained for suitable samples. *)
Theorem crossover_two_forms (rng : Rng) (qg : list Z) (mates : list (list Z)) :
  gene_midpoint cfg = Nat.div (gene_length cfg) 2 /\
  exists children,
    crossover cfg rng qg mates = Ok children /\
    length children = Nat.min (Z.to_nat (POP_SIZE cfg - 1)) (length mates) /\
    (forall i child, nth_error children i = Some child ->
       exists mate, nth_error mates i = Some mate /\
                    child = child_of cfg rng qg i mate /\
                    (child = queen_first cfg qg mate \/ child = mate_first cfg qg mate)) /\
    (forall i mate, (Z.of_nat i < POP_SIZE cfg - 1)%Z -> nth_error mates i = Some mate ->
       (exists rng1 children1,
          crossover cfg rng1 qg mates = Ok children1 /\
          nth_error children1 i = Some (queen_first cfg qg mate)) /\
       (exists rng2 children2,
          crossover cfg rng2 qg mates = Ok children2 /\
          nth_error children2 i = Some (mate_first cfg qg mate))).
Proof.
  split; [reflexivity|].
  destruct (crossover_total rng qg mates) as [children Hc].
  exists children. split; [exact Hc|].
  pose proof (length_crossover rng qg mates children Hc) as Hlen.
  split; [exact Hlen|]. split.
  - intros i child Hchild.
    assert (Hi : i < length children) by (apply nth_error_Some; congruence).
    destruct (nth_error mates i) as [mate|] eqn:Hm.
    2:{ apply nth_error_None in Hm. lia. }
    exists mate. split; [reflexivity|].
    rewrite (nth_error_crossover rng qg mates children i mate Hc ltac:(lia) Hm) in Hchild.
    injection Hchild as <-. split; [reflexivity|].
    unfold child_of. destruct (_ <? _)%Z; auto.
  - intros i mate Hi Hm. assert (Hi' : i < Z.to_nat (POP_SIZE cfg - 1)) by lia. split.
    + destruct (crossover_total (with_crossover_keys rng 0%Z 1%Z) qg mates) as [c1 H1].
      exists (with_crossover_keys rng 0%Z 1%Z), c1. split; [exact H1|].
      rewrite (nth_error_crossover _ qg mates c1 i mate H1 Hi' Hm). reflexivity.
    + destruct (crossover_total (with_crossover_keys rng 1%Z 0%Z) qg mates) as [c2 H2].
      exists (with_crossover_keys rng 1%Z 0%Z), c2. split; [exact H2|].
      rewrite (nth_error_crossover _ qg mates c2 i mate H2 Hi' Hm). reflexivity.
Qed.

End CrossoverFacts.

Lemma crossover_two_forms_witness :
  exists children,
    crossover tiny rng1 [65; 70]%Z [[0; 67]; [0; 68]; [65; 99]]%Z = Ok children /\
    nth_error children 0 = Some (queen_first tiny [65; 70]%Z [0; 67]%Z) /\
    nth_error children 1 = Some (mate_first tiny [65; 70]%Z [0; 68]%Z) /\
    children = [[65; 67]; [0; 70]; [65; 99]]%Z.
Proof.
  destruct (crossover_two_forms tiny rng1 [65; 70]%Z [[0; 67]; [0; 68]; [65; 99]]%Z)
    as [_ [children [Hc _]]].
  exists children. split; [exact Hc|].
  vm_compute in Hc. injection Hc as <-.
  split; [reflexivity|]. split; reflexivity.
Defined.

(** ** Tournament selection (lines 88-92) *)

Lemma py_take_prefix {A : Type} (k : Z) (l : list A) :
  exists n, py_take k l = firstn n l.
Proof. unfold py_take. destruct (k <? 0)%Z; eauto. Qed.

Lemma Forall_prefix {A : Type} (P : A -> Prop) (n : nat) (l : list A) :
  Forall P l -> Forall P (firstn n l).
Proof.
  intros H. revert n. induction H as [|x l Hx _ IH]; intros [|n]; simpl; constructor; auto.
Qed.

Lemma py_take_Forall {A : Type} (P : A -> Prop) (k : Z) (l : list A) :
  Forall P l -> Forall P (py_take k l).
Proof.
  intros H. destruct (py_take_prefix k l) as [n ->]. apply Forall_prefix. exact H.
Qed.

Lemma length_py_take {A B : Type} (k : Z) (l : list A) (l' : list B) :
  length l = length l' -> length (py_take k l) = length (py_take k l').
Proof.
  intros H. unfold py_take. rewrite H.
  destruct (k <? 0)%Z; rewrite !length_firstn; rewrite H; reflexivity.
Qed.

Lemma argmax_from_lt (l : list float) (best_i i : nat) (best : float) :
  best_i < i -> argmax_from best_i best i l < i + length l.
Proof.
  revert best_i i best. induction l as [|x l IH]; intros best_i i best H; simpl.
  - lia.
  - destruct (flt best x).
    + specialize (IH i (S i) x). lia.
    + specialize (IH best_i (S i) best). lia.
Qed.

Lemma top1_lt (row : list float) (w : nat) : top1 row = Ok w -> w < length row.
Proof.
  destruct row as [|x r]; simpl; [discriminate|].
  intros H. injection H as <-. pose proof (argmax_from_lt r 0 1 x). lia.
Qed.

Lemma top1_total (row : list float) : row <> [] -> exists w, top1 row = Ok w.
Proof. destruct row; [congruence|]. simpl. eauto. Qed.

Section SelectionFacts.
Variable cfg : Config.

Lemma contender_ids_rows (rng : Rng) (n : nat) (ids : list nat) :
  In ids (contender_ids cfg rng n) ->
  Forall (fun i => i < n) ids /\ length ids = tournament_width cfg n.
Proof.
  unfold contender_ids, randn. intros H.
  apply in_map_iff in H. destruct H as [keys [<- Hk]].
  apply in_map_iff in Hk. destruct Hk as [i [<- _]].
  split.
  - apply py_take_Forall.
    eapply Forall_impl; [|apply (argsort_lt Z.ltb (map (randn_contender rng i) (seq 0 n)))].
    intros a Ha. cbv beta in Ha. rewrite length_map, length_seq in Ha. exact Ha.
  - unfold tournament_width. apply length_py_take.
    unfold argsort_asc. rewrite argsort_length, length_map, !length_seq. reflexivity.
Qed.

Lemma length_contender_ids (rng : Rng) (n : nat) : length (contender_ids cfg rng n) = n.
Proof. unfold contender_ids. rewrite length_map. apply length_randn. Qed.

(** Every parent chosen is a member of the population the tournaments drew
    from, and there is one parent per tournament. *)
Lemma parents_spec (rng : Rng) (p : list (list Z)) (f : list float) (ps : list (list Z)) :
  parents cfg rng p f = Ok ps ->
  Forall (fun g => In g p) ps /\ Z.of_nat (S (length ps)) = POP_SIZE cfg.
Proof.
  unfold parents. destruct (Z.ltb_spec (POP_SIZE cfg - 1) 0) as [|HP]; [discriminate|].
  set (n := Z.to_nat (POP_SIZE cfg - 1)).
  destruct (mapM (gather p) (contender_ids cfg rng n)) as [participants|] eqn:Hp;
    simpl; [|discriminate].
  destruct (mapM (gather f) (contender_ids cfg rng n)) as [tournaments|] eqn:Ht;
    simpl; [|discriminate].
  destruct (Nat.eqb (tournament_width cfg n) 0); [discriminate|].
  intros H. split.
  - apply Forall_forall. intros g Hg.
    destruct (mapM_In _ _ _ _ H Hg) as [[parts tour] [Hpt Hrow]]. simpl in Hrow.
    destruct (top1 tour) as [w|]; simpl in Hrow; [|discriminate].
    apply index_In in Hrow. apply in_combine_l in Hpt.
    destruct (mapM_In _ _ _ _ Hp Hpt) as [ids [_ Hids]].
    eapply gather_In; eauto.
  - apply mapM_length in H. apply mapM_length in Hp. apply mapM_length in Ht.
    rewrite H, length_combine, Hp, Ht, length_contender_ids. unfold n. lia.
Qed.

(** With at least one member to draw from and at least one participant per
    tournament, selection does not raise. *)
Lemma parents_total (rng : Rng) (p : list (list Z)) (f : list float) (n : nat) :
  POP_SIZE cfg = Z.of_nat (S n) -> length p = n -> length f = n ->
  1 <= n -> (1 <= NUM_TOURNAMENT_PARTICIPANTS cfg)%Z ->
  exists ps, parents cfg rng p f = Ok ps.
Proof.
  intros HP Hlp Hlf Hn Hk. unfold parents.
  destruct (Z.ltb_spec (POP_SIZE cfg - 1) 0) as [|_]; [lia|].
  replace (Z.to_nat (POP_SIZE cfg - 1)) with n by lia.
  assert (Hw : 1 <= tournament_width cfg n).
  { unfold tournament_width, py_take.
    destruct (Z.ltb_spec (NUM_TOURNAMENT_PARTICIPANTS cfg) 0); [lia|].
    rewrite length_firstn, length_seq. lia. }
  destruct (mapM_total (gather p) (contender_ids cfg rng n)) as [participants Hp].
  { intros ids Hids. destruct (contender_ids_rows rng n ids Hids) as [Hlt _].
    apply gather_total. rewrite Hlp. exact Hlt. }
  destruct (mapM_total (gather f) (contender_ids cfg rng n)) as [tournaments Ht].
  { intros ids Hids. destruct (contender_ids_rows rng n ids Hids) as [Hlt _].
    apply gather_total. rewrite Hlf. exact Hlt. }
  rewrite Hp, Ht. simpl.
  destruct (Nat.eqb_spec (tournament_width cfg n) 0) as [E|_]; [lia|].
  apply mapM_total. intros [parts tour] Hpt. simpl.
  assert (Hparts : length parts = tournament_width cfg n).
  { apply in_combine_l in Hpt. destruct (mapM_In _ _ _ _ Hp Hpt) as [ids [Hids Hg]].
    apply gather_length in Hg. rewrite Hg. apply (contender_ids_rows rng n ids Hids). }
  assert (Htour : length tour = tournament_width cfg n).
  { apply in_combine_r in Hpt. destruct (mapM_In _ _ _ _ Ht Hpt) as [ids [Hids Hg]].
    apply gather_length in Hg. rewrite Hg. apply (contender_ids_rows rng n ids Hids). }
  destruct (top1_total tour) as [w Hw'].
  { intros ->. simpl in Htour. lia. }
  rewrite Hw'. simpl. apply index_total. apply top1_lt in Hw'. lia.
Qed.

End SelectionFacts.

(** ** Invariants of the loop *)

Lemma Forall_suffix {A : Type} (P : A -> Prop) (n : nat) (l : list A) :
  Forall P l -> Forall P (skipn n l).
Proof.
  intros H. revert n. induction H as [|x l Hx Hl IH]; intros [|n]; simpl; auto.
Qed.

Section Invariants.
Variable cfg : Config.

Lemma existsb_is_inf_false (p : list (list Z)) :
  existsb is_inf (fitnesses cfg p) = false <->
  Forall (fun g => is_inf (fitness (target_gene cfg) g) = false) p.
Proof.
  unfold fitnesses. induction p as [|g p IH]; simpl.
  - split; constructor.
  - rewrite orb_false_iff, IH. split.
    + intros [? ?]. constructor; assumption.
    + intros H. inversion H; subst. split; assumption.
Qed.

(** Line 44 succeeds exactly when [POP_SIZE] is not negative, and then
    lines 42-46 leave the variables as [initial] has them. *)
Lemma init_Ok (src : nat -> nat -> Z) (st : State) :
  init cfg src = Ok st <-> (0 <= POP_SIZE cfg)%Z /\ st = initial cfg src.
Proof.
  unfold init. destruct (Z.ltb_spec (POP_SIZE cfg) 0) as [H|H].
  - split; [discriminate|lia].
  - split.
    + intros E. injection E as <-. split; [exact H|reflexivity].
    + intros [_ ->]. reflexivity.
Qed.

Lemma init_wf (src : nat -> nat -> Z) (st : State) : init cfg src = Ok st -> wf cfg st.
Proof.
  intros H. apply init_Ok in H. destruct H as [HP ->]. split.
  - simpl. apply Forall_forall. intros row Hrow.
    destruct (randint_rows _ _ _ _ _ _ Hrow) as [i [_ ->]]. split.
    + apply length_randint_row.
    + eapply Forall_impl; [|apply randint_row_range; lia].
      intros v Hv. unfold byte_valued. simpl in Hv. lia.
  - unfold queen_ok. simpl. rewrite length_randint. lia.
Qed.

(** What lines 75-84 leave behind, from a well-formed state whose sorted
    population holds no infinite fitness. *)
Lemma queen_phase (st : State) (p : list (list Z))
    (q1 : option (list Z)) (qf1 : option float) (p1 : list (list Z)) (f1 : list float)
    (qg : list Z) (qf2 : option float) (p2 : list (list Z)) (f2 : list float) :
  wf cfg st -> Permutation (pool st) p ->
  existsb is_inf (fitnesses cfg p) = false ->
  demote (queen st) (queen_fitness st) p (fitnesses cfg p) = Ok (q1, qf1, p1, f1) ->
  extract q1 qf1 p1 f1 = Ok (Some qg, qf2, p2, f2) ->
  genome_ok cfg qg /\
  qf2 = Some (fitness (target_gene cfg) qg) /\
  is_inf (fitness (target_gene cfg) qg) = false /\
  Forall (genome_ok cfg) p2 /\
  f2 = fitnesses cfg p2 /\
  Z.of_nat (S (length p2)) = POP_SIZE cfg.
Proof.
  intros [Hpool Hq] HP Hfin Hd He.
  apply existsb_is_inf_false in Hfin.
  assert (Hp : Forall (genome_ok cfg) p).
  { apply Forall_forall. intros g Hg. rewrite Forall_forall in Hpool.
    apply Hpool. eapply Permutation_in; [apply Permutation_sym; exact HP|exact Hg]. }
  pose proof (Permutation_length HP) as Hlen.
  unfold queen_ok in Hq. unfold demote in Hd.
  destruct (queen st) as [q0|], (queen_fitness st) as [qf0|]; try contradiction.
  - destruct Hq as [Hq0 [Hqf0 [Hfin0 Hsize]]].
    destruct (index (fitnesses cfg p) 0) as [f0|] eqn:Hf0; simpl in Hd; [|discriminate].
    destruct (flt qf0 f0).
    + injection Hd as <- <- <- <-. unfold extract in He.
      destruct p as [|g p']; [discriminate|]. simpl in He.
      injection He as <- <- <- <-.
      inversion Hp; subst. inversion Hfin; subst.
      split; [assumption|]. split; [reflexivity|]. split; [assumption|].
      split; [|split].
      * apply Forall_app. split; [assumption|]. constructor; [assumption|constructor].
      * unfold fitnesses. rewrite map_app. reflexivity.
      * rewrite length_app. simpl in *. lia.
    + injection Hd as <- <- <- <-. unfold extract in He.
      injection He as <- <- <- <-.
      split; [assumption|]. split; [congruence|]. split; [congruence|].
      split; [assumption|]. split; [reflexivity|]. lia.
  - injection Hd as <- <- <- <-. unfold extract in He.
    destruct p as [|g p']; [discriminate|]. simpl in He.
    injection He as <- <- <- <-.
    inversion Hp; subst. inversion Hfin; subst.
    split; [assumption|]. split; [reflexivity|]. split; [assumption|].
    split; [assumption|]. split; [reflexivity|]. simpl in *. lia.
Qed.

Lemma crossover_child_ok (qg mate : list Z) :
  genome_ok cfg qg -> genome_ok cfg mate ->
  genome_ok cfg (queen_first cfg qg mate) /\ genome_ok cfg (mate_first cfg qg mate).
Proof.
  intros [Hlq Hbq] [Hlm Hbm]. unfold queen_first, mate_first, genome_ok.
  rewrite !length_app, !length_firstn, !length_skipn, Hlq, Hlm.
  split; split; try lia.
  - apply Forall_app. split; [apply Forall_prefix|apply Forall_suffix]; assumption.
  - apply Forall_app. split; [apply Forall_prefix|apply Forall_suffix]; assumption.
Qed.

Lemma pass_wf (rng : Rng) (st st' : State) : wf cfg st -> pass cfg rng st st' -> wf cfg st'.
Proof.
  intros Hwf Hpass.
  destruct Hpass as [p q1 qf1 p1 f1 qg qf2 p2 f2 ps children Hs Hu Hd He Hp Hc].
  subst p.
  destruct (queen_phase st _ _ _ _ _ _ _ _ _ Hwf (sorted_pool_Permutation cfg (pool st))
              Hu Hd He) as [Hqg [Hqf2 [Hfin [Hp2 [Hf2 Hsize]]]]].
  destruct (parents_spec cfg rng p2 f2 ps Hp) as [Hin Hlen].
  assert (Hps : Forall (genome_ok cfg) ps).
  { apply Forall_forall. intros g Hg. rewrite Forall_forall in Hin, Hp2. auto. }
  pose proof (mutated_parents_ok cfg rng ps Hps) as Hmates.
  assert (Hch : Forall (genome_ok cfg) children).
  { apply Forall_forall. intros child Hchild.
    destruct (crossover_In cfg rng qg _ children child Hc Hchild) as [mate [Hmate Hform]].
    rewrite Forall_forall in Hmates.
    destruct (crossover_child_ok qg mate Hqg (Hmates _ Hmate)) as [H1 H2].
    destruct Hform as [-> | ->]; assumption. }
  split.
  - simpl. apply Forall_forall. intros row Hrow.
    apply in_map_iff in Hrow. destruct Hrow as [child [<- Hchild]].
    rewrite Forall_forall in Hch. destruct (Hch _ Hchild) as [Hl Hb].
    rewrite (clamp_id child Hb). split; assumption.
  - unfold queen_ok. simpl. rewrite Hqf2.
    split; [assumption|]. split; [reflexivity|]. split; [assumption|].
    rewrite length_map. rewrite (length_crossover cfg rng qg _ children Hc).
    rewrite length_mutated_parents. lia.
Qed.

Lemma reachable_wf (st : State) : reachable cfg st -> wf cfg st.
Proof.
  induction 1 as [src st Hinit|rng st st' _ IH Hstep].
  - eapply init_wf; eauto.
  - apply iteration_Continue in Hstep. eapply pass_wf; eauto.
Qed.

End Invariants.

(** ** Leaving the loop (lines 69-70) *)

Section Termination.
Variable cfg : Config.

Lemma is_inf_true (f : float) : is_inf f = true <-> f = Inf.
Proof. destruct f; simpl; split; congruence. Qed.

Lemma some_infinite_iff (st : State) :
  wf cfg st ->
  (some_infinite cfg st <->
   existsb is_inf (fitnesses cfg (sorted_pool cfg (pool st))) = true).
Proof.
  intros [_ Hq]. rewrite existsb_exists. unfold fitnesses. split.
  - intros [[g [Hg Hinf]] | [qg [Hqg Hinf]]].
    + exists (fitness (target_gene cfg) g). split.
      * apply in_map. eapply Permutation_in; [apply sorted_pool_Permutation|exact Hg].
      * rewrite Hinf. reflexivity.
    + unfold queen_ok in Hq. rewrite Hqg in Hq.
      destruct (queen_fitness st) as [qf|]; [|contradiction].
      destruct Hq as [_ [-> [Hfin _]]]. rewrite Hinf in Hfin. discriminate.
  - intros [f [Hf Hinf]]. apply in_map_iff in Hf. destruct Hf as [g [<- Hg]].
    left. exists g. split.
    + eapply Permutation_in; [apply Permutation_sym, sorted_pool_Permutation|exact Hg].
    + apply is_inf_true. exact Hinf.
Qed.

(** From a well-formed state with no infinite fitness, and with at least
    two individuals and one participant per tournament configured, the pass
    runs to line 127 without raising. *)
Lemma iteration_total (rng : Rng) (st : State) :
  wf cfg st -> (2 <= POP_SIZE cfg)%Z -> (1 <= NUM_TOURNAMENT_PARTICIPANTS cfg)%Z ->
  existsb is_inf (fitnesses cfg (sorted_pool cfg (pool st))) = false ->
  exists st', iteration cfg rng st = Ok (Continue st').
Proof.
  intros Hwf Hpop Hk Hu.
  set (p := sorted_pool cfg (pool st)) in *.
  pose proof (sorted_pool_Permutation cfg (pool st)) as HP. fold p in HP.
  pose proof (Permutation_length HP) as Hlen.
  assert (Hd : exists q1 qf1 p1 f1,
             demote (queen st) (queen_fitness st) p (fitnesses cfg p) = Ok (q1, qf1, p1, f1) /\
             (q1 = None -> p1 <> [])).
  { destruct Hwf as [_ Hq]. unfold queen_ok in Hq. unfold demote.
    destruct (queen st) as [q0|], (queen_fitness st) as [qf0|]; try contradiction.
    - destruct Hq as [_ [_ [_ Hsize]]].
      destruct p as [|g p']; [simpl in Hlen; lia|]. simpl.
      destruct (flt qf0 (fitness (target_gene cfg) g)).
      + do 4 eexists. split; [reflexivity|]. intros _. discriminate.
      + do 4 eexists. split; [reflexivity|]. discriminate.
    - do 4 eexists. split; [reflexivity|]. intros _ E. rewrite E in Hlen.
      simpl in Hlen. lia. }
  destruct Hd as [q1 [qf1 [p1 [f1 [Hd Hne]]]]].
  assert (Hf1 : length f1 = length p1).
  { destruct Hwf as [_ Hq]. unfold queen_ok in Hq. unfold demote in Hd.
    destruct (queen st) as [q0|], (queen_fitness st) as [qf0|]; try contradiction.
    - destruct (index (fitnesses cfg p) 0); simpl in Hd; [|discriminate].
      destruct (flt qf0 a); injection Hd as <- <- <- <-;
        unfold fitnesses; rewrite ?length_app, ?length_map; reflexivity.
    - injection Hd as <- <- <- <-. unfold fitnesses. apply length_map. }
  assert (He : exists qg qf2 p2 f2, extract q1 qf1 p1 f1 = Ok (Some qg, qf2, p2, f2)).
  { unfold extract. destruct q1 as [q|].
    - do 4 eexists. reflexivity.
    - specialize (Hne eq_refl). destruct p1 as [|g p1']; [congruence|].
      destruct f1 as [|x f1']; [discriminate|]. simpl. do 4 eexists. reflexivity. }
  destruct He as [qg [qf2 [p2 [f2 He]]]].
  destruct (queen_phase cfg st p _ _ _ _ _ _ _ _ Hwf HP Hu Hd He)
    as [_ [_ [_ [_ [Hf2 Hsize]]]]].
  destruct (parents_total cfg rng p2 f2 (length p2)) as [ps Hps]; try lia.
  { rewrite Hf2. unfold fitnesses. apply length_map. }
  destruct (crossover_total cfg rng qg (mutated_parents cfg rng ps)) as [children Hc].
  eexists. apply iteration_Continue.
  eapply pass_intro; try eassumption. reflexivity.
Qed.

(** The loop itself: when [run] reports that line 70 was reached, it was
    reached at a state of the run in which some individual had infinite
    fitness, and the state reported is that one, evaluated and sorted. *)
Lemma run_Break (fuel : nat) (rngs : nat -> Rng) (st s : State) :
  reachable cfg st -> run cfg fuel rngs st = Ok (Break s) ->
  exists st_k, reachable cfg st_k /\ some_infinite cfg st_k /\ s = solved_state cfg st_k.
Proof.
  revert st. induction fuel as [|fuel IH]; intros st Hr Hrun; simpl in Hrun.
  - discriminate.
  - destruct (iteration cfg (rngs (generation st)) st) as [[s0|st']|] eqn:Hit;
      simpl in Hrun; [| |discriminate].
    + injection Hrun as <-. apply iteration_Break in Hit. destruct Hit as [Hinf ->].
      exists st. split; [exact Hr|]. split; [|reflexivity].
      apply (some_infinite_iff st (reachable_wf cfg st Hr)). exact Hinf.
    + apply (IH st'); [|exact Hrun]. eapply reachable_step; eauto.
Qed.

(** C2. At the head of any pass of a run (with at least two individuals
    and one participant per tournament configured), the pass leaves the loop
    at line 70 exactly when some member of the population, or the queen if
    there is one, has infinite fitness; it then stops with the population
    just evaluated and sorted and everything else untouched, whatever the
    random source holds, and otherwise the pass runs on to the next
    generation. *)
Theorem loop_exit_iff_infinite (rng : Rng) (st : State) :
  reachable cfg st -> (2 <= POP_SIZE cfg)%Z -> (1 <= NUM_TOURNAMENT_PARTICIPANTS cfg)%Z ->
  (some_infinite cfg st <-> iteration cfg rng st = Ok (Break (solved_state cfg st))) /\
  (forall s, iteration cfg rng st = Ok (Break s) ->
             some_infinite cfg st /\ s = solved_state cfg st) /\
  (~ some_infinite cfg st <-> exists st', iteration cfg rng st = Ok (Continue st')).
Proof.
  intros Hr Hpop Hk. pose proof (reachable_wf cfg st Hr) as Hwf.
  pose proof (some_infinite_iff st Hwf) as Hiff.
  split; [|split].
  - rewrite Hiff. split.
    + apply iteration_solved.
    + intros H. apply iteration_Break in H. apply H.
  - intros s H. apply iteration_Break in H. destruct H as [H ->].
    split; [apply Hiff; exact H|reflexivity].
  - split.
    + intros Hn. apply iteration_total; try assumption.
      destruct (existsb is_inf _) eqn:E; [|reflexivity].
      exfalso. apply Hn, Hiff. reflexivity.
    + intros [st' Hc] Hinf. apply Hiff in Hinf.
      rewrite (iteration_solved cfg rng st Hinf) in Hc. discriminate.
Qed.

End Termination.

(** ** A run of the two-letter scenario

    Target "AB", four individuals, tournaments of two; the samples of each
    random tensor are given by a table. *)

Lemma st0_st1 : iteration tiny rng1 st0 = Ok (Continue st1).
Proof. vm_compute. reflexivity. Qed.

Lemma st1_st2 : iteration tiny rng2 st1 = Ok (Continue st2).
Proof. vm_compute. reflexivity. Qed.

Lemma reachable_st0 : reachable tiny st0.
Proof. apply (reachable_init tiny src0). reflexivity. Qed.

Lemma reachable_st1 : reachable tiny st1.
Proof. eapply reachable_step; [exact reachable_st0|exact st0_st1]. Qed.

(** ** The weak mutation (lines 119-123) *)

(** Nothing that the next pass reads depends on the samples drawn for the
    weak mutation: line 123 clamps [pool], the crossover output, and
    [mutated_pool] is not read again. *)
Lemma weak_draws_irrelevant (cfg : Config) (rng : Rng)
    (keys : nat -> nat -> sample) (draws : nat -> nat -> Z) (st : State) :
  carried (iteration cfg (with_weak_draws rng keys draws) st)
  = carried (iteration cfg rng st).
Proof.
  unfold iteration.
  destruct (sort_by_fitness cfg (pool st)) as [[p f]|]; simpl; [|reflexivity].
  destruct (existsb is_inf f); [reflexivity|].
  destruct (demote _ _ _ _) as [d|]; simpl; [|reflexivity].
  destruct (extract _ _ _ _) as [e|]; simpl; [|reflexivity].
  change (parents cfg (with_weak_draws rng keys draws)) with (parents cfg rng).
  destruct (parents cfg rng _ _) as [ps|]; simpl; [|reflexivity].
  change (mutated_parents cfg (with_weak_draws rng keys draws))
    with (mutated_parents cfg rng).
  destruct (fst (fst (fst e))) as [qg|]; [|reflexivity].
  change (crossover cfg (with_weak_draws rng keys draws)) with (crossover cfg rng).
  destruct (crossover cfg rng _ _) as [children|]; reflexivity.
Qed.

(** C1, at the first pass of the two-letter scenario: the crossover
    children are [65;67], [0;70], [65;99]; weak mutation turns them into
    [66;67], [-1;70], [65;100] and binds that to [mutated_pool]; the
    population of generation 2 is the crossover children, and it is they
    that the second pass evaluates and sorts. *)
Theorem weak_mutation_result_dropped :
  crossover tiny rng1 [65; 70]%Z (mutated_parents tiny rng1 [[0; 67]; [0; 67]; [65; 100]]%Z)
  = Ok [[65; 67]; [0; 70]; [65; 99]]%Z /\
  weak_mutate tiny rng1 [[65; 67]; [0; 70]; [65; 99]]%Z
  = [[66; 67]; [-1; 70]; [65; 100]]%Z /\
  iteration tiny rng1 st0 = Ok (Continue st1) /\
  pool st1 = [[65; 67]; [0; 70]; [65; 99]]%Z /\
  mutated_pool st1 = Some [[66; 67]; [-1; 70]; [65; 100]]%Z /\
  sorted_pool tiny (pool st1) = [[65; 67]; [65; 99]; [0; 70]]%Z.
Proof.
  split; [vm_compute; reflexivity|].
  split; [vm_compute; reflexivity|].
  split; [exact st0_st1|].
  split; [reflexivity|].
  split; [reflexivity|].
  vm_compute. reflexivity.
Qed.

(** ** The range of the gene values *)

Lemma genomes_in_range (cfg : Config) (p : list (list Z)) :
  Forall (genome_ok cfg) p -> Forall (Forall byte_valued) p.
Proof. apply Forall_impl. intros g [_ H]. exact H. Qed.

Section Range.
Variable cfg : Config.

(** C4. At the head of every pass of a run the members of the population
    and the queen hold values within [0, 255], and so does every genome that
    the pass goes on to make or use: the sorted population, the new queen and
    the population that selection draws from, the parents chosen, the parents
    after strong mutation and its clamp (lines 96-99), the children that
    crossover returns (line 115), and the population that lines 119-123 hand
    to the next generation.  The tensor that line 121 binds to [mutated_pool]
    is not among them: no line reads it. *)
Theorem genomes_stay_in_range (st : State) :
  reachable cfg st ->
  Forall (Forall byte_valued) (pool st) /\
  (forall g, queen st = Some g -> Forall byte_valued g) /\
  Forall (Forall byte_valued) (sorted_pool cfg (pool st)) /\
  forall rng st',
    iteration cfg rng st = Ok (Continue st') ->
    exists q1 qf1 p1 f1 qg qf2 p2 f2 ps children,
      demote (queen st) (queen_fitness st) (sorted_pool cfg (pool st))
             (fitnesses cfg (sorted_pool cfg (pool st)))
      = Ok (q1, qf1, p1, f1) /\
      extract q1 qf1 p1 f1 = Ok (Some qg, qf2, p2, f2) /\
      parents cfg rng p2 f2 = Ok ps /\
      crossover cfg rng qg (mutated_parents cfg rng ps) = Ok children /\
      Forall byte_valued qg /\
      Forall (Forall byte_valued) p2 /\
      Forall (Forall byte_valued) ps /\
      Forall (Forall byte_valued) (mutated_parents cfg rng ps) /\
      Forall (Forall byte_valued) children /\
      queen st' = Some qg /\
      pool st' = children /\
      Forall (Forall byte_valued) (pool st').
Proof.
  intros Hr. pose proof (reachable_wf cfg st Hr) as Hwf.
  pose proof (sorted_pool_Permutation cfg (pool st)) as HP.
  assert (Hsorted : Forall (genome_ok cfg) (sorted_pool cfg (pool st))).
  { destruct Hwf as [Hpool _]. apply Forall_forall. intros g Hg.
    rewrite Forall_forall in Hpool. apply Hpool.
    eapply Permutation_in; [apply Permutation_sym; exact HP|exact Hg]. }
  split; [apply (genomes_in_range cfg), Hwf|]. split.
  { destruct Hwf as [_ Hq]. unfold queen_ok in Hq. intros g Hg. rewrite Hg in Hq.
    destruct (queen_fitness st); [|contradiction]. apply Hq. }
  split; [apply (genomes_in_range cfg), Hsorted|].
  intros rng st' Hit.
  assert (Hwf' : wf cfg st') by (apply reachable_wf; eapply reachable_step; eauto).
  apply iteration_Continue in Hit.
  destruct Hit as [p q1 qf1 p1 f1 qg qf2 p2 f2 ps children Hp Hu Hd He Hps Hc].
  subst p.
  destruct (queen_phase cfg st _ _ _ _ _ _ _ _ _ Hwf HP Hu Hd He)
    as [Hqok [_ [_ [Hp2ok _]]]].
  destruct (parents_spec cfg rng p2 f2 ps Hps) as [Hin _].
  assert (Hpsok : Forall (genome_ok cfg) ps).
  { apply Forall_forall. intros g Hg. rewrite Forall_forall in Hin, Hp2ok. auto. }
  pose proof (mutated_parents_ok cfg rng ps Hpsok) as Hmok.
  assert (Hch : Forall (Forall byte_valued) children).
  { apply Forall_forall. intros child Hchild.
    destruct (crossover_In cfg rng qg _ children child Hc Hchild) as [mate [Hmate Hform]].
    rewrite Forall_forall in Hmok.
    destruct (crossover_child_ok cfg qg mate Hqok (Hmok _ Hmate)) as [[_ H1] [_ H2]].
    destruct Hform as [-> | ->]; assumption. }
  exists q1, qf1, p1, f1, qg, qf2, p2, f2, ps, children.
  split; [exact Hd|]. split; [exact He|]. split; [exact Hps|]. split; [exact Hc|].
  split; [apply Hqok|]. split; [apply (genomes_in_range cfg), Hp2ok|].
  split; [apply (genomes_in_range cfg), Hpsok|].
  split; [apply (genomes_in_range cfg), Hmok|].
  split; [exact Hch|]. split; [reflexivity|]. split.
  - simpl. clear - Hch. induction Hch as [|c l Hc _ IH]; simpl; [reflexivity|].
    rewrite (clamp_id c Hc), IH. reflexivity.
  - apply (genomes_in_range cfg), Hwf'.
Qed.

End Range.

Lemma genomes_stay_in_range_witness :
  Forall (Forall byte_valued) (pool st1) /\
  (forall g, queen st1 = Some g -> Forall byte_valued g) /\
  Forall (Forall byte_valued) (sorted_pool tiny (pool st1)) /\
  forall rng st',
    iteration tiny rng st1 = Ok (Continue st') ->
    exists q1 qf1 p1 f1 qg qf2 p2 f2 ps children,
      demote (queen st1) (queen_fitness st1) (sorted_pool tiny (pool st1))
             (fitnesses tiny (sorted_pool tiny (pool st1)))
      = Ok (q1, qf1, p1, f1) /\
      extract q1 qf1 p1 f1 = Ok (Some qg, qf2, p2, f2) /\
      parents tiny rng p2 f2 = Ok ps /\
      crossover tiny rng qg (mutated_parents tiny rng ps) = Ok children /\
      Forall byte_valued qg /\
      Forall (Forall byte_valued) p2 /\
      Forall (Forall byte_valued) ps /\
      Forall (Forall byte_valued) (mutated_parents tiny rng ps) /\
      Forall (Forall byte_valued) children /\
      queen st' = Some qg /\
      pool st' = children /\
      Forall (Forall byte_valued) (pool st').
Proof. apply (genomes_stay_in_range tiny st1). exact reachable_st1. Defined.

(** ** Demotion of the queen (lines 75-84) *)

Section Demotion.
Variable cfg : Config.

(** C5. When the best child beats the queen, she is not dropped: lines
    76-77 append her, with her cached fitness, to the sorted children, and
    once the best child has been taken out as the new queen she is a member
    of the population that this generation's tournaments select the parents
    from, counted in its size, which is the size the population had.  That is
    the generation more for which lines 72-73 keep her; the population of the
    generation after is the crossover output for the parents so chosen. *)
Theorem demoted_queen_joins_selection (rng : Rng) (st st' : State)
    (qg : list Z) (qf : float) (best : list Z) (rest : list (list Z)) :
  reachable cfg st ->
  queen st = Some qg -> queen_fitness st = Some qf ->
  sorted_pool cfg (pool st) = best :: rest ->
  flt qf (fitness (target_gene cfg) best) = true ->
  iteration cfg rng st = Ok (Continue st') ->
  exists ps children,
    demote (queen st) (queen_fitness st) (best :: rest) (fitnesses cfg (best :: rest))
    = Ok (None, None, (best :: rest) ++ [qg], fitnesses cfg (best :: rest) ++ [qf]) /\
    extract None None ((best :: rest) ++ [qg]) (fitnesses cfg (best :: rest) ++ [qf])
    = Ok (Some best, Some (fitness (target_gene cfg) best),
          rest ++ [qg], fitnesses cfg rest ++ [qf]) /\
    parents cfg rng (rest ++ [qg]) (fitnesses cfg rest ++ [qf]) = Ok ps /\
    In qg (rest ++ [qg]) /\
    length (rest ++ [qg]) = length (pool st) /\
    crossover cfg rng best (mutated_parents cfg rng ps) = Ok children /\
    queen st' = Some best /\
    pool st' = map (clamp 0 255) children /\
    length (pool st') = length (pool st).
Proof.
  intros Hr Hq Hqf Hs Hlt Hit.
  pose proof (reachable_wf cfg st Hr) as Hwf.
  apply iteration_Continue in Hit.
  destruct Hit as [p q1 qf1 p1 f1 qg' qf2 p2 f2 ps children Hp Hu Hd He Hps Hc].
  rewrite Hs in Hp. subst p.
  pose proof (Permutation_length (sorted_pool_Permutation cfg (pool st))) as Hlen.
  rewrite Hs in Hlen.
  assert (Hd' : demote (queen st) (queen_fitness st) (best :: rest)
                       (fitnesses cfg (best :: rest))
                = Ok (None, None, (best :: rest) ++ [qg],
                      fitnesses cfg (best :: rest) ++ [qf])).
  { unfold demote. rewrite Hq, Hqf. simpl. rewrite Hlt. reflexivity. }
  rewrite Hd' in Hd. injection Hd as <- <- <- <-.
  simpl in He. injection He as <- <- <- <-.
  exists ps, children.
  split; [exact Hd'|]. split; [reflexivity|]. split; [exact Hps|].
  split; [apply in_or_app; right; left; reflexivity|].
  split; [rewrite length_app; simpl in *; lia|].
  split; [exact Hc|]. split; [reflexivity|]. split; [reflexivity|].
  simpl. rewrite length_map. rewrite (length_crossover cfg rng best _ children Hc).
  rewrite length_mutated_parents.
  destruct (parents_spec cfg rng _ _ ps Hps) as [_ Hn].
  destruct Hwf as [_ Hqok]. unfold queen_ok in Hqok. rewrite Hq, Hqf in Hqok.
  destruct Hqok as [_ [_ [_ Hsize]]]. lia.
Qed.

Lemma descending_tail (x : float) (f : list float) : descending (x :: f) -> descending f.
Proof. unfold descending. intros H. inversion H; assumption. Qed.

(** The amended C6. Lines 53-56 leave the population and its fitnesses
    aligned and in descending order.  What lines 75-84 then hand to
    tournament selection is still aligned; it is in descending order unless
    a queen has just been put back, who is appended behind the children
    without a new sort. *)
Theorem selection_input_aligned (rng : Rng) (st st' : State) :
  reachable cfg st ->
  iteration cfg rng st = Ok (Continue st') ->
  sort_by_fitness cfg (pool st)
  = Ok (sorted_pool cfg (pool st), fitnesses cfg (sorted_pool cfg (pool st))) /\
  descending (fitnesses cfg (sorted_pool cfg (pool st))) /\
  exists q1 qf1 p1 f1 qg qf2 p2 f2 ps,
    demote (queen st) (queen_fitness st) (sorted_pool cfg (pool st))
           (fitnesses cfg (sorted_pool cfg (pool st)))
    = Ok (q1, qf1, p1, f1) /\
    extract q1 qf1 p1 f1 = Ok (Some qg, qf2, p2, f2) /\
    parents cfg rng p2 f2 = Ok ps /\
    f2 = fitnesses cfg p2 /\
    (~ (queen st <> None /\ q1 = None) -> descending f2).
Proof.
  intros Hr Hit.
  pose proof (reachable_wf cfg st Hr) as Hwf.
  split; [apply sort_by_fitness_sorted_pool|].
  pose proof (sorted_pool_descending cfg (pool st)) as Hdesc.
  split; [exact Hdesc|].
  apply iteration_Continue in Hit.
  destruct Hit as [p q1 qf1 p1 f1 qg qf2 p2 f2 ps children Hp Hu Hd He Hps Hc].
  subst p. exists q1, qf1, p1, f1, qg, qf2, p2, f2, ps.
  split; [exact Hd|]. split; [exact He|]. split; [exact Hps|].
  destruct (queen_phase cfg st _ _ _ _ _ _ _ _ _ Hwf
              (sorted_pool_Permutation cfg (pool st)) Hu Hd He)
    as [_ [_ [_ [_ [Hf2 _]]]]].
  split; [exact Hf2|].
  intros Hkeep. set (p := sorted_pool cfg (pool st)) in *.
  destruct Hwf as [_ Hq]. unfold queen_ok in Hq. unfold demote in Hd.
  destruct (queen st) as [q0|], (queen_fitness st) as [qf0|]; try contradiction.
  - destruct (index (fitnesses cfg p) 0) as [f0|]; simpl in Hd; [|discriminate].
    destruct (flt qf0 f0).
    + injection Hd as <- <- <- <-. exfalso. apply Hkeep. split; [discriminate|reflexivity].
    + injection Hd as <- <- <- <-. simpl in He. injection He as <- <- <- <-. exact Hdesc.
  - injection Hd as <- <- <- <-. unfold extract in He.
    destruct p as [|g p']; [discriminate|]. simpl in He.
    injection He as <- <- <- <-. simpl in Hdesc. apply descending_tail in Hdesc.
    exact Hdesc.
Qed.

End Demotion.

(** C6 fails as stated: in the same pass the fitnesses handed to
    tournament selection are 1/1089, 1/4241, 1/16, the last being the
    fitness of the queen just put back. *)
Lemma readmitted_queen_breaks_order :
  reachable tiny st1 /\
  demote (queen st1) (queen_fitness st1) (sorted_pool tiny (pool st1))
         (fitnesses tiny (sorted_pool tiny (pool st1)))
  = Ok (None, None,
        [[65; 67]; [65; 99]; [0; 70]; [65; 70]]%Z,
        [Finite 1; Finite (1 # 1089); Finite (1 # 4241); Finite (1 # 16)]) /\
  extract None None
          [[65; 67]; [65; 99]; [0; 70]; [65; 70]]%Z
          [Finite 1; Finite (1 # 1089); Finite (1 # 4241); Finite (1 # 16)]
  = Ok (Some [65; 67]%Z, Some (Finite 1),
        [[65; 99]; [0; 70]; [65; 70]]%Z,
        [Finite (1 # 1089); Finite (1 # 4241); Finite (1 # 16)]) /\
  parents tiny rng2 [[65; 99]; [0; 70]; [65; 70]]%Z
          [Finite (1 # 1089); Finite (1 # 4241); Finite (1 # 16)]
  = Ok [[65; 99]; [65; 99]; [65; 99]]%Z /\
  fitnesses tiny [[65; 99]; [0; 70]; [65; 70]]%Z
  = [Finite (1 # 1089); Finite (1 # 4241); Finite (1 # 16)] /\
  ~ descending [Finite (1 # 1089); Finite (1 # 4241); Finite (1 # 16)].
Proof.
  split; [exact reachable_st1|].
  split; [vm_compute; reflexivity|]. split; [reflexivity|].
  split; [vm_compute; reflexivity|]. split; [vm_compute; reflexivity|].
  intros H. rewrite descending_adjacent in H.
  specialize (H 1 (Finite (1 # 4241)) (Finite (1 # 16)) eq_refl eq_refl).
  vm_compute in H. discriminate.
Qed.

(** ** How many positions strong mutation changes *)

(** C7 fails as stated.  With the constants of the script the threshold
    is 6.25, as a double and as a float32, which rounds to 6, yet a parent of
    twenty-five values 100 comes out changed at seven positions; and in the
    two-letter scenario the parent [0;67], selected at position 0 with noise
    -1, comes out unchanged. *)
Lemma strong_mutation_count_not_rounded :
  strong_num_code_mutate shipped = fp_num (25 # 4) /\
  fp_cast binary32 (strong_num_code_mutate shipped) = fp_num (25 # 4) /\
  round_half_even (25 # 4) = 6%Z /\
  ranks_below (fp_cast binary32 (strong_num_code_mutate shipped)) (gene_length shipped) = 7 /\
  count_true (strong_mutate_mask shipped rng7 0) = 7 /\
  mutated_parents shipped rng7 [repeat 100%Z 25]
  = [repeat 101%Z 7 ++ repeat 100%Z 18] /\
  changed_positions (repeat 100%Z 25) (repeat 101%Z 7 ++ repeat 100%Z 18) = 7 /\
  strong_mutate_mask tiny rng1 0 = [true; false] /\
  mutated_parents tiny rng1 [[0; 67]%Z] = [[0; 67]%Z] /\
  changed_positions [0; 67]%Z [0; 67]%Z = 0.
Proof.
  split; [vm_compute; reflexivity|]. split; [vm_compute; reflexivity|].
  split; [reflexivity|].
  split; [vm_compute; reflexivity|]. split; [vm_compute; reflexivity|].
  split; [vm_compute; reflexivity|]. split; [reflexivity|].
  split; [vm_compute; reflexivity|]. split; [vm_compute; reflexivity|]. reflexivity.
Qed.

(** The comparison of line 96 is made in float32: with a strong probability
    of 0.25000001 and four positions the threshold is above 1 as a double and
    1 as a float32, and the mask selects one position, not two. *)
Example threshold_compared_in_float32 :
  strong_num_code_mutate near_quarter
  = fp_num (4503599807514481 # 4503599627370496) /\
  (1 < 4503599807514481 # 4503599627370496)%Q /\
  fp_cast binary32 (strong_num_code_mutate near_quarter) = fp_num 1 /\
  ranks_below (fp_cast binary32 (strong_num_code_mutate near_quarter))
              (gene_length near_quarter) = 1 /\
  strong_mutate_mask near_quarter rng7 0 = [true; false; false; false].
Proof.
  split; [vm_compute; reflexivity|]. split; [reflexivity|].
  split; [vm_compute; reflexivity|]. split; [vm_compute; reflexivity|].
  vm_compute. reflexivity.
Qed.

Lemma strong_mutation_row_witness :
  exists out,
    nth_error (mutated_parents shipped rng7 [repeat 100%Z 25]) 0 = Some out /\
    length out = length (repeat 100%Z 25) /\
    length (strong_mutate_mask shipped rng7 0) = length (repeat 100%Z 25) /\
    count_true (strong_mutate_mask shipped rng7 0)
    = ranks_below (fp_cast binary32 (strong_num_code_mutate shipped)) (gene_length shipped) /\
    forall j v, nth_error (repeat 100%Z 25) j = Some v ->
      (nth_error (strong_mutate_mask shipped rng7 0) j = Some true /\
       (nth_error out j = Some (Z.min (v + 1) 255) \/
        nth_error out j = Some (Z.max (v - 1) 0)))
      \/
      (nth_error (strong_mutate_mask shipped rng7 0) j = Some false /\
       nth_error out j = Some v).
Proof.
  apply (strong_mutation_row shipped rng7 [repeat 100%Z 25] 0 (repeat 100%Z 25)).
  - vm_compute. discriminate.
  - reflexivity.
  - split; [reflexivity|]. simpl. repeat constructor; unfold byte_valued; lia.
Defined.

(** ** Configuration *)

(** C9 fails as stated: with this configuration nothing is reported;
    line 44 creates the population, and the first pass runs to its end and
    hands over generation 2. *)
Lemma invalid_configuration_runs :
  config_invalid oversized /\
  (POP_SIZE oversized <= NUM_TOURNAMENT_PARTICIPANTS oversized)%Z /\
  ~ (0 <= MUTATION_PROB oversized <= 1)%Q /\
  init oversized src0 = Ok (initial oversized src0) /\
  iteration oversized rng1 (initial oversized src0)
  = Ok (Continue {| generation := 2;
                    pool := [[65; 100]; [65; 70]; [65; 99]]%Z;
                    queen := Some [65; 70]%Z;
                    queen_fitness := Some (Finite (1 # 16));
                    mutated_pool := Some [[66; 101]; [64; 69]; [66; 100]]%Z |}).
Proof.
  assert (H1 : (POP_SIZE oversized <= NUM_TOURNAMENT_PARTICIPANTS oversized)%Z)
    by (simpl; lia).
  split; [left; exact H1|]. split; [exact H1|]. split.
  - simpl. intros [_ H]. unfold Qle in H. simpl in H. lia.
  - split; [reflexivity|]. vm_compute. reflexivity.
Qed.

Section NoValidation.
Variable cfg : Config.

Lemma empty_goal_solved (src : nat -> nat -> Z) :
  GOAL cfg = [] -> (1 <= POP_SIZE cfg)%Z -> some_infinite cfg (initial cfg src).
Proof.
  intros Hg Hp. left. exists []. split.
  - simpl. unfold gene_length. rewrite Hg. simpl.
    destruct (Z.to_nat (POP_SIZE cfg)) as [|n] eqn:E; [lia|].
    unfold randint. simpl. left. reflexivity.
  - unfold target_gene. rewrite Hg. reflexivity.
Qed.

(** The amended C9. Nothing checks the constants.  A negative [POP_SIZE]
    makes [torch.randint] raise at line 44, before the loop.  With at least
    two individuals and at least one participant per tournament, whatever the
    target and the probabilities are and however the number of participants
    compares with the population, line 44 succeeds and the first pass
    completes without raising; with an empty target and at least one
    individual it leaves the loop at once as solved. *)
Theorem no_configuration_check (src : nat -> nat -> Z) (rng : Rng) :
  ((POP_SIZE cfg < 0)%Z -> init cfg src = Err RuntimeError) /\
  ((2 <= POP_SIZE cfg)%Z -> (1 <= NUM_TOURNAMENT_PARTICIPANTS cfg)%Z ->
   init cfg src = Ok (initial cfg src) /\
   exists o, iteration cfg rng (initial cfg src) = Ok o) /\
  ((1 <= POP_SIZE cfg)%Z -> GOAL cfg = [] ->
   init cfg src = Ok (initial cfg src) /\
   iteration cfg rng (initial cfg src) = Ok (Break (solved_state cfg (initial cfg src)))).
Proof.
  split; [|split].
  - intros Hp. unfold init. destruct (Z.ltb_spec (POP_SIZE cfg) 0); [reflexivity|lia].
  - intros Hp Hk.
    assert (Hi : init cfg src = Ok (initial cfg src)).
    { apply init_Ok. split; [lia|reflexivity]. }
    split; [exact Hi|]. pose proof (init_wf cfg src _ Hi) as Hwf.
    destruct (existsb is_inf (fitnesses cfg (sorted_pool cfg (pool (initial cfg src))))) eqn:E.
    + eexists. apply iteration_solved. exact E.
    + destruct (iteration_total cfg rng (initial cfg src) Hwf Hp Hk E) as [st' H].
      eexists. exact H.
  - intros Hp Hg.
    assert (Hi : init cfg src = Ok (initial cfg src)).
    { apply init_Ok. split; [lia|reflexivity]. }
    split; [exact Hi|]. apply iteration_solved.
    apply (some_infinite_iff cfg (initial cfg src) (init_wf cfg src _ Hi)).
    apply empty_goal_solved; assumption.
Qed.

End NoValidation.

Lemma no_configuration_check_witness :
  init negative_population src0 = Err RuntimeError /\
  init oversized src0 = Ok (initial oversized src0) /\
  exists o, iteration oversized rng1 (initial oversized src0) = Ok o.
Proof.
  split.
  - destruct (no_configuration_check negative_population src0 rng1) as [Hneg _].
    apply Hneg. simpl. lia.
  - destruct (no_configuration_check oversized src0 rng1) as [_ [Hrun _]].
    apply Hrun.
    + simpl. lia.
    + simpl. lia.
Defined.

(** ** Where the value 255 can come from *)

(** Lines 75-84 create no individual: the queen and the population they
    leave are made of the individuals they started from. *)
Lemma queen_phase_members (P : list Z -> Prop)
    (q : option (list Z)) (qf : option float) (p : list (list Z)) (f : list float)
    (q1 : option (list Z)) (qf1 : option float) (p1 : list (list Z)) (f1 : list float)
    (qg : list Z) (qf2 : option float) (p2 : list (list Z)) (f2 : list float) :
  demote q qf p f = Ok (q1, qf1, p1, f1) ->
  extract q1 qf1 p1 f1 = Ok (Some qg, qf2, p2, f2) ->
  Forall P p -> (forall g, q = Some g -> P g) ->
  P qg /\ Forall P p2.
Proof.
  intros Hd He Hp Hq.
  assert (H1 : Forall P p1 /\ (forall g, q1 = Some g -> P g)).
  { unfold demote in Hd. destruct q as [g0|].
    - destruct (index f 0) as [f0|]; simpl in Hd; [|discriminate].
      destruct qf as [qf0|]; [|discriminate].
      destruct (flt qf0 f0); injection Hd as <- <- <- <-.
      + split; [|discriminate]. apply Forall_app. split; [exact Hp|].
        constructor; [apply Hq; reflexivity|constructor].
      + split; assumption.
    - injection Hd as <- <- <- <-. split; assumption. }
  destruct H1 as [Hp1 Hq1]. unfold extract in He. destruct q1 as [g1|].
  - injection He as <- <- <- <-. split; [apply Hq1; reflexivity|exact Hp1].
  - destruct (index p1 0) as [g|] eqn:Hg; simpl in He; [|discriminate].
    destruct (index f1 0); simpl in He; [|discriminate].
    injection He as <- <- <- <-. split.
    + rewrite Forall_forall in Hp1. apply Hp1. eapply index_In; eauto.
    + destruct p1; [constructor|]. inversion Hp1; assumption.
Qed.

Lemma nth_error_splice {A : Type} (m : nat) (a b : list A) (j : nat) :
  length a = length b -> m <= length a ->
  nth_error (firstn m a ++ skipn m b) j
  = if j <? m then nth_error a j else nth_error b j.
Proof.
  intros Hlen Hm. destruct (Nat.ltb_spec j m) as [Hj|Hj].
  - rewrite nth_error_app1 by (rewrite length_firstn; lia).
    rewrite nth_error_firstn. destruct (Nat.ltb_spec j m); [reflexivity|lia].
  - rewrite nth_error_app2 by (rewrite length_firstn; lia).
    rewrite length_firstn, nth_error_skipn. f_equal. lia.
Qed.

Section Origin255.
Variable cfg : Config.

Lemma init_below_255 (src : nat -> nat -> Z) (st : State) :
  init cfg src = Ok st -> Forall below_255 (pool st).
Proof.
  intros H. apply init_Ok in H. destruct H as [_ ->].
  simpl. apply Forall_forall. intros row Hrow.
  destruct (randint_rows _ _ _ _ _ _ Hrow) as [i [_ ->]].
  eapply Forall_impl; [|apply randint_row_range; lia].
  intros v Hv. simpl in Hv. lia.
Qed.

(** C10. Every value of the initial population lies in [0, 254].  And in
    a pass from a state whose population and queen hold no 255, the new
    queen and the parents that the tournaments choose hold none, and a 255 at
    position [j] of member [i] of the next population was made by the strong
    mutation of that pass: parent [i] holds 254 at [j], the mask of line 96
    selects [j] in row [i], the sign drawn there is +1, and the child took
    position [j] from the parent so mutated.  Sorting, demotion, extraction,
    selection and crossover copy values; only mutation makes a new one. *)
Theorem initial_population_below_255 (src : nat -> nat -> Z) :
  (forall st0, init cfg src = Ok st0 -> Forall below_255 (pool st0)) /\
  forall rng st st',
    reachable cfg st ->
    Forall below_255 (pool st) ->
    (forall g, queen st = Some g -> below_255 g) ->
    iteration cfg rng st = Ok (Continue st') ->
    exists q1 qf1 p1 f1 qg qf2 p2 f2 ps,
      demote (queen st) (queen_fitness st) (sorted_pool cfg (pool st))
             (fitnesses cfg (sorted_pool cfg (pool st)))
      = Ok (q1, qf1, p1, f1) /\
      extract q1 qf1 p1 f1 = Ok (Some qg, qf2, p2, f2) /\
      parents cfg rng p2 f2 = Ok ps /\
      queen st' = Some qg /\ below_255 qg /\
      Forall below_255 ps /\
      length (pool st') = length ps /\
      forall i child j,
        nth_error (pool st') i = Some child -> nth_error child j = Some 255%Z ->
        exists parent mate,
          nth_error ps i = Some parent /\
          nth_error (mutated_parents cfg rng ps) i = Some mate /\
          child = child_of cfg rng qg i mate /\
          nth_error parent j = Some 254%Z /\
          nth_error (strong_mutate_mask cfg rng i) j = Some true /\
          nth_error (randint_row (randint_strong rng) 0 2 i (gene_length cfg)) j
          = Some 1%Z /\
          nth_error mate j = Some 255%Z /\
          nth_error qg j <> Some 255%Z.
Proof.
  split; [intros st0 H0; apply (init_below_255 src st0 H0)|].
  intros rng st st' Hr Hpool Hqueen Hit.
  pose proof (reachable_wf cfg st Hr) as Hwf.
  apply iteration_Continue in Hit.
  destruct Hit as [p q1 qf1 p1 f1 qg qf2 p2 f2 ps children Hp Hu Hd He Hps Hc].
  subst p.
  pose proof (sorted_pool_Permutation cfg (pool st)) as HP.
  assert (Hsorted : Forall below_255 (sorted_pool cfg (pool st))).
  { apply Forall_forall. intros g Hg. rewrite Forall_forall in Hpool. apply Hpool.
    eapply Permutation_in; [apply Permutation_sym; exact HP|exact Hg]. }
  destruct (queen_phase_members below_255 _ _ _ _ _ _ _ _ _ _ _ _ Hd He Hsorted Hqueen)
    as [Hqg Hp2].
  destruct (queen_phase cfg st _ _ _ _ _ _ _ _ _ Hwf HP Hu Hd He)
    as [Hqok [_ [_ [Hp2ok [_ Hsize]]]]].
  destruct (parents_spec cfg rng p2 f2 ps Hps) as [Hin Hn].
  assert (Hpsok : Forall (genome_ok cfg) ps).
  { apply Forall_forall. intros g Hg. rewrite Forall_forall in Hin, Hp2ok. auto. }
  assert (Hpsb : Forall below_255 ps).
  { apply Forall_forall. intros g Hg. rewrite Forall_forall in Hin, Hp2. auto. }
  pose proof (mutated_parents_ok cfg rng ps Hpsok) as Hmok.
  pose proof (length_crossover cfg rng qg _ children Hc) as Hlc.
  rewrite length_mutated_parents in Hlc.
  exists q1, qf1, p1, f1, qg, qf2, p2, f2, ps.
  split; [exact Hd|]. split; [exact He|]. split; [exact Hps|].
  split; [reflexivity|]. split; [exact Hqg|]. split; [exact Hpsb|].
  split; [simpl; rewrite length_map; lia|].
  simpl. intros i child j Hchild Hj.
  rewrite nth_error_map in Hchild.
  destruct (nth_error children i) as [child0|] eqn:Hi; [|discriminate].
  simpl in Hchild. injection Hchild as Hcl.
  assert (Hilt : i < length children) by (apply nth_error_Some; congruence).
  destruct (nth_error ps i) as [parent|] eqn:Hparent.
  2:{ apply nth_error_None in Hparent. lia. }
  assert (Hparent_ok : genome_ok cfg parent).
  { rewrite Forall_forall in Hpsok. apply Hpsok. eapply nth_error_In; eauto. }
  assert (Hparent_b : below_255 parent).
  { rewrite Forall_forall in Hpsb. apply Hpsb. eapply nth_error_In; eauto. }
  destruct (mutated_parents_positions cfg rng ps i parent Hparent Hparent_ok)
    as [mate [Hmate [Hlm _]]].
  assert (Hmate_ok : genome_ok cfg mate).
  { rewrite Forall_forall in Hmok. apply Hmok. eapply nth_error_In; eauto. }
  rewrite (nth_error_crossover cfg rng qg _ children i mate Hc ltac:(lia) Hmate) in Hi.
  injection Hi as Hi.
  assert (Hch0 : genome_ok cfg child0).
  { destruct (crossover_child_ok cfg qg mate Hqok Hmate_ok) as [H1 H2].
    rewrite <- Hi. unfold child_of. destruct (_ <? _)%Z; assumption. }
  rewrite <- Hcl in Hj. rewrite (clamp_id child0 (proj2 Hch0)) in Hj.
  rewrite (clamp_id child0 (proj2 Hch0)) in Hcl. subst child.
  assert (Hmid : gene_midpoint cfg <= gene_length cfg).
  { unfold gene_midpoint. apply Nat.Div0.div_le_upper_bound. lia. }
  destruct Hqok as [Hlq _]. destruct Hmate_ok as [Hlmate _].
  assert (Hq255 : nth_error qg j <> Some 255%Z).
  { intros E. apply nth_error_In in E. unfold below_255 in Hqg.
    rewrite Forall_forall in Hqg. specialize (Hqg _ E). lia. }
  assert (Hmj : nth_error mate j = Some 255%Z).
  { rewrite <- Hi in Hj. unfold child_of, queen_first, mate_first in Hj.
    destruct (_ <? _)%Z; rewrite nth_error_splice in Hj by lia;
      destruct (j <? gene_midpoint cfg); congruence. }
  destruct (nth_error parent j) as [v|] eqn:Hv.
  2:{ apply nth_error_None in Hv.
      assert (j < length mate) by (apply nth_error_Some; congruence). lia. }
  assert (Hvb : (0 <= v <= 254)%Z).
  { unfold below_255 in Hparent_b. rewrite Forall_forall in Hparent_b.
    apply Hparent_b. eapply nth_error_In; eauto. }
  destruct (mutated_parents_draws cfg rng ps i parent j v Hparent Hparent_ok Hv)
    as [out [m [r [Hout [Hm [Hdraw [Hr01 Hoj]]]]]]].
  assert (out = mate) by congruence. subst out.
  rewrite Hmj in Hoj. injection Hoj as Hoj.
  exists parent, mate.
  split; [reflexivity|]. split; [exact Hmate|]. split; [symmetry; exact Hi|].
  destruct m; [|exfalso; lia].
  assert (Hcase : r = 0%Z \/ r = 1%Z) by lia.
  destruct Hcase as [-> | ->]; simpl in Hoj; [exfalso; lia|].
  split; [rewrite Hv; f_equal; lia|]. split; [exact Hm|]. split; [exact Hdraw|].
  split; [exact Hmj|exact Hq255].
Qed.

End Origin255.

(** ** The theorems above at the two-letter scenario *)

Lemma loop_exit_iff_infinite_witness :
  (some_infinite tiny st1 <-> iteration tiny rng2 st1 = Ok (Break (solved_state tiny st1))) /\
  (forall s, iteration tiny rng2 st1 = Ok (Break s) ->
             some_infinite tiny st1 /\ s = solved_state tiny st1) /\
  (~ some_infinite tiny st1 <-> exists st', iteration tiny rng2 st1 = Ok (Continue st')).
Proof.
  apply (loop_exit_iff_infinite tiny rng2 st1).
  - exact reachable_st1.
  - simpl. lia.
  - simpl. lia.
Defined.

Lemma demoted_queen_joins_selection_witness :
  exists ps children,
    demote (queen st1) (queen_fitness st1) ([65; 67] :: [[65; 99]; [0; 70]])%Z
           (fitnesses tiny ([65; 67] :: [[65; 99]; [0; 70]])%Z)
    = Ok (None, None, ([65; 67] :: [[65; 99]; [0; 70]]) ++ [[65; 70]],
          fitnesses tiny ([65; 67] :: [[65; 99]; [0; 70]]) ++ [Finite (1 # 16)])%Z /\
    extract None None (([65; 67] :: [[65; 99]; [0; 70]]) ++ [[65; 70]])%Z
            (fitnesses tiny ([65; 67] :: [[65; 99]; [0; 70]])%Z ++ [Finite (1 # 16)])
    = Ok (Some [65; 67]%Z, Some (fitness (target_gene tiny) [65; 67]%Z),
          [[65; 99]; [0; 70]] ++ [[65; 70]],
          fitnesses tiny [[65; 99]; [0; 70]] ++ [Finite (1 # 16)])%Z /\
    parents tiny rng2 ([[65; 99]; [0; 70]] ++ [[65; 70]])%Z
            (fitnesses tiny [[65; 99]; [0; 70]]%Z ++ [Finite (1 # 16)]) = Ok ps /\
    In [65; 70]%Z ([[65; 99]; [0; 70]] ++ [[65; 70]])%Z /\
    length ([[65; 99]; [0; 70]] ++ [[65; 70]])%Z = length (pool st1) /\
    crossover tiny rng2 [65; 67]%Z (mutated_parents tiny rng2 ps) = Ok children /\
    queen st2 = Some [65; 67]%Z /\
    pool st2 = map (clamp 0 255) children /\
    length (pool st2) = length (pool st1).
Proof.
  apply (demoted_queen_joins_selection tiny rng2 st1 st2
           [65; 70]%Z (Finite (1 # 16)) [65; 67]%Z [[65; 99]; [0; 70]]%Z).
  - exact reachable_st1.
  - reflexivity.
  - reflexivity.
  - vm_compute. reflexivity.
  - vm_compute. reflexivity.
  - exact st1_st2.
Defined.

Lemma selection_input_aligned_witness :
  sort_by_fitness tiny (pool st0)
  = Ok (sorted_pool tiny (pool st0), fitnesses tiny (sorted_pool tiny (pool st0))) /\
  descending (fitnesses tiny (sorted_pool tiny (pool st0))) /\
  exists q1 qf1 p1 f1 qg qf2 p2 f2 ps,
    demote (queen st0) (queen_fitness st0) (sorted_pool tiny (pool st0))
           (fitnesses tiny (sorted_pool tiny (pool st0)))
    = Ok (q1, qf1, p1, f1) /\
    extract q1 qf1 p1 f1 = Ok (Some qg, qf2, p2, f2) /\
    parents tiny rng1 p2 f2 = Ok ps /\
    f2 = fitnesses tiny p2 /\
    (~ (queen st0 <> None /\ q1 = None) -> descending f2).
Proof.
  apply (selection_input_aligned tiny rng1 st0 st1).
  - exact reachable_st0.
  - exact st0_st1.
Defined.

Lemma init255_st255 : iteration tiny rng2 (initial tiny src255) = Ok (Continue st255).
Proof. vm_compute. reflexivity. Qed.

Lemma initial_population_below_255_witness :
  Forall below_255 (pool (initial tiny src255)) /\
  exists q1 qf1 p1 f1 qg qf2 p2 f2 ps,
    demote (queen (initial tiny src255)) (queen_fitness (initial tiny src255))
           (sorted_pool tiny (pool (initial tiny src255)))
           (fitnesses tiny (sorted_pool tiny (pool (initial tiny src255))))
    = Ok (q1, qf1, p1, f1) /\
    extract q1 qf1 p1 f1 = Ok (Some qg, qf2, p2, f2) /\
    parents tiny rng2 p2 f2 = Ok ps /\
    queen st255 = Some qg /\ below_255 qg /\
    Forall below_255 ps /\
    length (pool st255) = length ps /\
    forall i child j,
      nth_error (pool st255) i = Some child -> nth_error child j = Some 255%Z ->
      exists parent mate,
        nth_error ps i = Some parent /\
        nth_error (mutated_parents tiny rng2 ps) i = Some mate /\
        child = child_of tiny rng2 qg i mate /\
        nth_error parent j = Some 254%Z /\
        nth_error (strong_mutate_mask tiny rng2 i) j = Some true /\
        nth_error (randint_row (randint_strong rng2) 0 2 i (gene_length tiny)) j
        = Some 1%Z /\
        nth_error mate j = Some 255%Z /\
        nth_error qg j <> Some 255%Z.
Proof.
  destruct (initial_population_below_255 tiny src255) as [Hinit Hstep].
  assert (H0 : init tiny src255 = Ok (initial tiny src255)) by reflexivity.
  split; [exact (Hinit _ H0)|].
  apply (Hstep rng2 (initial tiny src255) st255).
  - exact (reachable_init tiny src255 _ H0).
  - exact (Hinit _ H0).
  - simpl. intros g Hg. discriminate Hg.
  - exact init255_st255.
Defined.

(** * Further properties of the script *)

(** ** Text: [encode] and [decode] (lines 25-29) *)

Lemma code_range_iff (i : Z) : code_range i = true <-> code_point i.
Proof. unfold code_range, code_point. rewrite andb_true_iff, !Z.leb_le. tauto. Qed.

(** Two characters with the same code are the same character. *)
Lemma pychar_eq (c d : pychar) : ord c = ord d -> c = d.
Proof.
  destruct c as [i Hi], d as [j Hj]. simpl. intros ->. f_equal.
  apply UIP_dec, bool_dec.
Qed.

Lemma chr_code_point (i : Z) (H : code_range i = true) :
  chr i = Ok {| ord := i; ord_range := H |}.
Proof.
  unfold chr. generalize (eq_refl (code_range i)).
  generalize (code_range i) at 2 3. intros b. destruct b; intros E.
  - f_equal. apply pychar_eq. reflexivity.
  - congruence.
Qed.

Lemma chr_ord (c : pychar) : chr (ord c) = Ok c.
Proof. destruct c as [i Hi]. simpl. apply chr_code_point. Qed.

Lemma chr_Ok (i : Z) (c : pychar) : chr i = Ok c -> code_point i /\ ord c = i.
Proof.
  destruct (code_range i) eqn:E.
  - rewrite (chr_code_point i E). intros H. injection H as <-.
    split; [apply code_range_iff; exact E|reflexivity].
  - unfold chr. generalize (eq_refl (code_range i)).
    generalize (code_range i) at 2 3. intros b. destruct b; intros E'.
    + congruence.
    + destruct (c_int i); discriminate.
Qed.

Lemma chr_Err (i : Z) :
  ~ code_point i -> chr i = Err (if c_int i then ValueError else OverflowError).
Proof.
  intros H. unfold chr. generalize (eq_refl (code_range i)).
  generalize (code_range i) at 2 3. intros b. destruct b; intros E.
  - exfalso. apply H, code_range_iff. exact E.
  - destruct (c_int i); reflexivity.
Qed.

Lemma decode_encode_id (s : list pychar) : decode (encode s) = Ok s.
Proof.
  unfold decode, encode. induction s as [|c s IH]; simpl; [reflexivity|].
  rewrite chr_ord. simpl. rewrite IH. reflexivity.
Qed.

Lemma length_encode (s : list pychar) : length (encode s) = length s.
Proof. unfold encode. apply length_map. Qed.

Lemma encode_code_point (s : list pychar) : Forall code_point (encode s).
Proof.
  unfold encode. apply Forall_forall. intros v Hv. apply in_map_iff in Hv.
  destruct Hv as [c [<- _]]. apply code_range_iff. apply ord_range.
Qed.

Lemma decode_Ok (t : list Z) (s : list pychar) :
  decode t = Ok s -> encode s = t /\ Forall code_point t.
Proof.
  unfold decode, encode. intros H. apply mapM_Forall2 in H.
  induction H as [|i c t s Hc _ [IH1 IH2]]; simpl.
  - split; constructor.
  - destruct (chr_Ok i c Hc) as [Hcp Hord]. split; [congruence|]. constructor; assumption.
Qed.

Lemma decode_code_points (t : list Z) :
  Forall code_point t -> exists s, decode t = Ok s /\ encode s = t /\ length s = length t.
Proof.
  intros H. destruct (mapM_total chr t) as [s Hs].
  { intros i Hi. rewrite Forall_forall in H. specialize (H i Hi).
    apply code_range_iff in H. eexists. apply (chr_code_point i H). }
  exists s. split; [exact Hs|]. split; [apply (decode_Ok t s Hs)|].
  apply (mapM_length _ _ _ Hs).
Qed.

(** X1. For every string, [encode] returns one value per character, the
    code of that character, a code point; decoding what it returns never
    raises and gives back the string. *)
Theorem decode_encode (s : list pychar) :
  decode (encode s) = Ok s /\
  length (encode s) = length s /\
  Forall code_point (encode s) /\
  forall i c, nth_error s i = Some c -> nth_error (encode s) i = Some (ord c).
Proof.
  split; [apply decode_encode_id|].
  split; [apply length_encode|].
  split; [apply encode_code_point|].
  intros i c H. unfold encode. rewrite nth_error_map, H. reflexivity.
Qed.

(** X2. [decode] returns exactly when every value is a code point (within
    [0, 0x10FFFF]), and then the string has one character per value and the
    codes of its characters are the values.  Otherwise the first value that
    is no code point decides the exception: ValueError when it fits a C int
    (within [-2^31, 2^31 - 1]), OverflowError when it does not. *)
Theorem decode_spec (t : list Z) :
  (Forall code_point t ->
   exists s, decode t = Ok s /\ encode s = t /\ length s = length t) /\
  (forall s, decode t = Ok s -> encode s = t /\ Forall code_point t) /\
  (forall pre i post,
     t = pre ++ i :: post -> Forall code_point pre -> ~ code_point i ->
     decode t = Err (if ((- 2 ^ 31 <=? i) && (i <? 2 ^ 31))%Z
                     then ValueError else OverflowError)).
Proof.
  split; [apply decode_code_points|]. split; [apply decode_Ok|].
  intros pre i post -> Hpre Hi. unfold decode.
  induction Hpre as [|c pre Hc _ IH]; simpl.
  - rewrite (chr_Err i Hi). reflexivity.
  - apply code_range_iff in Hc. rewrite (chr_code_point c Hc). simpl.
    rewrite IH. reflexivity.
Qed.

(** ** The order of fitnesses *)

Lemma fge_Finite (p q : Q) : fge (Finite p) (Finite q) = Qle_bool q p.
Proof. unfold fge. simpl. apply negb_involutive. Qed.

Lemma fge_trans (a b c : float) : fge a b = true -> fge b c = true -> fge a c = true.
Proof.
  destruct a as [|p]; [reflexivity|].
  destruct b as [|q]; [discriminate|].
  destruct c as [|r]; [discriminate|].
  rewrite !fge_Finite, !Qle_bool_iff. intros H1 H2. eapply Qle_trans; eauto.
Qed.

Lemma fge_refl (a : float) : fge a a = true.
Proof.
  destruct a as [|p]; [reflexivity|]. rewrite fge_Finite. apply Qle_bool_iff, Qle_refl.
Qed.

Lemma fge_Inf (a : float) : fge a Inf = true -> a = Inf.
Proof. destruct a; [reflexivity|discriminate]. Qed.

Lemma flt_fge (a b : float) : flt a b = true -> fge b a = true.
Proof. intros H. unfold fge. rewrite (flt_asym a b H). reflexivity. Qed.

Lemma flt_recip (a b : Z) :
  (0 <= a)%Z -> (0 <= b)%Z -> (flt (recip a) (recip b) = true <-> (b < a)%Z).
Proof.
  intros Ha Hb. unfold recip.
  destruct (Z.eqb_spec a 0) as [->|Na]; destruct (Z.eqb_spec b 0) as [->|Nb]; simpl.
  - split; [discriminate|lia].
  - split; [discriminate|lia].
  - split; [lia|reflexivity].
  - destruct a as [|pa|pa]; try lia. destruct b as [|pb|pb]; try lia.
    rewrite negb_true_iff. unfold Qle_bool, Qinv, inject_Z. simpl.
    destruct (Z.leb_spec (Z.pos pa) (Z.pos pb)); split; try discriminate; try reflexivity; lia.
Qed.

(** X4. Among genomes with values in [0, 255] (the target being made of
    code points, with at most 2^20 positions), a genome whose sum of squared
    differences to the target is no larger is at least as fit, and a genome
    that is strictly less fit has a strictly larger sum.  Nothing is said of
    two genomes with different sums and the same fitness, which float32 can
    produce. *)
Theorem closer_is_at_least_as_fit (target g1 g2 : list Z) :
  Forall code_point target ->
  Forall byte_valued g1 -> Forall byte_valued g2 ->
  (Z.of_nat (length g1) <= 2 ^ 20)%Z -> (Z.of_nat (length g2) <= 2 ^ 20)%Z ->
  ((sum_sq g1 target <= sum_sq g2 target)%Z ->
   fge (fitness target g1) (fitness target g2) = true) /\
  (flt (fitness target g1) (fitness target g2) = true ->
   (sum_sq g2 target < sum_sq g1 target)%Z).
Proof.
  intros Ht H1 H2 L1 L2.
  rewrite (fitness_recip target g1 H1 Ht L1), (fitness_recip target g2 H2 Ht L2).
  pose proof (flt_recip (sum_sq g1 target) (sum_sq g2 target)
                (sum_sq_nonneg g1 target) (sum_sq_nonneg g2 target)) as Hlt.
  split; [|apply Hlt].
  intros Hle. unfold fge. rewrite negb_true_iff.
  destruct (flt (recip (sum_sq g1 target)) (recip (sum_sq g2 target))); [|reflexivity].
  assert (sum_sq g2 target < sum_sq g1 target)%Z by (apply Hlt; reflexivity). lia.
Qed.

Lemma closer_is_at_least_as_fit_witness :
  ((sum_sq [65; 70]%Z [65; 66]%Z <= sum_sq [0; 70]%Z [65; 66]%Z)%Z ->
   fge (fitness [65; 66]%Z [65; 70]%Z) (fitness [65; 66]%Z [0; 70]%Z) = true) /\
  (flt (fitness [65; 66]%Z [65; 70]%Z) (fitness [65; 66]%Z [0; 70]%Z) = true ->
   (sum_sq [0; 70]%Z [65; 66]%Z < sum_sq [65; 70]%Z [65; 66]%Z)%Z).
Proof.
  apply (closer_is_at_least_as_fit [65; 66]%Z [65; 70]%Z [0; 70]%Z).
  - repeat constructor; unfold code_point; lia.
  - repeat constructor; unfold byte_valued; lia.
  - repeat constructor; unfold byte_valued; lia.
  - simpl. lia.
  - simpl. lia.
Defined.

(** ** Sorting (lines 53-56): nothing lost, the fittest first *)

Lemma descending_all_pairs (f : list float) :
  descending f ->
  forall i j a b, i <= j -> nth_error f i = Some a -> nth_error f j = Some b ->
                  fge a b = true.
Proof.
  unfold descending. intros H.
  assert (HS : StronglySorted (fun a b => fge a b = true) f).
  { apply Sorted_StronglySorted; [|exact H]. intros a b c. apply fge_trans. }
  clear H. induction HS as [|x l HS IH Hx]; intros i j a b Hij Ha Hb.
  - destruct i; discriminate.
  - destruct i as [|i]; simpl in Ha.
    + injection Ha as <-. destruct j as [|j]; simpl in Hb.
      * injection Hb as <-. apply fge_refl.
      * rewrite Forall_forall in Hx. apply Hx. eapply nth_error_In; eauto.
    + destruct j as [|j]; [lia|]. simpl in Hb. apply (IH i j); [lia|assumption|assumption].
Qed.

Section SortMore.
Variable cfg : Config.

(** X5. Sorting never raises; it returns the same individuals, none lost
    and none twice, with the fitness of each at its position, and an
    individual never stands before a fitter one: at any two positions
    [i <= j] the fitness at [i] is at least the fitness at [j]. *)
Theorem sort_keeps_members_fittest_first (p : list (list Z)) :
  exists p',
    sort_by_fitness cfg p = Ok (p', fitnesses cfg p') /\
    Permutation p p' /\ length p' = length p /\
    forall i j gi gj, i <= j -> nth_error p' i = Some gi -> nth_error p' j = Some gj ->
      fge (fitness (target_gene cfg) gi) (fitness (target_gene cfg) gj) = true.
Proof.
  destruct (sort_by_fitness_spec cfg p) as [p' [Hs [HP HD]]].
  exists p'. split; [exact Hs|]. split; [exact HP|].
  split; [symmetry; apply Permutation_length; exact HP|].
  intros i j gi gj Hij Hi Hj.
  apply (descending_all_pairs _ HD i j); [exact Hij| |];
    unfold fitnesses; rewrite nth_error_map; [rewrite Hi|rewrite Hj]; reflexivity.
Qed.

End SortMore.

(** ** Tournament selection (lines 88-92): who takes part and who wins *)

Lemma gather_nth_error {A : Type} (l : list A) (ids : list nat) (r : list A) (w : nat) (x : A) :
  gather l ids = Ok r -> nth_error r w = Some x ->
  exists k, nth_error ids w = Some k /\ nth_error l k = Some x.
Proof.
  intros Hg Hw.
  assert (Hlt : w < length ids).
  { rewrite <- (gather_length l ids r Hg). apply nth_error_Some. congruence. }
  destruct (nth_error ids w) as [k|] eqn:Hk; [|apply nth_error_None in Hk; lia].
  destruct (mapM_nth_error _ _ _ Hg w k Hk) as [y [Hy Hi]].
  exists k. split; [reflexivity|]. apply index_Ok. congruence.
Qed.

Lemma gather_member {A : Type} (l : list A) (ids : list nat) (r : list A) (k : nat) (x : A) :
  gather l ids = Ok r -> In k ids -> nth_error l k = Some x -> In x r.
Proof.
  intros Hg Hin Hx. destruct (In_nth_error _ _ Hin) as [w Hw].
  destruct (mapM_nth_error _ _ _ Hg w k Hw) as [y [Hy Hi]].
  apply index_Ok in Hi. assert (y = x) by congruence. subst y.
  eapply nth_error_In; eauto.
Qed.

Lemma argmax_from_spec (l : list float) (best_i : nat) (best : float) (i : nat) :
  exists v,
    fge v best = true /\ (forall y, In y l -> fge v y = true) /\
    ((argmax_from best_i best i l = best_i /\ v = best) \/
     (i <= argmax_from best_i best i l /\
      nth_error l (argmax_from best_i best i l - i) = Some v)).
Proof.
  revert best_i best i. induction l as [|x l IH]; intros best_i best i; simpl.
  - exists best. split; [apply fge_refl|]. split; [intros y []|]. left. split; reflexivity.
  - destruct (flt best x) eqn:E.
    + destruct (IH i x (S i)) as [v [Hvx [Hall Hpos]]]. exists v.
      split; [eapply fge_trans; [exact Hvx|apply flt_fge; exact E]|].
      split; [intros y [<-|Hy]; auto|]. right.
      destruct Hpos as [[-> ->]|[Hle Hn]].
      * split; [lia|]. rewrite Nat.sub_diag. reflexivity.
      * split; [lia|].
        replace (argmax_from i x (S i) l - i) with (S (argmax_from i x (S i) l - S i)) by lia.
        exact Hn.
    + destruct (IH best_i best (S i)) as [v [Hvb [Hall Hpos]]]. exists v.
      split; [exact Hvb|].
      split.
      * intros y [<-|Hy]; [|auto]. eapply fge_trans; [exact Hvb|].
        unfold fge. rewrite E. reflexivity.
      * destruct Hpos as [[Hr ->]|[Hle Hn]]; [left; split; [exact Hr|reflexivity]|].
        right. split; [lia|].
        replace (argmax_from best_i best (S i) l - i)
          with (S (argmax_from best_i best (S i) l - S i)) by lia.
        exact Hn.
Qed.

(** [topk(1)] returns the position of an entry that no entry exceeds. *)
Lemma top1_spec (row : list float) (w : nat) :
  top1 row = Ok w ->
  exists x, nth_error row w = Some x /\ forall y, In y row -> fge x y = true.
Proof.
  destruct row as [|x r]; simpl; [discriminate|]. intros H. injection H as <-.
  destruct (argmax_from_spec r 0 x 1) as [v [Hvx [Hall Hpos]]]. exists v. split.
  - destruct Hpos as [[-> ->]|[Hle Hn]]; [reflexivity|].
    destruct (argmax_from 0 x 1 r) as [|m]; [lia|]. simpl in *.
    rewrite Nat.sub_0_r in Hn. exact Hn.
  - intros y [<-|Hy]; auto.
Qed.

Lemma NoDup_prefix {A : Type} (n : nat) (l : list A) : NoDup l -> NoDup (firstn n l).
Proof.
  intros H. revert n. induction H as [|x l Hx _ IH]; intros [|n]; simpl; try constructor.
  - intros Hin. apply Hx. revert Hin. clear. revert n.
    induction l as [|y l IHl]; intros [|n]; simpl; try contradiction.
    intros [->|H]; [left; reflexivity|right; eauto].
  - apply IH.
Qed.

Lemma py_take_all {A : Type} (k : Z) (l : list A) :
  (Z.of_nat (length l) <= k)%Z -> py_take k l = l.
Proof.
  intros H. unfold py_take. destruct (Z.ltb_spec k 0); [lia|].
  apply firstn_all2. lia.
Qed.

Section TournamentFacts.
Variable cfg : Config.

Lemma contender_ids_nth (rng : Rng) (n i : nat) :
  i < n ->
  nth_error (contender_ids cfg rng n) i
  = Some (py_take (NUM_TOURNAMENT_PARTICIPANTS cfg)
                  (argsort_asc (map (randn_contender rng i) (seq 0 n)))).
Proof.
  intros H. unfold contender_ids. rewrite nth_error_map, nth_error_randn by exact H.
  reflexivity.
Qed.

(** The parent of tournament [i] is the member at one of the positions
    drawn for that tournament, and no position drawn holds a larger fitness. *)
Lemma parents_winner (rng : Rng) (p : list (list Z)) (f : list float)
    (ps : list (list Z)) (n i : nat) (parent : list Z) :
  parents cfg rng p f = Ok ps -> POP_SIZE cfg = Z.of_nat (S n) ->
  nth_error ps i = Some parent ->
  exists ids w k fk,
    nth_error (contender_ids cfg rng n) i = Some ids /\
    nth_error ids w = Some k /\
    nth_error p k = Some parent /\ nth_error f k = Some fk /\
    forall k' fk', In k' ids -> nth_error f k' = Some fk' -> fge fk fk' = true.
Proof.
  intros H HP Hi. unfold parents in H.
  destruct (Z.ltb_spec (POP_SIZE cfg - 1) 0) as [|_]; [discriminate|].
  replace (Z.to_nat (POP_SIZE cfg - 1)) with n in H by lia.
  destruct (mapM (gather p) (contender_ids cfg rng n)) as [participants|] eqn:Hp;
    simpl in H; [|discriminate].
  destruct (mapM (gather f) (contender_ids cfg rng n)) as [tournaments|] eqn:Ht;
    simpl in H; [|discriminate].
  destruct (Nat.eqb (tournament_width cfg n) 0); [discriminate|].
  assert (Hlt : i < n).
  { pose proof (mapM_length _ _ _ H) as L. pose proof (mapM_length _ _ _ Hp) as Lp.
    pose proof (mapM_length _ _ _ Ht) as Lt.
    rewrite length_combine, Lp, Lt, length_contender_ids in L.
    assert (i < length ps) by (apply nth_error_Some; congruence). lia. }
  pose proof (contender_ids_nth rng n i Hlt) as Hids.
  set (ids := py_take _ _) in Hids.
  destruct (mapM_nth_error _ _ _ Hp i ids Hids) as [parts [Hparts Hgp]].
  destruct (mapM_nth_error _ _ _ Ht i ids Hids) as [tour [Htour Hgf]].
  destruct (mapM_nth_error _ _ _ H i (parts, tour)) as [y [Hy Hrow]].
  { rewrite nth_error_pair, Hparts, Htour. reflexivity. }
  assert (y = parent) by congruence. subst y. simpl in Hrow.
  destruct (top1 tour) as [w|] eqn:Hw; simpl in Hrow; [|discriminate].
  apply index_Ok in Hrow.
  destruct (top1_spec tour w Hw) as [fk [Hfk Hmax]].
  destruct (gather_nth_error p ids parts w parent Hgp Hrow) as [k [Hk Hpk]].
  destruct (gather_nth_error f ids tour w fk Hgf Hfk) as [k2 [Hk2 Hfk2]].
  assert (k2 = k) by congruence. subst k2.
  exists ids, w, k, fk. repeat split; try assumption.
  intros k' fk' Hin Hf'. apply Hmax. eapply gather_member; eauto.
Qed.

(** X6. When selection returns, there is one parent per tournament,
    [POP_SIZE - 1] in all; the positions drawn for a tournament are distinct
    positions of the population (drawn without replacement), as many as the
    width of [contender_ids]; the parent is the member at one of them, and
    none of them holds a larger fitness. *)
Theorem tournament_winner_is_best_contender (rng : Rng) (p : list (list Z)) (f : list float)
    (ps : list (list Z)) (i : nat) (parent : list Z) :
  parents cfg rng p f = Ok ps -> nth_error ps i = Some parent ->
  Z.of_nat (S (length ps)) = POP_SIZE cfg /\
  exists ids w k fk,
    nth_error (contender_ids cfg rng (length ps)) i = Some ids /\
    NoDup ids /\ Forall (fun k' => k' < length ps) ids /\
    length ids = tournament_width cfg (length ps) /\
    nth_error ids w = Some k /\
    nth_error p k = Some parent /\ nth_error f k = Some fk /\
    forall k' fk', In k' ids -> nth_error f k' = Some fk' -> fge fk fk' = true.
Proof.
  intros H Hi. destruct (parents_spec cfg rng p f ps H) as [_ Hn].
  split; [exact Hn|].
  destruct (parents_winner rng p f ps (length ps) i parent H (eq_sym Hn) Hi)
    as [ids [w [k [fk [Hids [Hw [Hp [Hf Hmax]]]]]]]].
  exists ids, w, k, fk.
  assert (Hin : In ids (contender_ids cfg rng (length ps)))
    by (eapply nth_error_In; eauto).
  destruct (contender_ids_rows cfg rng (length ps) ids Hin) as [Hlt Hlen].
  split; [exact Hids|]. split.
  - assert (Hlt' : i < length ps) by (apply nth_error_Some; congruence).
    rewrite (contender_ids_nth rng (length ps) i Hlt') in Hids. injection Hids as <-.
    destruct (py_take_prefix (NUM_TOURNAMENT_PARTICIPANTS cfg)
                (argsort_asc (map (randn_contender rng i) (seq 0 (length ps))))) as [m ->].
    apply NoDup_prefix.
    eapply Permutation_NoDup; [apply Permutation_sym, argsort_Permutation|apply seq_NoDup].
  - repeat split; assumption.
Qed.

(** X7. When the number of participants is at least the size of the
    population (every tournament takes the whole population), every parent
    chosen is a fittest member of the population. *)
Theorem full_tournament_picks_fittest (rng : Rng) (p ps : list (list Z)) :
  parents cfg rng p (fitnesses cfg p) = Ok ps ->
  Z.of_nat (S (length p)) = POP_SIZE cfg ->
  (Z.of_nat (length p) <= NUM_TOURNAMENT_PARTICIPANTS cfg)%Z ->
  forall parent g, In parent ps -> In g p ->
    fge (fitness (target_gene cfg) parent) (fitness (target_gene cfg) g) = true.
Proof.
  intros H Hn Hk parent g Hparent Hg.
  destruct (In_nth_error _ _ Hparent) as [i Hi].
  destruct (parents_winner rng p (fitnesses cfg p) ps (length p) i parent H (eq_sym Hn) Hi)
    as [ids [w [k [fk [Hids [Hw [Hp [Hf Hmax]]]]]]]].
  assert (Hlt : i < length p).
  { destruct (nth_error (contender_ids cfg rng (length p)) i) eqn:E; [|discriminate].
    rewrite <- (length_contender_ids cfg rng (length p)). apply nth_error_Some. congruence. }
  rewrite (contender_ids_nth rng (length p) i Hlt) in Hids. injection Hids as Hids.
  rewrite py_take_all in Hids.
  2:{ unfold argsort_asc. rewrite argsort_length, length_map, length_seq. exact Hk. }
  unfold fitnesses in Hf. rewrite nth_error_map, Hp in Hf. injection Hf as <-.
  destruct (In_nth_error _ _ Hg) as [k' Hk'].
  apply (Hmax k').
  - rewrite <- Hids. unfold argsort_asc.
    eapply Permutation_in; [apply Permutation_sym, argsort_Permutation|].
    rewrite length_map, length_seq. apply in_seq.
    assert (k' < length p) by (apply nth_error_Some; congruence). lia.
  - unfold fitnesses. rewrite nth_error_map, Hk'. reflexivity.
Qed.

End TournamentFacts.

(** ** The target *)

Lemma byte_valued_code_point (t : list Z) : Forall byte_valued t -> Forall code_point t.
Proof.
  apply Forall_impl. intros v Hv. unfold byte_valued in Hv. unfold code_point. lia.
Qed.

(** ** What holds at the head of the loop *)

Section LoopHead.
Variable cfg : Config.

(** X8. At the head of every pass of a run: the generation counter is
    at least 1; every member of the population has [gene_length] values, all
    within [0, 255]; in generation 1 there is no queen, [mutated_pool] is
    unbound and the population has [POP_SIZE] members; in every later
    generation there is a queen of [gene_length] values within [0, 255], her
    cached fitness is the fitness of her genome and is finite, and the
    population has [POP_SIZE - 1] members. *)
Theorem loop_head_invariants (st : State) :
  reachable cfg st ->
  1 <= generation st /\
  Forall (genome_ok cfg) (pool st) /\
  (generation st = 1 ->
   queen st = None /\ queen_fitness st = None /\ mutated_pool st = None /\
   Z.of_nat (length (pool st)) = POP_SIZE cfg) /\
  (1 < generation st ->
   exists qg, queen st = Some qg /\
              queen_fitness st = Some (fitness (target_gene cfg) qg) /\
              genome_ok cfg qg /\
              is_inf (fitness (target_gene cfg) qg) = false /\
              mutated_pool st <> None /\
              Z.of_nat (S (length (pool st))) = POP_SIZE cfg).
Proof.
  intros Hr. pose proof (reachable_wf cfg st Hr) as [Hpool Hq].
  induction Hr as [src st Hinit|rng st st' Hr IH Hstep].
  - apply init_Ok in Hinit. destruct Hinit as [HP ->].
    split; [simpl; lia|]. split; [exact Hpool|]. split.
    + intros _. simpl. repeat split. rewrite length_randint. lia.
    + simpl. lia.
  - apply iteration_Continue in Hstep.
    destruct Hstep as [p q1 qf1 p1 f1 qg qf2 p2 f2 ps children Hp Hu Hd He Hps Hc].
    destruct (IH (proj1 (reachable_wf cfg st Hr)) (proj2 (reachable_wf cfg st Hr)))
      as [Hgen _].
    simpl in *. split; [lia|]. split; [exact Hpool|]. split; [lia|].
    intros _. unfold queen_ok in Hq. simpl in Hq.
    destruct qf2 as [qf|]; [|contradiction].
    destruct Hq as [Hok [-> [Hfin Hsize]]].
    exists qg. repeat split; try assumption; try apply Hok. discriminate.
Qed.

Lemma descending_head (g : list Z) (p : list (list Z)) :
  descending (fitnesses cfg (g :: p)) ->
  forall g', In g' (g :: p) ->
    fge (fitness (target_gene cfg) g) (fitness (target_gene cfg) g') = true.
Proof.
  intros HD g' Hin. destruct (In_nth_error _ _ Hin) as [j Hj].
  apply (descending_all_pairs _ HD 0 j); [lia|reflexivity|].
  unfold fitnesses. rewrite nth_error_map, Hj. reflexivity.
Qed.

(** X9. A pass that runs on leaves a queen with her fitness cached, at
    least as fit as every member of the population the pass started with.
    If there was a queen before, the new one is at least as fit as she was:
    either she stays, or she is replaced by a member of the population that
    is strictly fitter.  If there was none, the new queen is a member of the
    population. *)
Theorem queen_never_gets_worse (rng : Rng) (st st' : State) :
  reachable cfg st -> iteration cfg rng st = Ok (Continue st') ->
  exists qg',
    queen st' = Some qg' /\
    queen_fitness st' = Some (fitness (target_gene cfg) qg') /\
    (forall g, In g (pool st) ->
       fge (fitness (target_gene cfg) qg') (fitness (target_gene cfg) g) = true) /\
    (forall qg, queen st = Some qg ->
       fge (fitness (target_gene cfg) qg') (fitness (target_gene cfg) qg) = true /\
       (qg' = qg \/
        (In qg' (pool st) /\
         flt (fitness (target_gene cfg) qg) (fitness (target_gene cfg) qg') = true))) /\
    (queen st = None -> In qg' (pool st)).
Proof.
  intros Hr Hit. pose proof (reachable_wf cfg st Hr) as Hwf.
  apply iteration_Continue in Hit.
  destruct Hit as [p q1 qf1 p1 f1 qg' qf2 p2 f2 ps children Hp Hu Hd He Hps Hc].
  subst p. pose proof (sorted_pool_Permutation cfg (pool st)) as HP.
  pose proof (sorted_pool_descending cfg (pool st)) as HD.
  destruct (queen_phase cfg st _ _ _ _ _ _ _ _ _ Hwf HP Hu Hd He) as [_ [Hqf2 _]].
  exists qg'. simpl. split; [reflexivity|]. split; [exact Hqf2|].
  set (p := sorted_pool cfg (pool st)) in *.
  assert (Hmem : forall g, In g (pool st) <-> In g p).
  { intros g. split; intros H.
    - eapply Permutation_in; [exact HP|exact H].
    - eapply Permutation_in; [apply Permutation_sym; exact HP|exact H]. }
  destruct Hwf as [_ Hq]. unfold queen_ok in Hq. unfold demote in Hd.
  destruct (queen st) as [q0|], (queen_fitness st) as [qf0|]; try contradiction.
  - destruct Hq as [_ [Hqf0 _]].
    destruct p as [|g p']; [discriminate|]. simpl in Hd.
    destruct (flt qf0 (fitness (target_gene cfg) g)) eqn:E; injection Hd as <- <- <- <-.
    + simpl in He. injection He as <- <- <- <-.
      split; [intros g0 Hg0; apply (descending_head g p' HD); apply Hmem; exact Hg0|].
      split; [|discriminate]. intros qg Hqg. injection Hqg as <-. rewrite Hqf0 in E.
      split; [apply flt_fge; exact E|]. right. split; [|exact E].
      apply Hmem. left. reflexivity.
    + simpl in He. injection He as <- <- <- <-.
      split.
      * intros g0 Hg0. eapply fge_trans.
        -- unfold fge. rewrite <- Hqf0, E. reflexivity.
        -- apply (descending_head g p' HD). apply Hmem. exact Hg0.
      * split; [|discriminate]. intros qg Hqg. injection Hqg as <-.
        split; [apply fge_refl|left; reflexivity].
  - injection Hd as <- <- <- <-. unfold extract in He.
    destruct p as [|g p']; [discriminate|]. simpl in He. injection He as <- <- <- <-.
    split; [intros g0 Hg0; apply (descending_head g p' HD); apply Hmem; exact Hg0|].
    split; [discriminate|]. intros _. apply Hmem. left. reflexivity.
Qed.

(** X10. When the loop stops (line 70), the first member of the sorted
    population is the target itself, which decodes to the goal string; the
    other members are those the pass started with, and the generation counter
    and the queen are as the pass found them. *)
Theorem solved_population_starts_with_target (rng : Rng) (st s : State) :
  reachable cfg st -> (Z.of_nat (gene_length cfg) <= 2 ^ 20)%Z ->
  iteration cfg rng st = Ok (Break s) ->
  exists rest,
    pool s = target_gene cfg :: rest /\
    Permutation (pool st) (target_gene cfg :: rest) /\
    decode (target_gene cfg) = Ok (GOAL cfg) /\
    generation s = generation st /\ queen s = queen st.
Proof.
  intros Hr HL Hit. pose proof (reachable_wf cfg st Hr) as [Hpool _].
  apply iteration_Break in Hit. destruct Hit as [Hinf ->]. simpl.
  pose proof (sorted_pool_Permutation cfg (pool st)) as HP.
  pose proof (sorted_pool_descending cfg (pool st)) as HD.
  apply existsb_exists in Hinf. destruct Hinf as [f [Hf Hi]].
  unfold fitnesses in Hf. apply in_map_iff in Hf. destruct Hf as [g0 [<- Hg0]].
  apply is_inf_true in Hi.
  destruct (sorted_pool cfg (pool st)) as [|g rest] eqn:Hs; [contradiction|].
  assert (Hg : fitness (target_gene cfg) g = Inf).
  { apply fge_Inf. rewrite <- Hi. apply (descending_head g rest HD). exact Hg0. }
  assert (Hok : genome_ok cfg g).
  { rewrite Forall_forall in Hpool. apply Hpool.
    eapply Permutation_in; [apply Permutation_sym; exact HP|left; reflexivity]. }
  destruct Hok as [Hlen Hbytes].
  assert (Heq : g = target_gene cfg).
  { rewrite fitness_recip in Hg.
    - unfold recip in Hg.
      destruct (Z.eqb_spec (sum_sq g (target_gene cfg)) 0) as [E|E]; [|discriminate].
      apply sum_sq_zero; [|exact E].
      unfold target_gene. rewrite length_encode. exact Hlen.
    - exact Hbytes.
    - apply encode_code_point.
    - rewrite Hlen. exact HL. }
  subst g. exists rest. split; [reflexivity|]. split; [exact HP|].
  split; [apply decode_encode_id|]. split; reflexivity.
Qed.

End LoopHead.

(** ** The display of a generation (lines 60-65) *)

Lemma decode_bytes (t : list Z) :
  Forall byte_valued t ->
  exists u, decode t = Ok u /\ length u = length t /\ map ord u = t.
Proof.
  intros H. destruct (decode_code_points t (byte_valued_code_point t H)) as [u [Hu [He Hl]]].
  exists u. split; [exact Hu|]. split; [exact Hl|exact He].
Qed.

Section Display.
Variable cfg : Config.

Lemma display_pool_ok (p : list (list Z)) :
  Forall (genome_ok cfg) p ->
  exists dp,
    display_pool (combine p (fitnesses cfg p)) = Ok dp /\
    length dp = length p /\
    forall i g, nth_error p i = Some g ->
      exists s, nth_error dp i = Some (s, fitness (target_gene cfg) g) /\
                length s = gene_length cfg /\ map ord s = g.
Proof.
  unfold display_pool, fitnesses.
  induction 1 as [|g p [Hlen Hb] _ [dp [Hdp [Hl Hrows]]]]; cbn [map combine mapM fst snd].
  - exists []. repeat split. intros [|i] g E; discriminate.
  - destruct (decode_bytes g Hb) as [s [Hs [Hsl Hsm]]]. rewrite Hs. cbn [bind].
    rewrite Hdp. cbn [bind].
    exists ((s, fitness (target_gene cfg) g) :: dp). split; [reflexivity|].
    split; [simpl; congruence|].
    intros [|i] g' E; simpl in *.
    + injection E as <-. exists s. repeat split; congruence.
    + apply Hrows. exact E.
Qed.

(** X3. In every generation of a run the display does not raise: it
    shows the queen, when there is one, as the text of her genome with her
    fitness, and then one line per member of the sorted population, each a
    text of [gene_length] characters whose codes are the genes, with the
    fitness of that member. *)
Theorem display_never_raises (st : State) :
  reachable cfg st ->
  exists dq dp,
    display (queen st) (queen_fitness st) (sorted_pool cfg (pool st))
            (fitnesses cfg (sorted_pool cfg (pool st))) = Ok (dq, dp) /\
    length dp = length (pool st) /\
    (forall i g, nth_error (sorted_pool cfg (pool st)) i = Some g ->
       exists s, nth_error dp i = Some (s, fitness (target_gene cfg) g) /\
                 length s = gene_length cfg /\ map ord s = g) /\
    (queen st = None -> dq = None) /\
    (forall qg, queen st = Some qg ->
       exists s, dq = Some (s, fitness (target_gene cfg) qg) /\
                 length s = gene_length cfg /\ map ord s = qg).
Proof.
  intros Hr. destruct (reachable_wf cfg st Hr) as [Hpool Hq].
  pose proof (sorted_pool_Permutation cfg (pool st)) as HP.
  assert (Hsorted : Forall (genome_ok cfg) (sorted_pool cfg (pool st))).
  { apply Forall_forall. intros g Hg. rewrite Forall_forall in Hpool. apply Hpool.
    eapply Permutation_in; [apply Permutation_sym; exact HP|exact Hg]. }
  destruct (display_pool_ok _ Hsorted) as [dp [Hdp [Hl Hrows]]].
  unfold display, display_queen, queen_ok in *.
  destruct (queen st) as [qg|], (queen_fitness st) as [qf|]; try contradiction.
  - destruct Hq as [[Hlen Hb] [-> _]].
    destruct (decode_bytes qg Hb) as [s [Hs [Hsl Hsm]]]. rewrite Hs. simpl. rewrite Hdp.
    do 2 eexists. split; [reflexivity|].
    split; [rewrite Hl; symmetry; apply Permutation_length; exact HP|].
    split; [exact Hrows|]. split; [discriminate|].
    intros qg' E. injection E as <-. exists s. repeat split; congruence.
  - simpl. rewrite Hdp. do 2 eexists. split; [reflexivity|].
    split; [rewrite Hl; symmetry; apply Permutation_length; exact HP|].
    split; [exact Hrows|]. split; [reflexivity|discriminate].
Qed.

End Display.

(** ** The generation counter (lines 42 and 127) *)

Section Counter.
Variable cfg : Config.

(** X11. The counter goes up by one with every pass that runs on and is
    left alone by the pass that stops: after [fuel] passes without a stop it
    has grown by [fuel], and a stop within [fuel] passes happens at a
    generation less than [fuel] later than the start. *)
Theorem run_counts_generations (fuel : nat) (rngs : nat -> Rng) (st : State) (o : outcome) :
  run cfg fuel rngs st = Ok o ->
  match o with
  | Continue s => generation s = generation st + fuel
  | Break s => exists k, k < fuel /\ generation s = generation st + k
  end.
Proof.
  revert st. induction fuel as [|fuel IH]; intros st Hrun; simpl in Hrun.
  - injection Hrun as <-. lia.
  - destruct (iteration cfg (rngs (generation st)) st) as [[s0|st']|] eqn:Hit;
      simpl in Hrun; [| |discriminate].
    + injection Hrun as <-. apply iteration_Break in Hit. destruct Hit as [_ ->].
      exists 0. simpl. split; lia.
    + apply iteration_Continue in Hit. specialize (IH st' Hrun).
      assert (Hg : generation st' = S (generation st)) by (destruct Hit; reflexivity).
      destruct o as [s|s].
      * destruct IH as [k [Hk Hs]]. exists (S k). split; lia.
      * lia.
Qed.

End Counter.

(** ** The weak mutation as it is computed (lines 119-121) *)

Section WeakMutation.
Variable cfg : Config.

(** X12. For a population of well-formed genomes (of at most 2^24
    values, so that every rank is a float32), the tensor that line 121 binds
    to [mutated_pool] has one row per member, of the same length; the mask of
    line 119 selects in each row as many positions as there are ranks below
    the threshold that the comparison uses, the double
    [MUTATION_PROB * gene_length] converted to float32 (for a finite
    threshold, the threshold rounded up, capped by the length); a selected
    position holding [v] becomes [v + 1] or [v - 1], without clamping, and
    every other position keeps its value. *)
Theorem weak_mutation_row (rng : Rng) (p : list (list Z)) (i : nat) (row : list Z) :
  (Z.of_nat (gene_length cfg) <= 2 ^ 24)%Z ->
  nth_error p i = Some row -> genome_ok cfg row ->
  length (weak_mutate cfg rng p) = length p /\
  exists out,
    nth_error (weak_mutate cfg rng p) i = Some out /\
    length out = length row /\
    count_true (weak_mutate_mask cfg rng i)
    = ranks_below (fp_cast binary32 (num_code_mutate cfg)) (gene_length cfg) /\
    forall j v, nth_error row j = Some v ->
      (nth_error (weak_mutate_mask cfg rng i) j = Some true /\
       (nth_error out j = Some (v + 1)%Z \/ nth_error out j = Some (v - 1)%Z))
      \/
      (nth_error (weak_mutate_mask cfg rng i) j = Some false /\
       nth_error out j = Some v).
Proof.
  intros HL Hrow [Hlen Hbytes]. split.
  { unfold weak_mutate. apply length_mutate; [apply length_randn|apply length_randint]. }
  unfold weak_mutate. rewrite (nth_error_mutate _ _ _ _ _ _ _ Hrow).
  eexists. split; [reflexivity|].
  assert (Hk : length (map (randn_weak rng i) (seq 0 (gene_length cfg))) = length row)
    by (rewrite length_map, length_seq; auto).
  assert (Hd : length (randint_row (randint_weak rng) 0 2 i (gene_length cfg)) = length row)
    by (rewrite length_randint_row; auto).
  split; [apply length_mutate_row; assumption|].
  split.
  { unfold weak_mutate_mask.
    rewrite count_true_mutate_mask, length_map, length_seq
      by (rewrite length_map, length_seq; exact HL).
    reflexivity. }
  intros j v Hv.
  destruct (nth_error_mutate_row (num_code_mutate cfg) _ _ row j v Hk Hd Hv)
    as [m [r [Hm [Hr Hout]]]].
  assert (Hvb : byte_valued v).
  { rewrite Forall_forall in Hbytes. apply Hbytes. eapply nth_error_In; eauto. }
  rewrite Hout. unfold weak_mutate_mask. rewrite Hm.
  destruct m.
  - left. split; [reflexivity|].
    assert (Hr01 : (0 <= r < 2)%Z).
    { pose proof (randint_row_range (randint_weak rng) 0 2 i (gene_length cfg)
                    ltac:(lia)) as HF.
      rewrite Forall_forall in HF. apply HF. eapply nth_error_In; eauto. }
    destruct (noise_value r Hr01) as [E|E]; rewrite E;
      rewrite (add64_byte v _ Hvb) by auto; [left|right]; f_equal; lia.
  - right. split; reflexivity.
Qed.

End WeakMutation.

(** ** Degenerate configurations *)

Section Degenerate.
Variable cfg : Config.

(** X13. With [POP_SIZE = 0] line 44 creates an empty population and the
    first pass raises IndexError: there is no member to take as queen
    (line 83). *)
Theorem empty_population_raises (src : nat -> nat -> Z) (rng : Rng) :
  POP_SIZE cfg = 0%Z ->
  init cfg src = Ok (initial cfg src) /\
  iteration cfg rng (initial cfg src) = Err IndexError.
Proof.
  intros HP. split.
  - unfold init. rewrite HP. reflexivity.
  - unfold iteration, initial. simpl. rewrite HP. reflexivity.
Qed.

(** X14. With no participant per tournament
    ([NUM_TOURNAMENT_PARTICIPANTS = 0]), at least one individual and an
    initial population that does not hold the target, the first pass takes
    its queen and then raises RuntimeError in tournament selection: [topk(1)]
    has no entry to choose from (line 90). *)
Theorem no_participants_raises (src : nat -> nat -> Z) (rng : Rng) :
  NUM_TOURNAMENT_PARTICIPANTS cfg = 0%Z -> (1 <= POP_SIZE cfg)%Z ->
  ~ some_infinite cfg (initial cfg src) ->
  init cfg src = Ok (initial cfg src) /\
  iteration cfg rng (initial cfg src) = Err RuntimeError.
Proof.
  intros HK HP Hn.
  assert (Hi : init cfg src = Ok (initial cfg src)).
  { apply init_Ok. split; [lia|reflexivity]. }
  split; [exact Hi|].
  pose proof (init_wf cfg src _ Hi) as Hwf.
  assert (Hsize : Z.of_nat (length (pool (initial cfg src))) = POP_SIZE cfg).
  { simpl. rewrite length_randint. lia. }
  assert (Hq : queen (initial cfg src) = None) by reflexivity.
  assert (Hqf : queen_fitness (initial cfg src) = None) by reflexivity.
  clear Hi. generalize dependent (initial cfg src). intros st Hn Hwf Hsize Hq Hqf.
  assert (Hu : existsb is_inf (fitnesses cfg (sorted_pool cfg (pool st))) = false).
  { destruct (existsb is_inf _) eqn:E; [|reflexivity].
    exfalso. apply Hn. apply (some_infinite_iff cfg st Hwf). exact E. }
  pose proof (sorted_pool_Permutation cfg (pool st)) as Hperm.
  pose proof (Permutation_length Hperm) as Hlen.
  unfold iteration. rewrite sort_by_fitness_sorted_pool. cbn [bind fst snd].
  rewrite Hu, Hq, Hqf. cbn [demote bind fst snd].
  destruct (sorted_pool cfg (pool st)) as [|g p] eqn:Hs; [simpl in Hlen; lia|].
  cbn [extract index nth_error bind fst snd tl fitnesses map].
  unfold parents. destruct (Z.ltb_spec (POP_SIZE cfg - 1) 0) as [|_]; [lia|].
  set (n := Z.to_nat (POP_SIZE cfg - 1)).
  assert (Hp : length p = n) by (simpl in Hlen; unfold n; lia).
  destruct (mapM_total (gather p) (contender_ids cfg rng n)) as [participants Hpa].
  { intros ids Hids. destruct (contender_ids_rows cfg rng n ids Hids) as [Hlt _].
    apply gather_total. rewrite Hp. exact Hlt. }
  destruct (mapM_total (gather (map (fitness (target_gene cfg)) p)) (contender_ids cfg rng n))
    as [tournaments Hto].
  { intros ids Hids. destruct (contender_ids_rows cfg rng n ids Hids) as [Hlt _].
    apply gather_total. rewrite length_map, Hp. exact Hlt. }
  rewrite Hpa. cbn [bind]. rewrite Hto. cbn [bind].
  unfold tournament_width, py_take. rewrite HK. reflexivity.
Qed.

End Degenerate.

(** ** Where the next generation comes from (lines 75-123) *)

Section Descent.
Variable cfg : Config.

(** X15. Every member of the next generation is a crossover of the new
    queen with a mate, queen's first half and mate's second half or the other
    way round; the mate has [gene_length] values, and there is an individual
    of the generation before, a member of its population or its queen, from
    which the mate differs by at most 1 at every position. *)
Theorem next_generation_descends (rng : Rng) (st st' : State) :
  reachable cfg st -> iteration cfg rng st = Ok (Continue st') ->
  exists qg',
    queen st' = Some qg' /\
    forall child, In child (pool st') ->
      exists parent mate,
        (In parent (pool st) \/ queen st = Some parent) /\
        (child = queen_first cfg qg' mate \/ child = mate_first cfg qg' mate) /\
        length mate = gene_length cfg /\
        forall j u, nth_error parent j = Some u ->
          exists w, nth_error mate j = Some w /\ (-1 <= w - u <= 1)%Z.
Proof.
  intros Hr Hit. pose proof (reachable_wf cfg st Hr) as Hwf.
  apply iteration_Continue in Hit.
  destruct Hit as [p q1 qf1 p1 f1 qg' qf2 p2 f2 ps children Hp Hu Hd He Hps Hc].
  subst p. pose proof (sorted_pool_Permutation cfg (pool st)) as HP.
  exists qg'. split; [reflexivity|]. simpl.
  set (P := fun g : list Z => In g (pool st) \/ queen st = Some g).
  assert (Hsorted : Forall P (sorted_pool cfg (pool st))).
  { apply Forall_forall. intros g Hg. left.
    eapply Permutation_in; [apply Permutation_sym; exact HP|exact Hg]. }
  destruct (queen_phase_members P _ _ _ _ _ _ _ _ _ _ _ _ Hd He Hsorted
              (fun g Hg => or_intror Hg)) as [_ Hp2].
  destruct (queen_phase cfg st _ _ _ _ _ _ _ _ _ Hwf HP Hu Hd He)
    as [Hqok [_ [_ [Hp2ok _]]]].
  destruct (parents_spec cfg rng p2 f2 ps Hps) as [Hin Hn].
  assert (Hpsok : Forall (genome_ok cfg) ps).
  { apply Forall_forall. intros g Hg. rewrite Forall_forall in Hin, Hp2ok. auto. }
  pose proof (mutated_parents_ok cfg rng ps Hpsok) as Hmok.
  intros child Hchild. apply in_map_iff in Hchild. destruct Hchild as [child0 [Hcl Hchild0]].
  destruct (crossover_In cfg rng qg' _ children child0 Hc Hchild0) as [mate [Hmate Hform]].
  assert (Hmate_ok : genome_ok cfg mate).
  { rewrite Forall_forall in Hmok. auto. }
  assert (Hch0 : genome_ok cfg child0).
  { destruct (crossover_child_ok cfg qg' mate Hqok Hmate_ok) as [H1 H2].
    destruct Hform as [-> | ->]; assumption. }
  rewrite (clamp_id child0 (proj2 Hch0)) in Hcl. subst child0.
  destruct (In_nth_error _ _ Hmate) as [i Hi].
  assert (Hilt : i < length ps).
  { rewrite <- (length_mutated_parents cfg rng ps). apply nth_error_Some. congruence. }
  destruct (nth_error ps i) as [parent|] eqn:Hparent; [|apply nth_error_None in Hparent; lia].
  assert (Hparent_in : In parent ps) by (eapply nth_error_In; eauto).
  assert (Hparent_ok : genome_ok cfg parent).
  { rewrite Forall_forall in Hpsok. auto. }
  destruct (mutated_parents_positions cfg rng ps i parent Hparent Hparent_ok)
    as [out [Hout [_ Hpos]]].
  assert (out = mate) by congruence. subst out.
  exists parent, mate. split.
  { rewrite Forall_forall in Hin, Hp2. apply Hp2. apply Hin. exact Hparent_in. }
  split; [exact Hform|]. split; [apply Hmate_ok|].
  intros j u Hu'.
  assert (Hub : byte_valued u).
  { destruct Hparent_ok as [_ Hb]. rewrite Forall_forall in Hb. apply Hb.
    eapply nth_error_In; eauto. }
  unfold byte_valued in Hub.
  destruct (Hpos j u Hu') as [[_ [Ho|Ho]] | [_ Ho]]; eexists; (split; [exact Ho|lia]).
Qed.

End Descent.

(** ** What the weak mutation does to a run: nothing *)

Section WeakHasNoEffect.
Variable cfg : Config.

Lemma iteration_ignores_weak (q : Q) (rng : Rng)
    (keys : nat -> nat -> sample) (draws : nat -> nat -> Z) (st st' : State) :
  view st' = view st ->
  observe (iteration (with_mutation_prob cfg q) (with_weak_draws rng keys draws) st')
  = observe (iteration cfg rng st).
Proof.
  destruct st as [g p qn qf mp], st' as [g' p' qn' qf' mp']. unfold view. simpl.
  intros E. injection E as -> -> -> ->.
  unfold iteration. simpl.
  change (sort_by_fitness (with_mutation_prob cfg q)) with (sort_by_fitness cfg).
  destruct (sort_by_fitness cfg p) as [[ps fs]|]; simpl; [|reflexivity].
  destruct (existsb is_inf fs); [reflexivity|].
  destruct (demote _ _ _ _) as [d|]; simpl; [|reflexivity].
  destruct (extract _ _ _ _) as [e|]; simpl; [|reflexivity].
  change (parents (with_mutation_prob cfg q) (with_weak_draws rng keys draws))
    with (parents cfg rng).
  destruct (parents cfg rng _ _) as [pars|]; simpl; [|reflexivity].
  change (mutated_parents (with_mutation_prob cfg q) (with_weak_draws rng keys draws))
    with (mutated_parents cfg rng).
  destruct (fst (fst (fst e))) as [qg|]; [|reflexivity].
  change (crossover (with_mutation_prob cfg q) (with_weak_draws rng keys draws))
    with (crossover cfg rng).
  destruct (crossover cfg rng _ _) as [children|]; reflexivity.
Qed.

(** X16. Whatever [MUTATION_PROB] is and whatever is drawn for lines 119
    and 120, and whatever [mutated_pool] holds at the start, a run of any
    number of passes stops or runs on in the same way, with the same
    generation counter, population, queen and cached fitness, or raises the
    same exception. *)
Theorem weak_mutation_has_no_effect (q : Q) (fuel : nat) (rngs : nat -> Rng)
    (keys draws : nat -> nat -> nat -> Z) (st st' : State) :
  view st' = view st ->
  observe (run (with_mutation_prob cfg q) fuel
               (fun g => with_weak_draws (rngs g) (keys g) (draws g)) st')
  = observe (run cfg fuel rngs st).
Proof.
  revert st st'. induction fuel as [|fuel IH]; intros st st' Hv; simpl.
  - rewrite Hv. reflexivity.
  - assert (Hg : generation st' = generation st).
    { unfold view in Hv. injection Hv as Hg _ _ _. exact Hg. }
    rewrite Hg.
    pose proof (iteration_ignores_weak q (rngs (generation st))
                  (keys (generation st)) (draws (generation st)) st st' Hv) as Hstep.
    destruct (iteration cfg (rngs (generation st)) st) as [[s|s]|e];
      destruct (iteration (with_mutation_prob cfg q) _ st') as [[s'|s']|e'];
      unfold observe in Hstep; try discriminate; cbn [bind].
    + exact Hstep.
    + apply IH. congruence.
    + exact Hstep.
Qed.

End WeakHasNoEffect.

Lemma weak_mutation_has_no_effect_witness :
  observe (run (with_mutation_prob tiny 1) 1
               (fun g => with_weak_draws (rngs12 g) (fun _ _ => 0%Z) (fun _ _ => 0%Z))
               st1_unbound)
  = observe (run tiny 1 rngs12 st1).
Proof.
  apply (weak_mutation_has_no_effect tiny 1 1 rngs12
           (fun _ _ _ => 0%Z) (fun _ _ _ => 0%Z) st1 st1_unbound).
  reflexivity.
Defined.

(** ** A run with a usable configuration *)

Section WholeRun.
Variable cfg : Config.

Lemma run_from_reachable (fuel : nat) (rngs : nat -> Rng) (st : State) :
  (2 <= POP_SIZE cfg)%Z -> (1 <= NUM_TOURNAMENT_PARTICIPANTS cfg)%Z ->
  reachable cfg st ->
  exists o, run cfg fuel rngs st = Ok o /\
    match o with
    | Continue s => reachable cfg s
    | Break s => exists st_k, reachable cfg st_k /\ some_infinite cfg st_k /\
                              s = solved_state cfg st_k
    end.
Proof.
  intros Hp Hk. revert st. induction fuel as [|fuel IH]; intros st Hr; simpl.
  - eexists. split; [reflexivity|exact Hr].
  - pose proof (reachable_wf cfg st Hr) as Hwf.
    destruct (existsb is_inf (fitnesses cfg (sorted_pool cfg (pool st)))) eqn:E.
    + rewrite (iteration_solved cfg (rngs (generation st)) st E). simpl.
      eexists. split; [reflexivity|]. exists st. split; [exact Hr|].
      split; [|reflexivity]. apply (some_infinite_iff cfg st Hwf). exact E.
    + destruct (iteration_total cfg (rngs (generation st)) st Hwf Hp Hk E) as [st' Hit].
      rewrite Hit. simpl. apply IH. eapply reachable_step; eauto.
Qed.

(** X17. With at least two individuals and one participant per
    tournament, the script never raises: line 44 creates the population, and
    after any number of passes the loop has either stopped, at a generation
    that held an individual of infinite fitness and with that generation
    sorted, or it is at the head of a further generation. *)
Theorem run_never_raises (fuel : nat) (rngs : nat -> Rng) (src : nat -> nat -> Z) :
  (2 <= POP_SIZE cfg)%Z -> (1 <= NUM_TOURNAMENT_PARTICIPANTS cfg)%Z ->
  exists o, script cfg fuel rngs src = Ok o /\
    match o with
    | Continue s => reachable cfg s /\ generation s = 1 + fuel
    | Break s => exists st_k, reachable cfg st_k /\ some_infinite cfg st_k /\
                              s = solved_state cfg st_k /\ generation s <= fuel
    end.
Proof.
  intros Hp Hk.
  assert (Hi : init cfg src = Ok (initial cfg src)).
  { apply (init_Ok cfg). split; [lia|reflexivity]. }
  destruct (run_from_reachable fuel rngs (initial cfg src) Hp Hk
              (reachable_init cfg src _ Hi))
    as [o [Hrun Ho]].
  exists o. split; [unfold script; rewrite Hi; exact Hrun|].
  assert (Hgen : forall n rs st o',
            run cfg n rs st = Ok o' ->
            match o' with
            | Continue s => generation s = generation st + n
            | Break s => generation s < generation st + n
            end).
  { induction n as [|n IHn]; intros rs st o' Hn; simpl in Hn.
    - injection Hn as <-. lia.
    - destruct (iteration cfg (rs (generation st)) st) as [[s0|st']|] eqn:Hit;
        simpl in Hn; [| |discriminate].
      + injection Hn as <-. apply iteration_Break in Hit. destruct Hit as [_ ->].
        simpl. lia.
      + apply iteration_Continue in Hit.
        assert (Hg : generation st' = S (generation st)) by (destruct Hit; reflexivity).
        specialize (IHn rs st' o' Hn). destruct o'; lia. }
  specialize (Hgen fuel rngs (initial cfg src) o Hrun). simpl in Hgen.
  destruct o as [s|s].
  - destruct Ho as [st_k [H1 [H2 H3]]]. exists st_k. repeat split; try assumption. lia.
  - split; [exact Ho|exact Hgen].
Qed.

(** X18. On a pass of a run, the clamp of line 123 changes nothing: the
    crossover output already lies in [0, 255], and the next population is
    that output as it is. *)
Theorem final_clamp_changes_nothing (rng : Rng) (st st' : State) :
  reachable cfg st -> iteration cfg rng st = Ok (Continue st') ->
  exists qg' p2 f2 ps children,
    queen st' = Some qg' /\
    parents cfg rng p2 f2 = Ok ps /\
    crossover cfg rng qg' (mutated_parents cfg rng ps) = Ok children /\
    Forall (Forall byte_valued) children /\
    pool st' = children /\
    mutated_pool st' = Some (weak_mutate cfg rng children).
Proof.
  intros Hr Hit. pose proof (reachable_wf cfg st Hr) as Hwf.
  apply iteration_Continue in Hit.
  destruct Hit as [p q1 qf1 p1 f1 qg' qf2 p2 f2 ps children Hp Hu Hd He Hps Hc].
  subst p. pose proof (sorted_pool_Permutation cfg (pool st)) as HP.
  destruct (queen_phase cfg st _ _ _ _ _ _ _ _ _ Hwf HP Hu Hd He)
    as [Hqok [_ [_ [Hp2ok _]]]].
  destruct (parents_spec cfg rng p2 f2 ps Hps) as [Hin _].
  assert (Hpsok : Forall (genome_ok cfg) ps).
  { apply Forall_forall. intros g Hg. rewrite Forall_forall in Hin, Hp2ok. auto. }
  pose proof (mutated_parents_ok cfg rng ps Hpsok) as Hmok.
  assert (Hch : Forall (Forall byte_valued) children).
  { apply Forall_forall. intros child Hchild.
    destruct (crossover_In cfg rng qg' _ children child Hc Hchild) as [mate [Hmate Hform]].
    rewrite Forall_forall in Hmok.
    destruct (crossover_child_ok cfg qg' mate Hqok (Hmok _ Hmate)) as [[_ H1] [_ H2]].
    destruct Hform as [-> | ->]; assumption. }
  exists qg', p2, f2, ps, children. simpl.
  split; [reflexivity|]. split; [exact Hps|]. split; [exact Hc|]. split; [exact Hch|].
  split; [|reflexivity].
  clear - Hch. induction Hch as [|c l Hc _ IH]; simpl; [reflexivity|].
  rewrite (clamp_id c Hc), IH. reflexivity.
Qed.

End WholeRun.

Lemma run_never_raises_witness :
  exists o, script tiny 2 rngs12 src0 = Ok o /\
    match o with
    | Continue s => reachable tiny s /\ generation s = 1 + 2
    | Break s => exists st_k, reachable tiny st_k /\ some_infinite tiny st_k /\
                              s = solved_state tiny st_k /\ generation s <= 2
    end.
Proof.
  apply (run_never_raises tiny 2 rngs12 src0).
  - simpl. lia.
  - simpl. lia.
Defined.

Lemma final_clamp_changes_nothing_witness :
  exists qg' p2 f2 ps children,
    queen st2 = Some qg' /\
    parents tiny rng2 p2 f2 = Ok ps /\
    crossover tiny rng2 qg' (mutated_parents tiny rng2 ps) = Ok children /\
    Forall (Forall byte_valued) children /\
    pool st2 = children /\
    mutated_pool st2 = Some (weak_mutate tiny rng2 children).
Proof.
  apply (final_clamp_changes_nothing tiny rng2 st1 st2).
  - exact reachable_st1.
  - exact st1_st2.
Defined.

(** ** The theorems of this part at concrete inputs *)

Lemma tournament_winner_is_best_contender_witness :
  Z.of_nat (S (length [[65; 99]; [65; 99]; [65; 99]]%Z)) = POP_SIZE tiny /\
  exists ids w k fk,
    nth_error (contender_ids tiny rng2 (length [[65; 99]; [65; 99]; [65; 99]]%Z)) 0 = Some ids /\
    NoDup ids /\
    Forall (fun k' => k' < length [[65; 99]; [65; 99]; [65; 99]]%Z) ids /\
    length ids = tournament_width tiny (length [[65; 99]; [65; 99]; [65; 99]]%Z) /\
    nth_error ids w = Some k /\
    nth_error [[65; 99]; [0; 70]; [65; 70]]%Z k = Some [65; 99]%Z /\
    nth_error [Finite (1 # 1089); Finite (1 # 4241); Finite (1 # 16)] k = Some fk /\
    forall k' fk', In k' ids ->
      nth_error [Finite (1 # 1089); Finite (1 # 4241); Finite (1 # 16)] k' = Some fk' ->
      fge fk fk' = true.
Proof.
  apply (tournament_winner_is_best_contender tiny rng2
           [[65; 99]; [0; 70]; [65; 70]]%Z
           [Finite (1 # 1089); Finite (1 # 4241); Finite (1 # 16)]
           [[65; 99]; [65; 99]; [65; 99]]%Z 0 [65; 99]%Z).
  - vm_compute. reflexivity.
  - reflexivity.
Defined.

Lemma full_tournament_picks_fittest_witness :
  parents oversized rng1 [[65; 100]; [0; 67]; [0; 0]]%Z
          (fitnesses oversized [[65; 100]; [0; 67]; [0; 0]]%Z)
  = Ok [[65; 100]; [65; 100]; [65; 100]]%Z /\
  forall parent g,
    In parent [[65; 100]; [65; 100]; [65; 100]]%Z ->
    In g [[65; 100]; [0; 67]; [0; 0]]%Z ->
    fge (fitness (target_gene oversized) parent) (fitness (target_gene oversized) g) = true.
Proof.
  assert (H : parents oversized rng1 [[65; 100]; [0; 67]; [0; 0]]%Z
                (fitnesses oversized [[65; 100]; [0; 67]; [0; 0]]%Z)
              = Ok [[65; 100]; [65; 100]; [65; 100]]%Z) by (vm_compute; reflexivity).
  split; [exact H|].
  apply (full_tournament_picks_fittest oversized rng1 _ _ H).
  - reflexivity.
  - simpl. lia.
Defined.

Lemma loop_head_invariants_witness :
  1 <= generation st1 /\
  Forall (genome_ok tiny) (pool st1) /\
  (generation st1 = 1 ->
   queen st1 = None /\ queen_fitness st1 = None /\ mutated_pool st1 = None /\
   Z.of_nat (length (pool st1)) = POP_SIZE tiny) /\
  (1 < generation st1 ->
   exists qg, queen st1 = Some qg /\
              queen_fitness st1 = Some (fitness (target_gene tiny) qg) /\
              genome_ok tiny qg /\
              is_inf (fitness (target_gene tiny) qg) = false /\
              mutated_pool st1 <> None /\
              Z.of_nat (S (length (pool st1))) = POP_SIZE tiny).
Proof. apply (loop_head_invariants tiny st1). exact reachable_st1. Defined.

Lemma queen_never_gets_worse_witness :
  exists qg',
    queen st2 = Some qg' /\
    queen_fitness st2 = Some (fitness (target_gene tiny) qg') /\
    (forall g, In g (pool st1) ->
       fge (fitness (target_gene tiny) qg') (fitness (target_gene tiny) g) = true) /\
    (forall qg, queen st1 = Some qg ->
       fge (fitness (target_gene tiny) qg') (fitness (target_gene tiny) qg) = true /\
       (qg' = qg \/
        (In qg' (pool st1) /\
         flt (fitness (target_gene tiny) qg) (fitness (target_gene tiny) qg') = true))) /\
    (queen st1 = None -> In qg' (pool st1)).
Proof.
  apply (queen_never_gets_worse tiny rng2 st1 st2).
  - exact reachable_st1.
  - exact st1_st2.
Defined.

Lemma solved_population_starts_with_target_witness :
  exists rest,
    pool (solved_state tiny (initial tiny src_solved)) = target_gene tiny :: rest /\
    Permutation (pool (initial tiny src_solved)) (target_gene tiny :: rest) /\
    decode (target_gene tiny) = Ok (GOAL tiny) /\
    generation (solved_state tiny (initial tiny src_solved))
    = generation (initial tiny src_solved) /\
    queen (solved_state tiny (initial tiny src_solved)) = queen (initial tiny src_solved).
Proof.
  apply (solved_population_starts_with_target tiny rng1 (initial tiny src_solved)).
  - exact (reachable_init tiny src_solved _ eq_refl).
  - simpl. lia.
  - vm_compute. reflexivity.
Defined.

Lemma display_never_raises_witness :
  exists dq dp,
    display (queen st1) (queen_fitness st1) (sorted_pool tiny (pool st1))
            (fitnesses tiny (sorted_pool tiny (pool st1))) = Ok (dq, dp) /\
    length dp = length (pool st1) /\
    (forall i g, nth_error (sorted_pool tiny (pool st1)) i = Some g ->
       exists s, nth_error dp i = Some (s, fitness (target_gene tiny) g) /\
                 length s = gene_length tiny /\ map ord s = g) /\
    (queen st1 = None -> dq = None) /\
    (forall qg, queen st1 = Some qg ->
       exists s, dq = Some (s, fitness (target_gene tiny) qg) /\
                 length s = gene_length tiny /\ map ord s = qg).
Proof. apply (display_never_raises tiny st1). exact reachable_st1. Defined.

Lemma run_counts_generations_witness : generation st2 = generation st0 + 2.
Proof.
  apply (run_counts_generations tiny 2 rngs12 st0 (Continue st2)).
  vm_compute. reflexivity.
Defined.

Lemma weak_mutation_row_witness :
  length (weak_mutate tiny rng1 (pool st1)) = length (pool st1) /\
  exists out,
    nth_error (weak_mutate tiny rng1 (pool st1)) 1 = Some out /\
    length out = length [0; 70]%Z /\
    count_true (weak_mutate_mask tiny rng1 1)
    = ranks_below (fp_cast binary32 (num_code_mutate tiny)) (gene_length tiny) /\
    forall j v, nth_error [0; 70]%Z j = Some v ->
      (nth_error (weak_mutate_mask tiny rng1 1) j = Some true /\
       (nth_error out j = Some (v + 1)%Z \/ nth_error out j = Some (v - 1)%Z))
      \/
      (nth_error (weak_mutate_mask tiny rng1 1) j = Some false /\
       nth_error out j = Some v).
Proof.
  apply (weak_mutation_row tiny rng1 (pool st1) 1 [0; 70]%Z).
  - vm_compute. discriminate.
  - reflexivity.
  - split; [reflexivity|]. repeat constructor; unfold byte_valued; lia.
Defined.

Lemma empty_population_raises_witness :
  init no_population src0 = Ok (initial no_population src0) /\
  iteration no_population rng1 (initial no_population src0) = Err IndexError.
Proof. apply (empty_population_raises no_population src0 rng1). reflexivity. Defined.

Lemma no_participants_raises_witness :
  init no_participants src0 = Ok (initial no_participants src0) /\
  iteration no_participants rng1 (initial no_participants src0) = Err RuntimeError.
Proof.
  apply (no_participants_raises no_participants src0 rng1).
  - reflexivity.
  - simpl. lia.
  - intros [[g [Hg Hinf]] | [qg [Hq _]]]; [|discriminate].
    simpl in Hg. destruct Hg as [<-|[<-|[<-|[<-|[]]]]]; vm_compute in Hinf; discriminate.
Defined.

Lemma next_generation_descends_witness :
  exists qg',
    queen st2 = Some qg' /\
    forall child, In child (pool st2) ->
      exists parent mate,
        (In parent (pool st1) \/ queen st1 = Some parent) /\
        (child = queen_first tiny qg' mate \/ child = mate_first tiny qg' mate) /\
        length mate = gene_length tiny /\
        forall j u, nth_error parent j = Some u ->
          exists w, nth_error mate j = Some w /\ (-1 <= w - u <= 1)%Z.
Proof.
  apply (next_generation_descends tiny rng2 st1 st2).
  - exact reachable_st1.
  - exact st1_st2.
Defined.
